(** * Open addressing without reordering: the tiered hash table

    A shallow embedding of [src/hash_table.py] (classes [SubArray],
    [LastSubArray] and [OpenAddressHashTable]) and the properties of its
    specification.

    Conventions of the embedding.
    - Python integers are [Z]; [%] and [//] are [Z.modulo] and [Z.div]
      (both follow the sign of the divisor, as Python does) behind a test
      for a zero divisor, which raises [ZeroDivisionError].
    - A slot of a table is [None] or [Some (key, value)]; a stored value
      is itself an [option], whose [None] is Python's [None], because the
      code accepts any object as a value and tests results with
      [is not None].
    - Keys come with the three things the code asks of them: [==],
      [hash(key)] and [hash(str(key))]; [==] is a decidable equality of
      the key type, and the two hashes are functions of the key.
    - A method that assigns to [self] returns the new object. Every
      method of the two tier classes assigns immediately before it
      returns [True], so a raised exception leaves the tier as it was;
      the table's [insert] threads the tiers through its loops and
      returns the table together with the outcome.
    - The floating point expressions of the source are read as follows.
      [int(math.log2(math.log2(size + 1) + 1))] is the integer
      [Z.log2 (Z.log2 (size + 1) + 1)] (the two agree as long as
      [size + 1] is exactly representable, that is below [2^53]).
      [int(math.log2(1/delta) / 3)] and [int(math.log2(1/delta))] are
      taken as the two integers [alpha] and [max_probes] they evaluate
      to: [delta = 0.1] gives [alpha = 1] and [max_probes = 3],
      [delta = 0.5] gives [0] and [1], [delta = 2.0] gives [0] and [-1].
      [count / size] is the exact rational, and [0.9] is [9/10]. *)

From Stdlib Require Import ZArith QArith Lia.
From stdpp Require Import base decidable option list.

Open Scope Z_scope.

(** ** Fragments of the Python runtime *)

Inductive exn := ZeroDivisionError | IndexError | ValueError.

Inductive result (A : Type) :=
  | Ok (a : A)
  | Raise (e : exn).
Arguments Ok {A} a.
Arguments Raise {A} e.

#[global] Instance result_bind : MBind result :=
  fun A B f r => match r with Ok a => f a | Raise e => Raise e end.

(** [a % b] *)
Definition py_mod (a b : Z) : result Z :=
  if decide (b = 0) then Raise ZeroDivisionError else Ok (a `mod` b).

(** [a // b] *)
Definition py_floordiv (a b : Z) : result Z :=
  if decide (b = 0) then Raise ZeroDivisionError else Ok (a `div` b).

(** Index of a list access: a negative index counts from the end, and an
    index outside the list raises [IndexError]. *)
Definition norm_index {A} (l : list A) (i : Z) : result nat :=
  let n := Z.of_nat (length l) in
  let j := if decide (i < 0) then i + n else i in
  if decide (0 <= j < n) then Ok (Z.to_nat j) else Raise IndexError.

(** [l[i]] *)
Definition getitem {A} (l : list A) (i : Z) : result A :=
  j ← norm_index l i;
  match l !! j with
  | Some x => Ok x
  | None => Raise IndexError
  end.

(** [l[i] = x] *)
Definition setitem {A} (l : list A) (i : Z) (x : A) : result (list A) :=
  j ← norm_index l i;
  Ok (<[j:=x]> l).

(** [range(n)] *)
Definition range (n : Z) : list Z := seqZ 0 n.

(** [int(math.log2(math.log2(size + 1) + 1))]; [math.log2] raises
    [ValueError] on an argument that is not positive. *)
Definition loglog (size : Z) : result Z :=
  if decide (size + 1 <= 0) then Raise ValueError
  else Ok (Z.log2 (Z.log2 (size + 1) + 1)).

(** What the code requires of a key. *)
Class Hashable (Key : Type) := {
  key_eq_dec :: EqDecision Key;   (* [k1 == k2] *)
  hash : Key -> Z;                (* [hash(key)] *)
  hash_str : Key -> Z;            (* [hash(str(key))] *)
}.

(** A slot: [None] or the pair [(key, value)]. *)
Abbreviation slot Key Val := (option (Key * option Val)) (only parsing).

(** [sum(1 for x in bucket if x is None)] *)
Fixpoint count_empty {Key Val} (bucket : list (slot Key Val)) : Z :=
  match bucket with
  | [] => 0
  | None :: rest => 1 + count_empty rest
  | Some _ :: rest => count_empty rest
  end.

(** ** class SubArray *)

Module SubArray.

Record t (Key Val : Type) := mk {
  _size : Z;
  _table : list (slot Key Val);
  _count : Z;
}.
Arguments mk {Key Val}.
Arguments _size {Key Val}.
Arguments _table {Key Val}.
Arguments _count {Key Val}.

Section methods.
Context {Key Val : Type} `{Hashable Key}.
Implicit Types (self : t Key Val) (key : Key) (value : option Val).

(** [__init__] *)
Definition init (size : Z) : t Key Val :=
  mk size (replicate (Z.to_nat size) None) 0.

(** [_hash]: double hashing. *)
Definition _hash self key (attempt : Z) : result Z :=
  h1 ← py_mod (hash key) (_size self);
  r ← py_mod (hash_str key) (_size self - 1);
  let h2 := 1 + r in
  py_mod (h1 + attempt * h2) (_size self).

(** First loop of [insert]: [Ok (Some tbl)] when the key was met and its
    value overwritten ([return True]), [Ok None] when the loop ended by
    [break] or by exhausting its range. *)
Fixpoint insert_update self key value (attempts : list Z)
    : result (option (list (slot Key Val))) :=
  match attempts with
  | [] => Ok None
  | i :: rest =>
      pos ← _hash self key i;
      s ← getitem (_table self) pos;
      match s with
      | None => Ok None
      | Some (k, _) =>
          if decide (k = key)
          then tbl ← setitem (_table self) pos (Some (key, value)); Ok (Some tbl)
          else insert_update self key value rest
      end
  end.

(** Second loop of [insert]: the first empty probed slot takes the entry. *)
Fixpoint insert_place self key value (attempts : list Z)
    : result (option (list (slot Key Val))) :=
  match attempts with
  | [] => Ok None
  | i :: rest =>
      pos ← _hash self key i;
      s ← getitem (_table self) pos;
      match s with
      | None => tbl ← setitem (_table self) pos (Some (key, value)); Ok (Some tbl)
      | Some _ => insert_place self key value rest
      end
  end.

(** [insert] *)
Definition insert self key value (max_probes : Z) : result (bool * t Key Val) :=
  u ← insert_update self key value (range max_probes);
  match u with
  | Some tbl => Ok (true, mk (_size self) tbl (_count self))
  | None =>
      p ← insert_place self key value (range max_probes);
      match p with
      | Some tbl => Ok (true, mk (_size self) tbl (_count self + 1))
      | None => Ok (false, self)
      end
  end.

Fixpoint search_loop self key (attempts : list Z) : result (option Val) :=
  match attempts with
  | [] => Ok None
  | i :: rest =>
      pos ← _hash self key i;
      s ← getitem (_table self) pos;
      match s with
      | None => Ok None
      | Some (k, v) => if decide (k = key) then Ok v else search_loop self key rest
      end
  end.

(** [search] *)
Definition search self key : result (option Val) :=
  search_loop self key (range (_size self)).

(** [load_factor] *)
Definition load_factor self : result Q :=
  if decide (_size self = 0) then Raise ZeroDivisionError
  else Ok (inject_Z (_count self) / inject_Z (_size self))%Q.

End methods.
End SubArray.

(** ** class LastSubArray *)

Module LastSubArray.

Record t (Key Val : Type) := mk {
  _size : Z;
  _b_size : Z;
  _c_size : Z;
  _bucket_size : Z;
  _b : list (slot Key Val);
  _c : list (list (slot Key Val));
  _count : Z;
}.
Arguments mk {Key Val}.
Arguments _size {Key Val}.
Arguments _b_size {Key Val}.
Arguments _c_size {Key Val}.
Arguments _bucket_size {Key Val}.
Arguments _b {Key Val}.
Arguments _c {Key Val}.
Arguments _count {Key Val}.

Section methods.
Context {Key Val : Type} `{Hashable Key}.
Implicit Types (self : t Key Val) (key : Key) (value : option Val).

(** [__init__] *)
Definition init (size : Z) : result (t Key Val) :=
  let b_size := size `div` 2 in
  let c_size := size - b_size in
  ll ← loglog size;
  let bucket_size := 2 * ll in
  num_buckets ← py_floordiv (c_size + bucket_size - 1) bucket_size;
  Ok (mk size b_size c_size bucket_size
        (replicate (Z.to_nat b_size) None)
        (replicate (Z.to_nat num_buckets) (replicate (Z.to_nat bucket_size) None))
        0).

(** [_hash_b] *)
Definition _hash_b self key (attempt : Z) : result Z :=
  h1 ← py_mod (hash key) (_b_size self);
  r ← py_mod (hash_str key) (_b_size self - 1);
  let h2 := 1 + r in
  py_mod (h1 + attempt * h2) (_b_size self).

(** [_hash_c] *)
Definition _hash_c self key : result (Z * Z) :=
  let num_buckets := Z.of_nat (length (_c self)) in
  h1 ← py_mod (hash key) num_buckets;
  r ← py_mod (hash_str key) (num_buckets - 1);
  h2 ← py_mod (h1 + 1 + r) num_buckets;
  Ok (h1, h2).

(** Overwrite scan of part B: every probe is looked at, there is no [break]. *)
Fixpoint insert_update_b self key value (attempts : list Z)
    : result (option (list (slot Key Val))) :=
  match attempts with
  | [] => Ok None
  | i :: rest =>
      pos ← _hash_b self key i;
      s ← getitem (_b self) pos;
      match s with
      | Some (k, _) =>
          if decide (k = key)
          then b ← setitem (_b self) pos (Some (key, value)); Ok (Some b)
          else insert_update_b self key value rest
      | None => insert_update_b self key value rest
      end
  end.

(** [for i, item in enumerate(bucket)]: the index of the first item that
    holds the key, counting from [i]. *)
Fixpoint bucket_index key (bucket : list (slot Key Val)) (i : nat) : option nat :=
  match bucket with
  | [] => None
  | Some (k, _) :: rest =>
      if decide (k = key) then Some i else bucket_index key rest (S i)
  | None :: rest => bucket_index key rest (S i)
  end.

(** Overwrite scan of part C, over the list [[self._c[b1], self._c[b2]]]:
    both buckets are fetched, then scanned in that order; the assignment
    [bucket[i] = ...] changes the bucket in place inside [self._c]. *)
Definition insert_update_c self key value (b1 b2 : Z)
    : result (option (list (list (slot Key Val)))) :=
  j1 ← norm_index (_c self) b1;
  bucket1 ← getitem (_c self) b1;
  j2 ← norm_index (_c self) b2;
  bucket2 ← getitem (_c self) b2;
  match bucket_index key bucket1 0 with
  | Some i => Ok (Some (<[j1 := <[i := Some (key, value)]> bucket1]> (_c self)))
  | None =>
      match bucket_index key bucket2 0 with
      | Some i => Ok (Some (<[j2 := <[i := Some (key, value)]> bucket2]> (_c self)))
      | None => Ok None
      end
  end.

(** Placement in part B: the first empty probed slot. *)
Fixpoint insert_place_b self key value (attempts : list Z)
    : result (option (list (slot Key Val))) :=
  match attempts with
  | [] => Ok None
  | i :: rest =>
      pos ← _hash_b self key i;
      s ← getitem (_b self) pos;
      match s with
      | None => b ← setitem (_b self) pos (Some (key, value)); Ok (Some b)
      | Some _ => insert_place_b self key value rest
      end
  end.

(** [for i in range(self._bucket_size)] over the chosen bucket. *)
Fixpoint place_in_bucket key value (target_bucket : list (slot Key Val)) (idxs : list Z)
    : result (option (list (slot Key Val))) :=
  match idxs with
  | [] => Ok None
  | i :: rest =>
      s ← getitem target_bucket i;
      match s with
      | None => bkt ← setitem target_bucket i (Some (key, value)); Ok (Some bkt)
      | Some _ => place_in_bucket key value target_bucket rest
      end
  end.

(** The two-choice rule: [bucket1 if empty1 >= empty2 else bucket2],
    as the index of the chosen bucket. *)
Definition choose_bucket (b1 b2 : Z) (bucket1 bucket2 : list (slot Key Val)) : Z :=
  if decide (count_empty bucket1 >= count_empty bucket2) then b1 else b2.

(** Placement in part C. *)
Definition insert_place_c self key value
    : result (option (list (list (slot Key Val)))) :=
  '(b1, b2) ← _hash_c self key;
  bucket1 ← getitem (_c self) b1;
  bucket2 ← getitem (_c self) b2;
  let target := choose_bucket b1 b2 bucket1 bucket2 in
  j ← norm_index (_c self) target;
  target_bucket ← getitem (_c self) target;
  p ← place_in_bucket key value target_bucket (range (_bucket_size self));
  match p with
  | Some bkt => Ok (Some (<[j := bkt]> (_c self)))
  | None => Ok None
  end.

Definition with_b self b : t Key Val :=
  mk (_size self) (_b_size self) (_c_size self) (_bucket_size self) b (_c self) (_count self).
Definition with_c self c : t Key Val :=
  mk (_size self) (_b_size self) (_c_size self) (_bucket_size self) (_b self) c (_count self).
Definition incr_count self : t Key Val :=
  mk (_size self) (_b_size self) (_c_size self) (_bucket_size self) (_b self) (_c self)
     (_count self + 1).

(** [insert] *)
Definition insert self key value : result (bool * t Key Val) :=
  max_attempts ← loglog (_size self);
  ub ← insert_update_b self key value (range max_attempts);
  match ub with
  | Some b => Ok (true, with_b self b)
  | None =>
      '(b1, b2) ← _hash_c self key;
      uc ← insert_update_c self key value b1 b2;
      match uc with
      | Some c => Ok (true, with_c self c)
      | None =>
          pb ← insert_place_b self key value (range max_attempts);
          match pb with
          | Some b => Ok (true, incr_count (with_b self b))
          | None =>
              pc ← insert_place_c self key value;
              match pc with
              | Some c => Ok (true, incr_count (with_c self c))
              | None => Ok (false, self)
              end
          end
      end
  end.

(** Search loop of part B: [Some v] is [return v], [None] is leaving the
    loop by [break] or exhaustion. *)
Fixpoint search_b self key (attempts : list Z) : result (option (option Val)) :=
  match attempts with
  | [] => Ok None
  | i :: rest =>
      pos ← _hash_b self key i;
      s ← getitem (_b self) pos;
      match s with
      | None => Ok None
      | Some (k, v) => if decide (k = key) then Ok (Some v) else search_b self key rest
      end
  end.

(** [for item in bucket]: the value of the first item that holds the key. *)
Fixpoint bucket_search key (bucket : list (slot Key Val)) : option (option Val) :=
  match bucket with
  | [] => None
  | Some (k, v) :: rest => if decide (k = key) then Some v else bucket_search key rest
  | None :: rest => bucket_search key rest
  end.

(** [search] *)
Definition search self key : result (option Val) :=
  max_attempts ← loglog (_size self);
  rb ← search_b self key (range max_attempts);
  match rb with
  | Some v => Ok v
  | None =>
      '(b1, b2) ← _hash_c self key;
      bucket1 ← getitem (_c self) b1;
      bucket2 ← getitem (_c self) b2;
      match bucket_search key bucket1 with
      | Some v => Ok v
      | None =>
          match bucket_search key bucket2 with
          | Some v => Ok v
          | None => Ok None
          end
      end
  end.

(** [load_factor] *)
Definition load_factor self : result Q :=
  if decide (_size self = 0) then Raise ZeroDivisionError
  else Ok (inject_Z (_count self) / inject_Z (_size self))%Q.

End methods.
End LastSubArray.

(** ** class OpenAddressHashTable *)

Module OpenAddressHashTable.

(** The table. The field [_max_probes] stands for
    [int(math.log2(1/self._delta))], the only use the methods make of
    [self._delta]. *)
Record t (Key Val : Type) := mk {
  _size : Z;
  _max_probes : Z;
  _count : Z;
  _alpha : Z;
  _subarrays : list (SubArray.t Key Val);
  _last_array : option (LastSubArray.t Key Val);
}.
Arguments mk {Key Val}.
Arguments _size {Key Val}.
Arguments _max_probes {Key Val}.
Arguments _count {Key Val}.
Arguments _alpha {Key Val}.
Arguments _subarrays {Key Val}.
Arguments _last_array {Key Val}.

(** The operations of the public surface. *)
Inductive op (Key Val : Type) :=
  | Insert (key : Key) (value : option Val)
  | Search (key : Key)
  | LoadFactor.
Arguments Insert {Key Val}.
Arguments Search {Key Val}.
Arguments LoadFactor {Key Val}.

Section methods.
Context {Key Val : Type} `{Hashable Key}.
Implicit Types (self : t Key Val) (key : Key) (value : option Val).

(** [for i in range(self._alpha)]: the uniform tiers, halving; the loop
    is left at the first size below 1. *)
Fixpoint init_subarrays (current_size : Z) (idxs : list Z) : list (SubArray.t Key Val) :=
  match idxs with
  | [] => []
  | i :: rest =>
      let size := current_size `div` 2 ^ i in
      if decide (size < 1) then []
      else SubArray.init size :: init_subarrays current_size rest
  end.

(** [sum(arr._size for arr in self._subarrays)] *)
Definition sum_sizes (subarrays : list (SubArray.t Key Val)) : Z :=
  foldr (fun arr acc => SubArray._size arr + acc) 0 subarrays.

(** [__init__]; [alpha] and [max_probes] are the values of
    [int(math.log2(1/delta) / 3)] and [int(math.log2(1/delta))]. *)
Definition init (initial_size alpha max_probes : Z) : result (t Key Val) :=
  let subarrays := init_subarrays (initial_size `div` 2) (range alpha) in
  let last_size := initial_size - sum_sizes subarrays in
  last_array ← (if decide (last_size > 0)
                then la ← LastSubArray.init last_size; Ok (Some la)
                else Ok None);
  Ok (mk initial_size max_probes 0 alpha subarrays last_array).

(** [load_factor] *)
Definition load_factor self : result Q :=
  if decide (_size self = 0) then Raise ZeroDivisionError
  else Ok (inject_Z (_count self) / inject_Z (_size self))%Q.

(** First loop of [insert]: the first uniform tier whose [search] is not
    [None] takes the call, and its answer is the answer of [insert]. *)
Fixpoint update_subarrays (subarrays : list (SubArray.t Key Val)) key value
    (max_probes : Z) : result (option (bool * list (SubArray.t Key Val))) :=
  match subarrays with
  | [] => Ok None
  | subarray :: rest =>
      r ← SubArray.search subarray key;
      match r with
      | Some _ =>
          '(b, subarray') ← SubArray.insert subarray key value max_probes;
          Ok (Some (b, subarray' :: rest))
      | None =>
          o ← update_subarrays rest key value max_probes;
          match o with
          | Some (b, rest') => Ok (Some (b, subarray :: rest'))
          | None => Ok None
          end
      end
  end.

(** The same test on the terminal tier. *)
Definition update_last (last_array : option (LastSubArray.t Key Val)) key value
    : result (option (bool * LastSubArray.t Key Val)) :=
  match last_array with
  | None => Ok None
  | Some la =>
      r ← LastSubArray.search la key;
      match r with
      | Some _ => r' ← LastSubArray.insert la key value; Ok (Some r')
      | None => Ok None
      end
  end.

(** Placement loop over the uniform tiers. The outcome comes with the
    tiers as the loop leaves them. *)
Fixpoint place_subarrays (subarrays : list (SubArray.t Key Val)) key value
    (max_probes : Z) : result bool * list (SubArray.t Key Val) :=
  match subarrays with
  | [] => (Ok false, [])
  | subarray :: rest =>
      match SubArray.insert subarray key value max_probes with
      | Raise e => (Raise e, subarray :: rest)
      | Ok (true, subarray') => (Ok true, subarray' :: rest)
      | Ok (false, subarray') =>
          let '(r, rest') := place_subarrays rest key value max_probes in
          (r, subarray' :: rest')
      end
  end.

Definition with_subarrays self subarrays : t Key Val :=
  mk (_size self) (_max_probes self) (_count self) (_alpha self) subarrays (_last_array self).
Definition with_last self la : t Key Val :=
  mk (_size self) (_max_probes self) (_count self) (_alpha self) (_subarrays self) (Some la).
Definition incr_count self : t Key Val :=
  mk (_size self) (_max_probes self) (_count self + 1) (_alpha self) (_subarrays self)
     (_last_array self).

(** Placement of a key that the existence test did not find. *)
Definition place self key value : result bool * t Key Val :=
  match place_subarrays (_subarrays self) key value (_max_probes self) with
  | (Raise e, subarrays) => (Raise e, with_subarrays self subarrays)
  | (Ok true, subarrays) => (Ok true, incr_count (with_subarrays self subarrays))
  | (Ok false, subarrays) =>
      let self' := with_subarrays self subarrays in
      match _last_array self' with
      | None => (Ok false, self')
      | Some la =>
          match LastSubArray.insert la key value with
          | Raise e => (Raise e, self')
          | Ok (true, la') => (Ok true, incr_count (with_last self' la'))
          | Ok (false, la') => (Ok false, with_last self' la')
          end
      end
  end.

(** [insert]: the outcome and the table afterwards. *)
Definition insert self key value : result bool * t Key Val :=
  match update_subarrays (_subarrays self) key value (_max_probes self) with
  | Raise e => (Raise e, self)
  | Ok (Some (b, subarrays)) => (Ok b, with_subarrays self subarrays)
  | Ok None =>
      match update_last (_last_array self) key value with
      | Raise e => (Raise e, self)
      | Ok (Some (b, la)) => (Ok b, with_last self la)
      | Ok None =>
          match load_factor self with
          | Raise e => (Raise e, self)
          | Ok current_load =>
              if Qle_bool (9 # 10) current_load then (Ok false, self)
              else place self key value
          end
      end
  end.

Fixpoint search_subarrays (subarrays : list (SubArray.t Key Val)) key
    : result (option Val) :=
  match subarrays with
  | [] => Ok None
  | subarray :: rest =>
      r ← SubArray.search subarray key;
      match r with
      | Some v => Ok (Some v)
      | None => search_subarrays rest key
      end
  end.

(** [search] *)
Definition search self key : result (option Val) :=
  r ← search_subarrays (_subarrays self) key;
  match r with
  | Some v => Ok (Some v)
  | None =>
      match _last_array self with
      | Some la => LastSubArray.search la key
      | None => Ok None
      end
  end.

(** The table after one operation, whatever its outcome. *)
Definition exec self (o : op Key Val) : t Key Val :=
  match o with
  | Insert key value => (insert self key value).2
  | Search _ => self
  | LoadFactor => self
  end.

(** The table after a sequence of operations. *)
Definition run self (ops : list (op Key Val)) : t Key Val :=
  foldl exec self ops.

End methods.
End OpenAddressHashTable.

(** ** Vocabulary of the specification *)

Section vocabulary.
Context {Key Val : Type} `{Hashable Key}.
Implicit Types (tbl : list (slot Key Val)) (k : Key) (s : slot Key Val).

(** The probe position of the specification:
    [(h1 + i*h2) mod capacity]. *)
Definition probe (capacity : Z) k (i : Z) : Z :=
  let h1 := hash k `mod` capacity in
  let h2 := 1 + hash_str k `mod` (capacity - 1) in
  (h1 + i * h2) `mod` capacity.

(** The slot at a position of a slot array. *)
Definition nth_slot tbl (p : Z) : slot Key Val := default None (tbl !! Z.to_nat p).

(** A slot holds key [k]; a slot is occupied by another key. *)
Definition holds k s : Prop := exists v, s = Some (k, v).
Definition other k s : Prop := exists k' v, s = Some (k', v) /\ k' <> k.

(** What an insert of key [k] may do to one slot: nothing, or write
    [k] into a slot that was empty or already held [k]. *)
Definition slot_step k s s' : Prop :=
  s' = s \/ (holds k s' /\ (s = None \/ holds k s)).

(** Key [k] is in no slot of the array. *)
Definition free_in tbl k : Prop := Forall (fun s => ~ holds k s) tbl.

(** Key [k] with value [v] sits at its probe number [i], and all its
    earlier probes are occupied by other keys. *)
Definition at_probe (capacity : Z) tbl k (i : Z) (v : option Val) : Prop :=
  0 <= i /\ nth_slot tbl (probe capacity k i) = Some (k, v) /\
  forall j, 0 <= j < i -> other k (nth_slot tbl (probe capacity k j)).

(** The first [n] probes of [k] are all occupied. *)
Definition blocked (capacity : Z) tbl k (n : Z) : Prop :=
  forall j, 0 <= j < n -> nth_slot tbl (probe capacity k j) <> None.

(** Every slot of the array is empty. *)
Definition all_empty tbl : Prop := Forall (fun s => s = None) tbl.

End vocabulary.

(** *** Uniform tiers *)

Module SubArraySpec.
Section defs.
Context {Key Val : Type} `{Hashable Key}.
Implicit Types (sa : SubArray.t Key Val) (k : Key).

(** Shape given by the constructor: at least one slot, as many slots as
    the declared size. *)
Definition wf sa : Prop :=
  1 <= SubArray._size sa /\ length (SubArray._table sa) = Z.to_nat (SubArray._size sa).

(** The moduli [size] and [size - 1] are not zero. *)
Definition safe sa : Prop := 2 <= SubArray._size sa.

Definition free sa k : Prop := free_in (SubArray._table sa) k.

Definition holds_value (max_probes : Z) sa k (v : option Val) : Prop :=
  exists i, i < max_probes /\ at_probe (SubArray._size sa) (SubArray._table sa) k i v.

Definition rejects (max_probes : Z) sa k : Prop :=
  free sa k /\ blocked (SubArray._size sa) (SubArray._table sa) k max_probes.

(** One insert of key [k] leads from [sa] to [sa']. *)
Definition step k sa sa' : Prop :=
  SubArray._size sa' = SubArray._size sa /\
  Forall2 (slot_step k) (SubArray._table sa) (SubArray._table sa').

Definition empty sa : Prop := all_empty (SubArray._table sa) /\ SubArray._count sa = 0.

End defs.
End SubArraySpec.

(** *** The terminal tier *)

Module LastSubArraySpec.
Section defs.
Context {Key Val : Type} `{Hashable Key}.
Implicit Types (la : LastSubArray.t Key Val) (k : Key).

(** Shape given by the constructor. *)
Definition wf la : Prop :=
  1 <= LastSubArray._size la /\
  0 <= LastSubArray._b_size la /\
  length (LastSubArray._b la) = Z.to_nat (LastSubArray._b_size la) /\
  Forall (fun bucket => length bucket = Z.to_nat (LastSubArray._bucket_size la))
         (LastSubArray._c la).

(** The moduli of [_hash_b] and [_hash_c] are not zero. *)
Definition safe la : Prop :=
  2 <= LastSubArray._b_size la /\ 2 <= Z.of_nat (length (LastSubArray._c la)).

(** The probe bound of part B. *)
Definition attempts la : Z := Z.log2 (Z.log2 (LastSubArray._size la + 1) + 1).

(** The two candidate buckets of a key. *)
Definition cand1 la k : Z := hash k `mod` Z.of_nat (length (LastSubArray._c la)).
Definition cand2 la k : Z :=
  let num_buckets := Z.of_nat (length (LastSubArray._c la)) in
  (cand1 la k + 1 + hash_str k `mod` (num_buckets - 1)) `mod` num_buckets.

(** The bucket at an index of part C. *)
Definition nth_bucket (c : list (list (slot Key Val))) (j : Z) : list (slot Key Val) :=
  default [] (c !! Z.to_nat j).

(** First hit for [k] in the first candidate bucket, then the second. *)
Definition found k (bucket1 bucket2 : list (slot Key Val)) : option (option Val) :=
  match LastSubArray.bucket_search k bucket1 with
  | Some v => Some v
  | None => LastSubArray.bucket_search k bucket2
  end.

Definition free la k : Prop :=
  free_in (LastSubArray._b la) k /\
  Forall (fun bucket => free_in bucket k) (LastSubArray._c la).

Definition in_b la k (v : option Val) : Prop :=
  exists i, i < attempts la /\
    at_probe (LastSubArray._b_size la) (LastSubArray._b la) k i v.

Definition in_c la k (v : option Val) : Prop :=
  (forall j, 0 <= j < attempts la ->
     other k (nth_slot (LastSubArray._b la) (probe (LastSubArray._b_size la) k j))) /\
  found k (nth_bucket (LastSubArray._c la) (cand1 la k))
          (nth_bucket (LastSubArray._c la) (cand2 la k)) = Some v.

Definition holds_value la k (v : option Val) : Prop := in_b la k v \/ in_c la k v.

(** The bucket that a placement in part C chooses for [k]. *)
Definition chosen la k : Z :=
  LastSubArray.choose_bucket (cand1 la k) (cand2 la k)
    (nth_bucket (LastSubArray._c la) (cand1 la k))
    (nth_bucket (LastSubArray._c la) (cand2 la k)).

(** One insert of key [k] leads from [la] to [la']. *)
Definition step k la la' : Prop :=
  LastSubArray._size la' = LastSubArray._size la /\
  LastSubArray._b_size la' = LastSubArray._b_size la /\
  LastSubArray._c_size la' = LastSubArray._c_size la /\
  LastSubArray._bucket_size la' = LastSubArray._bucket_size la /\
  Forall2 (slot_step k) (LastSubArray._b la) (LastSubArray._b la') /\
  Forall2 (Forall2 (slot_step k)) (LastSubArray._c la) (LastSubArray._c la').

Definition empty la : Prop :=
  all_empty (LastSubArray._b la) /\ Forall all_empty (LastSubArray._c la) /\
  LastSubArray._count la = 0.

End defs.
End LastSubArraySpec.

(** *** The table *)

Module TableSpec.
Section defs.
Context {Key Val : Type} `{Hashable Key}.
Implicit Types (T : OpenAddressHashTable.t Key Val) (k : Key).

(** Sum of the declared capacities of all tiers. *)
Definition total_capacity T : Z :=
  OpenAddressHashTable.sum_sizes (OpenAddressHashTable._subarrays T) +
  match OpenAddressHashTable._last_array T with
  | Some la => LastSubArray._size la
  | None => 0
  end.

(** Shape given by the constructor. *)
Definition wf T : Prop :=
  Forall SubArraySpec.wf (OpenAddressHashTable._subarrays T) /\
  match OpenAddressHashTable._last_array T with
  | Some la => LastSubArraySpec.wf la /\ 1 <= OpenAddressHashTable._size T
  | None => OpenAddressHashTable._subarrays T = []
  end.

(** No modulus of any tier is zero. *)
Definition safe T : Prop :=
  Forall SubArraySpec.safe (OpenAddressHashTable._subarrays T) /\
  exists la, OpenAddressHashTable._last_array T = Some la /\ LastSubArraySpec.safe la.

Definition empty T : Prop :=
  Forall SubArraySpec.empty (OpenAddressHashTable._subarrays T) /\
  match OpenAddressHashTable._last_array T with
  | Some la => LastSubArraySpec.empty la
  | None => True
  end /\
  OpenAddressHashTable._count T = 0.

Definition last_free T k : Prop :=
  match OpenAddressHashTable._last_array T with
  | Some la => LastSubArraySpec.free la k
  | None => True
  end.

(** Key [k] is absent from every tier. *)
Definition absent T k : Prop :=
  Forall (fun sa => SubArraySpec.free sa k) (OpenAddressHashTable._subarrays T) /\
  last_free T k.

(** Key [k] is held, with value [v], by exactly one tier, and every tier
    before that one rejects it. *)
Definition stored T k (v : option Val) : Prop :=
  let mp := OpenAddressHashTable._max_probes T in
  (exists pre sa post,
     OpenAddressHashTable._subarrays T = pre ++ sa :: post /\
     Forall (fun sa => SubArraySpec.rejects mp sa k) pre /\
     SubArraySpec.holds_value mp sa k v /\
     Forall (fun sa => SubArraySpec.free sa k) post /\
     last_free T k) \/
  (Forall (fun sa => SubArraySpec.rejects mp sa k) (OpenAddressHashTable._subarrays T) /\
   exists la, OpenAddressHashTable._last_array T = Some la /\
     LastSubArraySpec.holds_value la k v).

(** What holds of every table that the operations can reach. *)
Definition inv T : Prop :=
  wf T /\
  ((safe T /\ forall k, absent T k \/ exists v, stored T k v) \/
   (~ safe T /\ empty T)).

(** One insert of key [k] leads from [T] to [T']. *)
Definition step k T T' : Prop :=
  OpenAddressHashTable._size T' = OpenAddressHashTable._size T /\
  OpenAddressHashTable._max_probes T' = OpenAddressHashTable._max_probes T /\
  Forall2 (SubArraySpec.step k)
    (OpenAddressHashTable._subarrays T) (OpenAddressHashTable._subarrays T') /\
  option_Forall2 (LastSubArraySpec.step k)
    (OpenAddressHashTable._last_array T) (OpenAddressHashTable._last_array T').

(** The current load factor has reached the high-water mark 0.9. *)
Definition high_water T : Prop :=
  9 * OpenAddressHashTable._size T <= 10 * OpenAddressHashTable._count T.

(** No operation of the sequence is an insert of [k] that returns
    [True]; the operations are run from [T]. *)
Fixpoint quiet k T (ops : list (OpenAddressHashTable.op Key Val)) : Prop :=
  match ops with
  | [] => True
  | o :: rest =>
      match o with
      | OpenAddressHashTable.Insert k' v' =>
          k' = k -> (OpenAddressHashTable.insert T k' v').1 <> Ok true
      | _ => True
      end /\
      quiet k (OpenAddressHashTable.exec T o) rest
  end.

End defs.
End TableSpec.

(** ** A concrete key type *)

(** Integer keys: [hash(n)] is [n] for a small integer; [hash(str(n))]
    is fixed within a process, and taken to be [0] here. *)
#[global] Instance Z_hashable : Hashable Z :=
  {| key_eq_dec := Z.eq_dec; hash := fun n => n; hash_str := fun _ => 0 |}.

(** [OpenAddressHashTable(initial_size, delta)] for integer keys and
    values, read off the result of the constructor. *)
Definition table_of (r : result (OpenAddressHashTable.t Z Z)) : OpenAddressHashTable.t Z Z :=
  match r with
  | Ok T => T
  | Raise _ => OpenAddressHashTable.mk 0 0 0 0 [] None
  end.

(** [OpenAddressHashTable(64, 0.1)], the table of the test suite. *)
Definition table64 : OpenAddressHashTable.t Z Z :=
  table_of (OpenAddressHashTable.init 64 1 3).

(** [OpenAddressHashTable(5, 0.5)]. *)
Definition table5 : OpenAddressHashTable.t Z Z :=
  table_of (OpenAddressHashTable.init 5 0 1).

(** [LastSubArray(32)], the terminal tier of the test suite. *)
Definition last32 : LastSubArray.t Z Z :=
  match LastSubArray.init 32 with
  | Ok la => la
  | Raise _ => LastSubArray.mk 0 0 0 0 [] [] 0
  end.

(** The terminal tier after [insert(key, key)] for each key of a list. *)
Definition last_after (la : LastSubArray.t Z Z) (keys : list Z) : LastSubArray.t Z Z :=
  foldl (fun la key =>
           match LastSubArray.insert la key (Some key) with
           | Ok (_, la') => la'
           | Raise _ => la
           end) la keys.

(** [SubArray(16)], the uniform tier of the test suite. *)
Definition sub16 : SubArray.t Z Z := SubArray.init 16.

(** [OpenAddressHashTable(16, 0.1)], the constructor's defaults. *)
Definition table16 : OpenAddressHashTable.t Z Z :=
  table_of (OpenAddressHashTable.init 16 1 3).

(** Five distinct keys, enough to fill [table5]. *)
Definition five_inserts : list (OpenAddressHashTable.op Z Z) :=
  map (fun n => OpenAddressHashTable.Insert n (Some n)) [1; 2; 3; 4; 5].

(** Closes a goal that says a key is in no slot of a given array. *)
Ltac no_slot_holds :=
  repeat constructor; intros [? ?]; discriminate.

(** Closes the two halves of a statement on when the count grows. *)
Ltac count_settle :=
  split; [intros [? ?]; try done; try (simpl; lia)
         |intros Hd; try done; try (simpl; lia); try (by destruct Hd)].

(** ** Slots of a tier and of a table, and tiers used on their own *)

Section counting.
Context {Key Val : Type} `{Hashable Key}.

(** Number of occupied slots of a slot array. *)
Fixpoint count_occupied (tbl : list (slot Key Val)) : Z :=
  match tbl with
  | [] => 0
  | None :: rest => count_occupied rest
  | Some _ :: rest => 1 + count_occupied rest
  end.

(** Number of slots of a slot array that hold key [k]. *)
Fixpoint count_key (k : Key) (tbl : list (slot Key Val)) : Z :=
  match tbl with
  | [] => 0
  | None :: rest => count_key k rest
  | Some (k', _) :: rest => (if decide (k' = k) then 1 else 0) + count_key k rest
  end.

(** One write of the entry [(k, v)]: array [tbl'] is array [tbl] but for
    one slot, which was empty or held [k] and now holds [(k, v)];
    [grown] is 1 when the slot was empty and 0 when it held [k]. *)
Definition written (k : Key) (v : option Val) (tbl tbl' : list (slot Key Val))
    (grown : Z) : Prop :=
  exists (p : nat) (old : slot Key Val),
    tbl !! p = Some old /\ tbl' = <[p := Some (k, v)]> tbl /\
    ((old = None /\ grown = 1) \/ (holds k old /\ grown = 0)).

(** All slots of a terminal tier: part B, then the buckets of part C in
    order. *)
Definition la_slots (la : LastSubArray.t Key Val) : list (slot Key Val) :=
  LastSubArray._b la ++ concat (LastSubArray._c la).

(** All slots of a table: the uniform tiers in order, then the terminal
    tier. *)
Definition slots (T : OpenAddressHashTable.t Key Val) : list (slot Key Val) :=
  concat (map SubArray._table (OpenAddressHashTable._subarrays T)) ++
  match OpenAddressHashTable._last_array T with
  | Some la => la_slots la
  | None => []
  end.

(** The sum of the counts that the tiers keep. *)
Definition tiers_count (T : OpenAddressHashTable.t Key Val) : Z :=
  foldr (fun sa acc => SubArray._count sa + acc) 0 (OpenAddressHashTable._subarrays T) +
  match OpenAddressHashTable._last_array T with
  | Some la => LastSubArray._count la
  | None => 0
  end.

(** A call [insert(key, value, max_probes)] on a uniform tier, and the
    tier after a sequence of such calls; a call that raises leaves the
    tier as it was. *)
Definition sa_call (sa : SubArray.t Key Val) (c : Key * option Val * Z) : SubArray.t Key Val :=
  match SubArray.insert sa c.1.1 c.1.2 c.2 with
  | Ok (_, sa') => sa'
  | Raise _ => sa
  end.
Definition sub_after (sa : SubArray.t Key Val) (calls : list (Key * option Val * Z))
    : SubArray.t Key Val :=
  foldl sa_call sa calls.

(** The same for calls [insert(key, value)] on a terminal tier. *)
Definition la_call (la : LastSubArray.t Key Val) (c : Key * option Val)
    : LastSubArray.t Key Val :=
  match LastSubArray.insert la c.1 c.2 with
  | Ok (_, la') => la'
  | Raise _ => la
  end.
Definition la_after (la : LastSubArray.t Key Val) (calls : list (Key * option Val))
    : LastSubArray.t Key Val :=
  foldl la_call la calls.

(** Every key of a uniform tier is where a search finds it: at one of
    its probes, with other keys at all earlier probes. *)
Definition tidy (sa : SubArray.t Key Val) : Prop :=
  forall k, SubArraySpec.free sa k \/
    exists i v, at_probe (SubArray._size sa) (SubArray._table sa) k i v.

(** A terminal tier as the constructor and the calls of [insert] make
    it: every key is in no slot or where [search] finds it, and a tier
    with a zero modulus is empty. *)
Definition settled (la : LastSubArray.t Key Val) : Prop :=
  LastSubArraySpec.wf la /\
  ((LastSubArraySpec.safe la /\
    forall k, LastSubArraySpec.free la k \/ exists v, LastSubArraySpec.holds_value la k v) \/
   (~ LastSubArraySpec.safe la /\ LastSubArraySpec.empty la)).

(** What one call [insert(k, v)] does to a table, by its answer: a call
    that does not return [True] changes nothing; a call that returns
    [True] is one call on one tier that returns [True], and the table's
    own count may change besides. *)
Inductive touched (k : Key) (v : option Val) (T : OpenAddressHashTable.t Key Val)
    : result bool -> OpenAddressHashTable.t Key Val -> Prop :=
  | touched_none r : r <> Ok true -> touched k v T r T
  | touched_sub pre sa sa' post c :
      OpenAddressHashTable._subarrays T = pre ++ sa :: post ->
      SubArray.insert sa k v (OpenAddressHashTable._max_probes T) = Ok (true, sa') ->
      touched k v T (Ok true)
        (OpenAddressHashTable.mk (OpenAddressHashTable._size T)
           (OpenAddressHashTable._max_probes T) c (OpenAddressHashTable._alpha T)
           (pre ++ sa' :: post) (OpenAddressHashTable._last_array T))
  | touched_last la la' c :
      OpenAddressHashTable._last_array T = Some la ->
      LastSubArray.insert la k v = Ok (true, la') ->
      touched k v T (Ok true)
        (OpenAddressHashTable.mk (OpenAddressHashTable._size T)
           (OpenAddressHashTable._max_probes T) c (OpenAddressHashTable._alpha T)
           (OpenAddressHashTable._subarrays T) (Some la')).

(** Every tier of a table, taken on its own, is as its calls can make
    it, and holds no key twice. *)
Definition tiers_ok (T : OpenAddressHashTable.t Key Val) : Prop :=
  Forall (fun sa => tidy sa /\ forall k, count_key k (SubArray._table sa) <= 1)
         (OpenAddressHashTable._subarrays T) /\
  match OpenAddressHashTable._last_array T with
  | Some la => settled la /\ forall k, count_key k (la_slots la) <= 1
  | None => True
  end.

(** No operation of the sequence inserts the value [None]. *)
Definition no_none_value (ops : list (OpenAddressHashTable.op Key Val)) : Prop :=
  Forall (fun o => match o with
                   | OpenAddressHashTable.Insert _ None => False
                   | _ => True
                   end) ops.

End counting.

(** * Proofs *)

(** ** The runtime fragments and probing *)

Section runtime.
Context {A : Type}.
Implicit Types (l : list A).

Lemma py_mod_ok a b : b <> 0 -> py_mod a b = Ok (a `mod` b).
Proof. intros Hb. unfold py_mod. by destruct (decide (b = 0)). Qed.

Lemma norm_index_ok l p :
  0 <= p < Z.of_nat (length l) -> norm_index l p = Ok (Z.to_nat p).
Proof.
  intros Hp. unfold norm_index.
  destruct (decide (p < 0)) as [?|_]; [lia|].
  by destruct (decide (0 <= p < Z.of_nat (length l))).
Qed.

Lemma getitem_lookup l p x :
  0 <= p -> l !! Z.to_nat p = Some x -> getitem l p = Ok x.
Proof.
  intros Hp Hx. unfold getitem.
  rewrite norm_index_ok; [simpl; by rewrite Hx|].
  apply lookup_lt_Some in Hx. lia.
Qed.

Lemma setitem_ok l p x :
  0 <= p < Z.of_nat (length l) -> setitem l p x = Ok (<[Z.to_nat p := x]> l).
Proof. intros Hp. unfold setitem. by rewrite norm_index_ok. Qed.

Lemma range_cons n : 0 < n -> range n = 0 :: seqZ 1 (n - 1).
Proof. intros Hn. unfold range. by rewrite seqZ_cons. Qed.

Lemma range_split n i :
  0 <= i < n -> range n = seqZ 0 i ++ i :: seqZ (i + 1) (n - i - 1).
Proof.
  intros Hi. unfold range.
  replace n with (i + (n - i)) at 1 by lia.
  rewrite seqZ_app by lia. f_equal.
  rewrite seqZ_cons by lia. simpl. do 2 f_equal; lia.
Qed.

Lemma range_inv n pre i post :
  range n = pre ++ i :: post -> 0 <= i < n /\ pre = seqZ 0 i.
Proof.
  intros Heq.
  assert (Hi : range n !! length pre = Some i).
  { rewrite Heq. by rewrite list_lookup_middle. }
  apply lookup_seqZ in Hi as [Hi Hlt]. simpl in Hi.
  split; [lia|].
  rewrite (range_split n i) in Heq by lia.
  apply app_inj_1 in Heq as [? _]; [done|].
  rewrite length_seqZ. lia.
Qed.

End runtime.

Section probing.
Context {Key Val : Type} `{Hashable Key}.
Implicit Types (tbl : list (slot Key Val)) (k : Key) (s : slot Key Val).

Lemma probe_range c k i : 1 <= c -> 0 <= probe c k i < c.
Proof. intros Hc. unfold probe. apply Z.mod_pos_bound. lia. Qed.

Lemma probe_period c k i : 1 <= c -> probe c k (i - c) = probe c k i.
Proof.
  intros Hc. unfold probe.
  set (h1 := hash k `mod` c). set (h2 := 1 + hash_str k `mod` (c - 1)).
  replace (h1 + (i - c) * h2) with (h1 + i * h2 + (- h2) * c) by lia.
  apply Z_mod_plus_full.
Qed.

(** The three moduli of the source computation. *)
Lemma double_hash_ok c k i :
  2 <= c ->
  (h1 ← py_mod (hash k) c;
   r ← py_mod (hash_str k) (c - 1);
   py_mod (h1 + i * (1 + r)) c) = Ok (probe c k i).
Proof.
  intros Hc. rewrite (py_mod_ok _ c) by lia. simpl.
  rewrite (py_mod_ok _ (c - 1)) by lia. simpl.
  by rewrite py_mod_ok by lia.
Qed.

Lemma getitem_nth_slot tbl p :
  0 <= p < Z.of_nat (length tbl) -> getitem tbl p = Ok (nth_slot tbl p).
Proof.
  intros Hp. unfold nth_slot.
  destruct (lookup_lt_is_Some_2 tbl (Z.to_nat p)) as [x Hx]; [lia|].
  rewrite Hx. simpl. apply getitem_lookup; [lia|done].
Qed.

Lemma nth_slot_insert tbl p q s :
  0 <= p < Z.of_nat (length tbl) -> 0 <= q ->
  nth_slot (<[Z.to_nat p := s]> tbl) q = if decide (p = q) then s else nth_slot tbl q.
Proof.
  intros Hp Hq. unfold nth_slot. destruct (decide (p = q)) as [->|Hne].
  - rewrite list_lookup_insert_eq by lia. done.
  - rewrite list_lookup_insert_ne by lia. done.
Qed.

Lemma nth_slot_elem tbl p :
  0 <= p < Z.of_nat (length tbl) -> nth_slot tbl p ∈ tbl.
Proof.
  intros Hp. unfold nth_slot.
  destruct (lookup_lt_is_Some_2 tbl (Z.to_nat p)) as [x Hx]; [lia|].
  rewrite Hx. simpl. by eapply list_elem_of_lookup_2.
Qed.

Lemma holds_not_other k s : holds k s -> ~ other k s.
Proof. intros [v ->] (k' & v' & [= <- <-] & Hne). done. Qed.

Lemma other_not_None k s : other k s -> s <> None.
Proof. by intros (k' & v' & -> & _). Qed.

Lemma slot_cases k s : s = None \/ holds k s \/ other k s.
Proof.
  destruct s as [[k' v]|]; [|by left]. right.
  destruct (decide (k' = k)) as [->|Hne]; [left; by exists v|right; by exists k', v].
Qed.

Lemma free_in_nth tbl k p :
  free_in tbl k -> 0 <= p < Z.of_nat (length tbl) -> ~ holds k (nth_slot tbl p).
Proof.
  intros Hfree Hp. unfold free_in in Hfree. rewrite Forall_forall in Hfree.
  apply Hfree. by apply nth_slot_elem.
Qed.

Lemma slot_step_refl k s : slot_step k s s.
Proof. by left. Qed.

Lemma table_step_refl k tbl : Forall2 (slot_step k) tbl tbl.
Proof. apply Forall_Forall2_diag, Forall_forall. intros. apply slot_step_refl. Qed.

Lemma table_step_insert k v tbl p :
  0 <= p < Z.of_nat (length tbl) ->
  nth_slot tbl p = None \/ holds k (nth_slot tbl p) ->
  Forall2 (slot_step k) tbl (<[Z.to_nat p := Some (k, v)]> tbl).
Proof.
  intros Hp Hold. unfold nth_slot in Hold.
  destruct (lookup_lt_is_Some_2 tbl (Z.to_nat p)) as [x Hx]; [lia|].
  rewrite Hx in Hold. simpl in Hold.
  rewrite <- (list_insert_id tbl (Z.to_nat p) x) at 1 by done.
  apply Forall2_insert; [apply table_step_refl|].
  right. split; [by exists v|done].
Qed.

Lemma table_step_nth k tbl tbl' p :
  Forall2 (slot_step k) tbl tbl' -> slot_step k (nth_slot tbl p) (nth_slot tbl' p).
Proof.
  intros HF. unfold nth_slot.
  destruct (tbl !! Z.to_nat p) as [x|] eqn:Hx.
  - destruct (Forall2_lookup_l _ _ _ _ _ HF Hx) as (y & -> & Hxy). done.
  - apply lookup_ge_None in Hx. rewrite (Forall2_length _ _ _ HF) in Hx.
    apply lookup_ge_None in Hx. rewrite Hx. by left.
Qed.

Lemma step_other k k0 s s' : k0 <> k -> slot_step k s s' -> other k0 s -> other k0 s'.
Proof.
  intros Hne [->|[[v ->] Hold]] Hother; [done|].
  by exists k, v.
Qed.

Lemma step_holds k k0 s s' v :
  k0 <> k -> slot_step k s s' -> s = Some (k0, v) -> s' = Some (k0, v).
Proof.
  intros Hne [->|[_ [->|[v' ->]]]] Heq; [done|done|].
  by injection Heq as <- _.
Qed.

Lemma step_not_holds k k0 s s' : k0 <> k -> slot_step k s s' -> ~ holds k0 s -> ~ holds k0 s'.
Proof.
  intros Hne [->|[[v ->] _]] Hnot; [done|].
  intros [v' [= ? _]]. by subst.
Qed.

Lemma step_occupied k s s' : slot_step k s s' -> s <> None -> s' <> None.
Proof. intros [->|[[v ->] _]] ?; done. Qed.

Lemma free_in_step k k0 tbl tbl' :
  k0 <> k -> Forall2 (slot_step k) tbl tbl' -> free_in tbl k0 -> free_in tbl' k0.
Proof.
  intros Hne HF. unfold free_in. induction HF as [|s s' tbl tbl' Hs _ IH]; [done|].
  intros [Hnot Hrest]%Forall_cons. constructor; [by eapply step_not_holds|by apply IH].
Qed.

Lemma at_probe_step c k k0 tbl tbl' i v :
  k0 <> k -> Forall2 (slot_step k) tbl tbl' ->
  at_probe c tbl k0 i v -> at_probe c tbl' k0 i v.
Proof.
  intros Hne HF (Hi & Hat & Hbefore). split; [done|]. split.
  - eapply step_holds; [done|by apply table_step_nth|done].
  - intros j Hj. eapply step_other; [done|by apply table_step_nth|by apply Hbefore].
Qed.

Lemma blocked_step c k k0 tbl tbl' n :
  Forall2 (slot_step k) tbl tbl' -> blocked c tbl k0 n -> blocked c tbl' k0 n.
Proof.
  intros HF Hb j Hj. eapply step_occupied; [by apply table_step_nth|by apply Hb].
Qed.

(** The array after an overwrite or a placement at probe [i]. *)
Lemma at_probe_written c tbl k v i :
  1 <= c -> length tbl = Z.to_nat c -> 0 <= i ->
  nth_slot tbl (probe c k i) = None \/ holds k (nth_slot tbl (probe c k i)) ->
  (forall j, 0 <= j < i -> other k (nth_slot tbl (probe c k j))) ->
  at_probe c (<[Z.to_nat (probe c k i) := Some (k, v)]> tbl) k i v.
Proof.
  intros Hc Hlen Hi Hold Hbefore.
  assert (Hr : forall j, 0 <= probe c k j < Z.of_nat (length tbl)).
  { intros j. rewrite Hlen, Z2Nat.id by lia. by apply probe_range. }
  split; [done|]. split.
  - rewrite nth_slot_insert by (apply Hr || apply Hr).
    by destruct (decide (probe c k i = probe c k i)).
  - intros j Hj. rewrite nth_slot_insert by (apply Hr || apply Hr).
    destruct (decide (probe c k i = probe c k j)) as [Heq|]; [|by apply Hbefore].
    specialize (Hbefore j Hj). rewrite <- Heq in Hbefore.
    destruct Hold as [Hold|Hold].
    + rewrite Hold in Hbefore. by apply other_not_None in Hbefore.
    + by apply holds_not_other in Hold.
Qed.

(** Occupied probes of a key that is not in the array hold other keys. *)
Lemma occupied_free_other tbl k p :
  free_in tbl k -> 0 <= p < Z.of_nat (length tbl) ->
  nth_slot tbl p <> None -> other k (nth_slot tbl p).
Proof.
  intros Hfree Hp Hocc.
  destruct (slot_cases k (nth_slot tbl p)) as [Hn|[Hh|Ho]]; [done| |done].
  by apply (free_in_nth _ _ _ Hfree Hp) in Hh.
Qed.

Lemma bucket_step_insert k v tbl (i : nat) s :
  tbl !! i = Some s -> s = None \/ holds k s ->
  Forall2 (slot_step k) tbl (<[i := Some (k, v)]> tbl).
Proof.
  intros Hs Hold.
  rewrite <- (list_insert_id tbl i s) at 1 by done.
  apply Forall2_insert; [apply table_step_refl|].
  right. split; [by exists v|done].
Qed.

(** A key found at probe [i] is found before the probes wrap around. *)
Lemma at_probe_lt c tbl k i v : 1 <= c -> at_probe c tbl k i v -> i < c.
Proof.
  intros Hc (Hi & Hat & Hbefore).
  destruct (decide (i < c)) as [|Hge]; [done|exfalso].
  assert (Hj : 0 <= i - c < i) by lia.
  specialize (Hbefore _ Hj). rewrite probe_period in Hbefore by done.
  eapply holds_not_other; [|done]. by exists v.
Qed.

Lemma all_empty_free tbl k : all_empty tbl -> free_in tbl k.
Proof.
  unfold all_empty, free_in. intros He. eapply Forall_impl; [exact He|].
  intros s -> [v ?]. done.
Qed.

Lemma all_empty_nth tbl p : all_empty tbl -> nth_slot tbl p = None.
Proof.
  intros He. unfold nth_slot. destruct (tbl !! Z.to_nat p) as [x|] eqn:Hx; [|done].
  simpl. unfold all_empty in He. rewrite Forall_forall in He.
  apply He. by eapply list_elem_of_lookup_2.
Qed.

Lemma all_empty_replicate n : all_empty (replicate n (None : slot Key Val)).
Proof. unfold all_empty. apply Forall_replicate. done. Qed.

End probing.

(** ** Uniform tiers *)

Module SubArrayFacts.
Import SubArraySpec.
Section facts.
Context {Key Val : Type} `{Hashable Key}.
Implicit Types (sa : SubArray.t Key Val) (k : Key) (v : option Val).

#[local] Abbreviation pos sa k i := (probe (SubArray._size sa) k i).
#[local] Abbreviation slot_of sa k i := (nth_slot (SubArray._table sa) (pos sa k i)).

Lemma pos_range sa k i :
  wf sa -> 0 <= pos sa k i < Z.of_nat (length (SubArray._table sa)).
Proof.
  intros [Hsz Hlen]. rewrite Hlen, Z2Nat.id by lia. by apply probe_range.
Qed.

Lemma hash_ok sa k i : safe sa -> SubArray._hash sa k i = Ok (pos sa k i).
Proof. intros Hs. unfold SubArray._hash. by apply double_hash_ok. Qed.

Lemma hash_unsafe sa k i :
  SubArray._size sa = 1 -> SubArray._hash sa k i = Raise ZeroDivisionError.
Proof. intros Hs. unfold SubArray._hash. rewrite Hs. reflexivity. Qed.

Lemma search_loop_cons sa k i rest :
  wf sa -> safe sa ->
  SubArray.search_loop sa k (i :: rest) =
  match slot_of sa k i with
  | None => Ok None
  | Some (k', v) => if decide (k' = k) then Ok v else SubArray.search_loop sa k rest
  end.
Proof.
  intros Hwf Hs. simpl. rewrite hash_ok by done. simpl.
  rewrite getitem_nth_slot by by apply pos_range. done.
Qed.

Lemma insert_update_cons sa k v i rest :
  wf sa -> safe sa ->
  SubArray.insert_update sa k v (i :: rest) =
  match slot_of sa k i with
  | None => Ok None
  | Some (k', _) =>
      if decide (k' = k)
      then Ok (Some (<[Z.to_nat (pos sa k i) := Some (k, v)]> (SubArray._table sa)))
      else SubArray.insert_update sa k v rest
  end.
Proof.
  intros Hwf Hs. simpl. rewrite hash_ok by done. simpl.
  rewrite getitem_nth_slot by by apply pos_range. simpl.
  destruct (slot_of sa k i) as [[k' v']|]; [|done].
  destruct (decide (k' = k)); [|done].
  rewrite setitem_ok by by apply pos_range. done.
Qed.

Lemma insert_place_cons sa k v i rest :
  wf sa -> safe sa ->
  SubArray.insert_place sa k v (i :: rest) =
  match slot_of sa k i with
  | None => Ok (Some (<[Z.to_nat (pos sa k i) := Some (k, v)]> (SubArray._table sa)))
  | Some _ => SubArray.insert_place sa k v rest
  end.
Proof.
  intros Hwf Hs. simpl. rewrite hash_ok by done. simpl.
  rewrite getitem_nth_slot by by apply pos_range. simpl.
  destruct (slot_of sa k i) as [[k' v']|]; [done|].
  rewrite setitem_ok by by apply pos_range. done.
Qed.

(** *** search *)

Lemma search_loop_skip sa k pre rest :
  wf sa -> safe sa ->
  Forall (fun j => other k (slot_of sa k j)) pre ->
  SubArray.search_loop sa k (pre ++ rest) = SubArray.search_loop sa k rest.
Proof.
  intros Hwf Hs. induction 1 as [|j pre (k' & v' & Hj & Hne) _ IH]; [done|].
  rewrite <- app_comm_cons, search_loop_cons, Hj by done.
  by destruct (decide (k' = k)).
Qed.

Lemma search_loop_free sa k l :
  wf sa -> safe sa -> free sa k -> SubArray.search_loop sa k l = Ok None.
Proof.
  intros Hwf Hs Hfree. induction l as [|j l IH]; [done|].
  rewrite search_loop_cons by done.
  pose proof (free_in_nth _ _ _ Hfree (pos_range sa k j Hwf)) as Hnot.
  destruct (slot_of sa k j) as [[k' v']|]; [|done].
  destruct (decide (k' = k)) as [->|]; [|done].
  destruct Hnot. by exists v'.
Qed.

Lemma seqZ_other_prefix sa k i v :
  at_probe (SubArray._size sa) (SubArray._table sa) k i v ->
  Forall (fun j => other k (slot_of sa k j)) (seqZ 0 i).
Proof.
  intros (_ & _ & Hbefore). apply Forall_seqZ. intros j Hj. apply Hbefore. lia.
Qed.

Lemma sa_search_free sa k : wf sa -> safe sa -> free sa k -> SubArray.search sa k = Ok None.
Proof. intros. by apply search_loop_free. Qed.

Lemma search_at sa k i v :
  wf sa -> safe sa ->
  at_probe (SubArray._size sa) (SubArray._table sa) k i v ->
  SubArray.search sa k = Ok v.
Proof.
  intros Hwf Hs Hat.
  pose proof (at_probe_lt _ _ _ _ _ (proj1 Hwf) Hat) as Hlt.
  pose proof Hat as (Hi & Hslot & _).
  unfold SubArray.search. rewrite (range_split _ i) by lia.
  rewrite search_loop_skip by eauto using seqZ_other_prefix.
  rewrite search_loop_cons, Hslot by done.
  by destruct (decide (k = k)).
Qed.

Lemma sa_search_unsafe sa k :
  wf sa -> ~ safe sa -> SubArray.search sa k = Raise ZeroDivisionError.
Proof.
  intros [Hsz _] Hs. unfold safe in Hs.
  assert (Hone : SubArray._size sa = 1) by lia.
  unfold SubArray.search. rewrite Hone. simpl.
  by rewrite hash_unsafe.
Qed.

(** *** insert *)

Lemma insert_update_skip sa k v pre rest :
  wf sa -> safe sa ->
  Forall (fun j => other k (slot_of sa k j)) pre ->
  SubArray.insert_update sa k v (pre ++ rest) = SubArray.insert_update sa k v rest.
Proof.
  intros Hwf Hs. induction 1 as [|j pre (k' & v' & Hj & Hne) _ IH]; [done|].
  rewrite <- app_comm_cons, insert_update_cons, Hj by done.
  by destruct (decide (k' = k)).
Qed.

Lemma insert_update_free sa k v l :
  wf sa -> safe sa -> free sa k -> SubArray.insert_update sa k v l = Ok None.
Proof.
  intros Hwf Hs Hfree. induction l as [|j l IH]; [done|].
  rewrite insert_update_cons by done.
  pose proof (free_in_nth _ _ _ Hfree (pos_range sa k j Hwf)) as Hnot.
  destruct (slot_of sa k j) as [[k' v']|]; [|done].
  destruct (decide (k' = k)) as [->|]; [|done].
  destruct Hnot. by exists v'.
Qed.

Lemma insert_update_at sa k v i v0 mp :
  wf sa -> safe sa -> i < mp ->
  at_probe (SubArray._size sa) (SubArray._table sa) k i v0 ->
  SubArray.insert_update sa k v (range mp) =
  Ok (Some (<[Z.to_nat (pos sa k i) := Some (k, v)]> (SubArray._table sa))).
Proof.
  intros Hwf Hs Hlt Hat. pose proof Hat as (Hi & Hslot & _).
  rewrite (range_split _ i) by lia.
  rewrite insert_update_skip by eauto using seqZ_other_prefix.
  rewrite insert_update_cons, Hslot by done.
  by destruct (decide (k = k)).
Qed.

Lemma insert_place_spec sa k v l :
  wf sa -> safe sa ->
  (SubArray.insert_place sa k v l = Ok None /\
   Forall (fun j => slot_of sa k j <> None) l) \/
  (exists pre i post, l = pre ++ i :: post /\
     Forall (fun j => slot_of sa k j <> None) pre /\
     slot_of sa k i = None /\
     SubArray.insert_place sa k v l =
     Ok (Some (<[Z.to_nat (pos sa k i) := Some (k, v)]> (SubArray._table sa)))).
Proof.
  intros Hwf Hs. induction l as [|j l IH]; [by left|].
  rewrite insert_place_cons by done.
  destruct (slot_of sa k j) as [s|] eqn:Hj.
  - destruct IH as [[Hnone Hall]|(pre & i & post & -> & Hpre & Hi & Hres)].
    + left. split; [done|]. constructor; [by rewrite Hj|done].
    + right. exists (j :: pre), i, post. split; [done|]. split; [|done].
      constructor; [by rewrite Hj|done].
  - right. by exists [], j, l.
Qed.

Lemma sa_written sa k v i :
  wf sa -> 0 <= i ->
  slot_of sa k i = None \/ holds k (slot_of sa k i) ->
  (forall j, 0 <= j < i -> other k (slot_of sa k j)) ->
  at_probe (SubArray._size sa)
    (<[Z.to_nat (pos sa k i) := Some (k, v)]> (SubArray._table sa)) k i v.
Proof. intros [Hc Hlen]. by apply at_probe_written. Qed.

Lemma written_step sa k v i :
  wf sa ->
  slot_of sa k i = None \/ holds k (slot_of sa k i) ->
  Forall2 (slot_step k) (SubArray._table sa)
    (<[Z.to_nat (pos sa k i) := Some (k, v)]> (SubArray._table sa)).
Proof. intros Hwf Hold. apply table_step_insert; [by apply pos_range|done]. Qed.

Lemma written_wf sa p s n :
  wf sa -> wf (SubArray.mk (SubArray._size sa) (<[p := s]> (SubArray._table sa)) n).
Proof. intros [Hsz Hlen]. split; [done|]. simpl. by rewrite length_insert. Qed.

(** [insert] on a tier that holds the key: the value is overwritten in
    place and the count stays. *)
Lemma sa_insert_holds sa k v v0 mp :
  wf sa -> safe sa -> holds_value mp sa k v0 ->
  exists sa', SubArray.insert sa k v mp = Ok (true, sa') /\
    wf sa' /\ step k sa sa' /\ holds_value mp sa' k v /\
    SubArray._count sa' = SubArray._count sa.
Proof.
  intros Hwf Hs (i & Hlt & Hat). pose proof Hat as (Hi & Hslot & Hbefore).
  eexists. unfold SubArray.insert.
  rewrite (insert_update_at sa k v i v0) by done. simpl.
  split; [done|].
  assert (Hold : slot_of sa k i = None \/ holds k (slot_of sa k i)).
  { right. by exists v0. }
  split; [by apply written_wf|]. split; [|split; [|done]].
  - split; [done|]. simpl. by apply written_step.
  - exists i. split; [done|]. simpl. by apply sa_written.
Qed.

(** [insert] on a tier that does not hold the key: the first empty slot
    among the first [mp] probes takes the entry, and the tier is left
    untouched when there is none. *)
Lemma sa_insert_free sa k v mp :
  wf sa -> safe sa -> free sa k ->
  (SubArray.insert sa k v mp = Ok (false, sa) /\ rejects mp sa k) \/
  (exists sa', SubArray.insert sa k v mp = Ok (true, sa') /\
     wf sa' /\ step k sa sa' /\ holds_value mp sa' k v /\
     SubArray._count sa' = SubArray._count sa + 1).
Proof.
  intros Hwf Hs Hfree. unfold SubArray.insert.
  rewrite insert_update_free by done. simpl.
  destruct (insert_place_spec sa k v (range mp) Hwf Hs)
    as [[-> Hall]|(pre & i & post & Hsplit & Hpre & Hi & ->)]; simpl.
  - left. split; [done|]. split; [done|].
    intros j Hj. unfold range in Hall. rewrite Forall_seqZ in Hall. apply Hall. lia.
  - right. eexists. split; [done|].
    apply range_inv in Hsplit as [Hrange ->].
    assert (Hbefore : forall j, 0 <= j < i -> other k (slot_of sa k j)).
    { intros j Hj. rewrite Forall_seqZ in Hpre.
      apply occupied_free_other; [done|by apply pos_range|]. apply Hpre. lia. }
    split; [by apply written_wf|]. split; [|split; [|done]].
    + split; [done|]. simpl. apply written_step; [done|by left].
    + exists i. split; [lia|]. simpl. apply sa_written; [done|lia|by left|done].
Qed.

(** A tier that rejects a key is not changed by the attempt. *)
Lemma insert_rejects sa k v mp :
  wf sa -> safe sa -> rejects mp sa k -> SubArray.insert sa k v mp = Ok (false, sa).
Proof.
  intros Hwf Hs [Hfree Hblocked]. unfold SubArray.insert.
  rewrite insert_update_free by done. simpl.
  destruct (insert_place_spec sa k v (range mp) Hwf Hs)
    as [[-> Hall]|(pre & i & post & Hsplit & Hpre & Hi & ->)]; simpl; [done|].
  apply range_inv in Hsplit as [Hrange _].
  destruct (Hblocked i); [lia|done].
Qed.

(** *** Invariance under inserts of other keys *)

Lemma sa_free_step k k0 sa sa' : k0 <> k -> step k sa sa' -> free sa k0 -> free sa' k0.
Proof. intros Hne [_ HF]. by apply (free_in_step k). Qed.

Lemma sa_holds_value_step k k0 sa sa' mp v :
  k0 <> k -> step k sa sa' -> holds_value mp sa k0 v -> holds_value mp sa' k0 v.
Proof.
  intros Hne [Hsz HF] (i & Hlt & Hat). exists i. split; [done|].
  rewrite Hsz. by eapply at_probe_step.
Qed.

Lemma rejects_step k k0 sa sa' mp :
  k0 <> k -> step k sa sa' -> rejects mp sa k0 -> rejects mp sa' k0.
Proof.
  intros Hne Hstep [Hfree Hb]. split; [by eapply sa_free_step|].
  destruct Hstep as [Hsz HF]. rewrite Hsz. by eapply blocked_step.
Qed.

Lemma sa_step_refl k sa : step k sa sa.
Proof. split; [done|apply table_step_refl]. Qed.

Lemma sa_step_wf k sa sa' : step k sa sa' -> wf sa -> wf sa'.
Proof.
  intros [Hsz HF] [H1 Hlen]. split; rewrite Hsz; [done|].
  by rewrite <- (Forall2_length _ _ _ HF).
Qed.

Lemma sa_step_safe k sa sa' : step k sa sa' -> safe sa -> safe sa'.
Proof. intros [Hsz _]. unfold safe. by rewrite Hsz. Qed.

Lemma sa_empty_free sa k : empty sa -> free sa k.
Proof. intros [He _]. by apply all_empty_free. Qed.

Lemma init_wf size : 1 <= size -> wf (SubArray.init (Key:=Key) (Val:=Val) size).
Proof. intros Hs. split; [done|]. simpl. by rewrite length_replicate. Qed.

Lemma init_empty size : empty (SubArray.init (Key:=Key) (Val:=Val) size).
Proof. split; [apply all_empty_replicate|done]. Qed.

End facts.
End SubArrayFacts.

(** ** Buckets *)

Section buckets.
Context {Key Val : Type} `{Hashable Key}.
Implicit Types (bucket : list (slot Key Val)) (k : Key) (v : option Val).

Lemma count_empty_nonneg bucket : 0 <= count_empty bucket.
Proof. induction bucket as [|[s|] bucket IH]; simpl; lia. Qed.

Lemma count_empty_zero bucket :
  count_empty bucket = 0 <-> Forall (fun s => s <> None) bucket.
Proof.
  induction bucket as [|[s|] bucket IH]; simpl.
  - split; [constructor|done].
  - rewrite IH. split; [by constructor|by intros [_ ?]%Forall_cons].
  - pose proof (count_empty_nonneg bucket). split; [lia|].
    by intros [? _]%Forall_cons.
Qed.

Lemma bucket_search_free k bucket :
  free_in bucket k -> LastSubArray.bucket_search k bucket = None.
Proof.
  unfold free_in. induction 1 as [|[[k' v']|] bucket Hs _ IH]; simpl; [done| |done].
  destruct (decide (k' = k)) as [->|]; [|done]. destruct Hs. by exists v'.
Qed.

Lemma bucket_index_free k bucket i :
  free_in bucket k -> LastSubArray.bucket_index k bucket i = None.
Proof.
  unfold free_in. intros HF. revert i.
  induction HF as [|[[k' v']|] bucket Hs _ IH]; intros i; simpl; [done| |done].
  destruct (decide (k' = k)) as [->|]; [|done]. destruct Hs. by exists v'.
Qed.

(** The overwrite loop and the search loop stop at the same item. *)
Lemma bucket_index_search k bucket v0 v n :
  LastSubArray.bucket_search k bucket = Some v0 ->
  exists i, LastSubArray.bucket_index k bucket n = Some (n + i)%nat /\
    holds k (default None (bucket !! i)) /\
    LastSubArray.bucket_search k (<[i := Some (k, v)]> bucket) = Some v.
Proof.
  revert n. induction bucket as [|[[k' v']|] bucket IH]; intros n; simpl; [done| |].
  - destruct (decide (k' = k)) as [->|Hne].
    + intros _. exists 0%nat. rewrite Nat.add_0_r. simpl.
      split; [done|]. split; [by exists v'|]. by destruct (decide (k = k)).
    + intros Hs. destruct (IH (S n) Hs) as (i & Hi & Hh & Hw).
      exists (S i). simpl. rewrite Nat.add_succ_r. split; [done|]. split; [done|].
      by destruct (decide (k' = k)).
  - intros Hs. destruct (IH (S n) Hs) as (i & Hi & Hh & Hw).
    exists (S i). simpl. rewrite Nat.add_succ_r. done.
Qed.

Lemma bucket_index_None k bucket n :
  LastSubArray.bucket_search k bucket = None ->
  LastSubArray.bucket_index k bucket n = None.
Proof.
  revert n. induction bucket as [|[[k' v']|] bucket IH]; intros n; simpl; [done| |by auto].
  destruct (decide (k' = k)); [done|by auto].
Qed.

Lemma bucket_search_None_free k bucket :
  LastSubArray.bucket_search k bucket = None -> free_in bucket k.
Proof.
  unfold free_in. induction bucket as [|[[k' v']|] bucket IH]; simpl; [done| |].
  - destruct (decide (k' = k)) as [->|Hne]; [done|]. intros Hs.
    constructor; [|by apply IH]. intros [v [= ? _]]. done.
  - intros Hs. constructor; [|by apply IH]. by intros [v ?].
Qed.

(** Writing a key into an empty slot of a bucket that does not have it. *)
Lemma bucket_search_placed k v bucket i :
  free_in bucket k -> bucket !! i = Some None ->
  LastSubArray.bucket_search k (<[i := Some (k, v)]> bucket) = Some v.
Proof.
  unfold free_in. intros HF. revert i.
  induction HF as [|[[k' v']|] bucket Hs _ IH]; intros [|i] Hi; simpl in *; try done.
  - destruct (decide (k' = k)) as [->|]; [|by apply IH]. destruct Hs. by exists v'.
  - by destruct (decide (k = k)).
  - by apply IH.
Qed.

Lemma bucket_search_step k k0 bucket bucket' :
  k0 <> k -> Forall2 (slot_step k) bucket bucket' ->
  LastSubArray.bucket_search k0 bucket' = LastSubArray.bucket_search k0 bucket.
Proof.
  intros Hne. induction 1 as [|s s' bucket bucket' Hs _ IH]; [done|].
  destruct Hs as [->|[[v ->] [->|[v' ->]]]]; simpl.
  - by rewrite IH.
  - destruct (decide (k = k0)); [by subst|done].
  - destruct (decide (k = k0)); [by subst|done].
Qed.

End buckets.

(** ** The terminal tier *)

Module LastSubArrayFacts.
Import LastSubArraySpec.
Section facts.
Context {Key Val : Type} `{Hashable Key}.
Implicit Types (la : LastSubArray.t Key Val) (k : Key) (v : option Val).

#[local] Abbreviation posb la k i := (probe (LastSubArray._b_size la) k i).
#[local] Abbreviation slotb la k i := (nth_slot (LastSubArray._b la) (posb la k i)).
#[local] Abbreviation bucket1 la k := (nth_bucket (LastSubArray._c la) (cand1 la k)).
#[local] Abbreviation bucket2 la k := (nth_bucket (LastSubArray._c la) (cand2 la k)).

Lemma loglog_pos size : 1 <= size -> 1 <= Z.log2 (Z.log2 (size + 1) + 1).
Proof.
  intros Hs. apply Z.log2_le_pow2; [|simpl].
  - pose proof (Z.log2_nonneg (size + 1)). lia.
  - assert (1 <= Z.log2 (size + 1)); [|lia].
    apply Z.log2_le_pow2; simpl; lia.
Qed.

Lemma loglog_ok la : wf la -> loglog (LastSubArray._size la) = Ok (attempts la).
Proof.
  intros [Hs _]. unfold loglog.
  by destruct (decide (LastSubArray._size la + 1 <= 0)); [lia|].
Qed.

Lemma attempts_pos la : wf la -> 1 <= attempts la.
Proof. intros [Hs _]. by apply loglog_pos. Qed.

Lemma posb_range la k i :
  wf la -> 2 <= LastSubArray._b_size la -> 0 <= posb la k i < Z.of_nat (length (LastSubArray._b la)).
Proof.
  intros (_ & _ & Hlen & _) Hb. rewrite Hlen, Z2Nat.id by lia.
  apply probe_range. lia.
Qed.

Lemma hash_b_ok la k i : 2 <= LastSubArray._b_size la -> LastSubArray._hash_b la k i = Ok (posb la k i).
Proof. intros Hb. unfold LastSubArray._hash_b. by apply double_hash_ok. Qed.

Lemma hash_c_ok la k :
  2 <= Z.of_nat (length (LastSubArray._c la)) ->
  LastSubArray._hash_c la k = Ok (cand1 la k, cand2 la k).
Proof.
  intros Hc. unfold LastSubArray._hash_c.
  rewrite (py_mod_ok (hash k)) by lia. simpl.
  rewrite (py_mod_ok (hash_str k)) by lia. simpl.
  rewrite py_mod_ok by lia. done.
Qed.

Lemma cand_range la k :
  2 <= Z.of_nat (length (LastSubArray._c la)) ->
  0 <= cand1 la k < Z.of_nat (length (LastSubArray._c la)) /\
  0 <= cand2 la k < Z.of_nat (length (LastSubArray._c la)).
Proof. intros Hc. unfold cand2, cand1. split; apply Z.mod_pos_bound; lia. Qed.

Lemma cand_distinct la k :
  2 <= Z.of_nat (length (LastSubArray._c la)) -> cand1 la k <> cand2 la k.
Proof.
  intros Hc. pose proof (cand_range la k Hc) as [H1 _]. unfold cand2.
  set (n := Z.of_nat (length (LastSubArray._c la))) in *.
  set (c1 := cand1 la k) in *.
  pose proof (Z.mod_pos_bound (hash_str k) (n - 1)) as Hd.
  set (d := hash_str k `mod` (n - 1)) in *.
  destruct (decide (c1 + 1 + d < n)) as [Hlt|Hge].
  - rewrite Z.mod_small by lia. lia.
  - replace (c1 + 1 + d) with ((c1 + 1 + d - n) + 1 * n) by lia.
    rewrite Z_mod_plus_full, Z.mod_small by lia. lia.
Qed.

Lemma getitem_bucket (c : list (list (slot Key Val))) j :
  0 <= j < Z.of_nat (length c) -> getitem c j = Ok (nth_bucket c j).
Proof.
  intros Hj. unfold nth_bucket.
  destruct (lookup_lt_is_Some_2 c (Z.to_nat j)) as [x Hx]; [lia|].
  rewrite Hx. simpl. apply getitem_lookup; [lia|done].
Qed.

Lemma nth_bucket_lookup (c : list (list (slot Key Val))) j :
  0 <= j < Z.of_nat (length c) -> c !! Z.to_nat j = Some (nth_bucket c j).
Proof.
  intros Hj. unfold nth_bucket.
  destruct (lookup_lt_is_Some_2 c (Z.to_nat j)) as [x Hx]; [lia|]. by rewrite Hx.
Qed.

Lemma nth_bucket_insert (c : list (list (slot Key Val))) p q bucket :
  0 <= p < Z.of_nat (length c) -> 0 <= q ->
  nth_bucket (<[Z.to_nat p := bucket]> c) q = if decide (p = q) then bucket else nth_bucket c q.
Proof.
  intros Hp Hq. unfold nth_bucket. destruct (decide (p = q)) as [->|Hne].
  - rewrite list_lookup_insert_eq by lia. done.
  - rewrite list_lookup_insert_ne by lia. done.
Qed.

Lemma nth_bucket_length la j :
  wf la -> 0 <= j < Z.of_nat (length (LastSubArray._c la)) ->
  length (nth_bucket (LastSubArray._c la) j) = Z.to_nat (LastSubArray._bucket_size la).
Proof.
  intros (_ & _ & _ & HF) Hj. rewrite Forall_forall in HF. apply HF.
  eapply list_elem_of_lookup_2. by apply nth_bucket_lookup.
Qed.

Lemma nth_bucket_free la k j :
  free la k -> free_in (nth_bucket (LastSubArray._c la) j) k.
Proof.
  intros [_ HF]. unfold nth_bucket.
  destruct (LastSubArray._c la !! Z.to_nat j) as [x|] eqn:Hx; simpl; [|constructor].
  rewrite Forall_forall in HF. apply HF. by eapply list_elem_of_lookup_2.
Qed.

(** *** The loops of part B, one step at a time *)

Lemma search_b_cons la k i rest :
  wf la -> 2 <= LastSubArray._b_size la ->
  LastSubArray.search_b la k (i :: rest) =
  match slotb la k i with
  | None => Ok None
  | Some (k', v) => if decide (k' = k) then Ok (Some v) else LastSubArray.search_b la k rest
  end.
Proof.
  intros Hwf Hs. simpl. rewrite hash_b_ok by done. simpl.
  rewrite getitem_nth_slot by by apply posb_range. done.
Qed.

Lemma insert_update_b_cons la k v i rest :
  wf la -> 2 <= LastSubArray._b_size la ->
  LastSubArray.insert_update_b la k v (i :: rest) =
  match slotb la k i with
  | Some (k', _) =>
      if decide (k' = k)
      then Ok (Some (<[Z.to_nat (posb la k i) := Some (k, v)]> (LastSubArray._b la)))
      else LastSubArray.insert_update_b la k v rest
  | None => LastSubArray.insert_update_b la k v rest
  end.
Proof.
  intros Hwf Hs. simpl. rewrite hash_b_ok by done. simpl.
  rewrite getitem_nth_slot by by apply posb_range. simpl.
  destruct (slotb la k i) as [[k' v']|]; [|done].
  destruct (decide (k' = k)); [|done].
  rewrite setitem_ok by by apply posb_range. done.
Qed.

Lemma insert_place_b_cons la k v i rest :
  wf la -> 2 <= LastSubArray._b_size la ->
  LastSubArray.insert_place_b la k v (i :: rest) =
  match slotb la k i with
  | None => Ok (Some (<[Z.to_nat (posb la k i) := Some (k, v)]> (LastSubArray._b la)))
  | Some _ => LastSubArray.insert_place_b la k v rest
  end.
Proof.
  intros Hwf Hs. simpl. rewrite hash_b_ok by done. simpl.
  rewrite getitem_nth_slot by by apply posb_range. simpl.
  destruct (slotb la k i) as [[k' v']|]; [done|].
  rewrite setitem_ok by by apply posb_range. done.
Qed.

(** *** Part B: search *)

Lemma search_b_skip la k pre rest :
  wf la -> 2 <= LastSubArray._b_size la ->
  Forall (fun j => other k (slotb la k j)) pre ->
  LastSubArray.search_b la k (pre ++ rest) = LastSubArray.search_b la k rest.
Proof.
  intros Hwf Hs. induction 1 as [|j pre (k' & v' & Hj & Hne) _ IH]; [done|].
  rewrite <- app_comm_cons, search_b_cons, Hj by done.
  by destruct (decide (k' = k)).
Qed.

Lemma search_b_free la k l :
  wf la -> 2 <= LastSubArray._b_size la -> free_in (LastSubArray._b la) k ->
  LastSubArray.search_b la k l = Ok None.
Proof.
  intros Hwf Hs Hfree. induction l as [|j l IH]; [done|].
  rewrite search_b_cons by done.
  pose proof (free_in_nth _ _ _ Hfree (posb_range la k j Hwf Hs)) as Hnot.
  destruct (slotb la k j) as [[k' v']|]; [|done].
  destruct (decide (k' = k)) as [->|]; [|done].
  destruct Hnot. by exists v'.
Qed.

Lemma search_b_in_b la k v :
  wf la -> 2 <= LastSubArray._b_size la -> in_b la k v ->
  LastSubArray.search_b la k (range (attempts la)) = Ok (Some v).
Proof.
  intros Hwf Hs (i & Hlt & Hi & Hslot & Hbefore).
  rewrite (range_split _ i) by lia.
  rewrite search_b_skip; [|done|done|].
  - rewrite search_b_cons, Hslot by done. by destruct (decide (k = k)).
  - apply Forall_seqZ. intros j Hj. apply Hbefore. lia.
Qed.

Lemma search_b_others la k :
  wf la -> 2 <= LastSubArray._b_size la ->
  (forall j, 0 <= j < attempts la -> other k (slotb la k j)) ->
  LastSubArray.search_b la k (range (attempts la)) = Ok None.
Proof.
  intros Hwf Hs Hall.
  rewrite <- (app_nil_r (range _)), search_b_skip; [done|done|done|].
  apply Forall_seqZ. intros j Hj. apply Hall. lia.
Qed.

(** *** Part B: overwrite and placement *)

Lemma insert_update_b_skip la k v pre rest :
  wf la -> 2 <= LastSubArray._b_size la ->
  Forall (fun j => ~ holds k (slotb la k j)) pre ->
  LastSubArray.insert_update_b la k v (pre ++ rest) = LastSubArray.insert_update_b la k v rest.
Proof.
  intros Hwf Hs. induction 1 as [|j pre Hj _ IH]; [done|].
  rewrite <- app_comm_cons, insert_update_b_cons by done.
  destruct (slotb la k j) as [[k' v']|]; [|done].
  destruct (decide (k' = k)) as [->|]; [|done]. destruct Hj. by exists v'.
Qed.

Lemma insert_update_b_none la k v l :
  wf la -> 2 <= LastSubArray._b_size la ->
  Forall (fun j => ~ holds k (slotb la k j)) l ->
  LastSubArray.insert_update_b la k v l = Ok None.
Proof.
  intros Hwf Hs HF. rewrite <- (app_nil_r l). by rewrite insert_update_b_skip.
Qed.

Lemma insert_update_b_free la k v l :
  wf la -> 2 <= LastSubArray._b_size la -> free_in (LastSubArray._b la) k ->
  LastSubArray.insert_update_b la k v l = Ok None.
Proof.
  intros Hwf Hs Hfree. apply insert_update_b_none; [done|done|].
  apply Forall_forall. intros j _.
  apply (free_in_nth _ _ _ Hfree (posb_range la k j Hwf Hs)).
Qed.

Lemma insert_update_b_in_b la k v i v0 :
  wf la -> 2 <= LastSubArray._b_size la -> i < attempts la ->
  at_probe (LastSubArray._b_size la) (LastSubArray._b la) k i v0 ->
  LastSubArray.insert_update_b la k v (range (attempts la)) =
  Ok (Some (<[Z.to_nat (posb la k i) := Some (k, v)]> (LastSubArray._b la))).
Proof.
  intros Hwf Hs Hlt (Hi & Hslot & Hbefore).
  rewrite (range_split _ i) by lia.
  rewrite insert_update_b_skip; [|done|done|].
  - rewrite insert_update_b_cons, Hslot by done. by destruct (decide (k = k)).
  - apply Forall_seqZ. intros j Hj. intros Hh.
    eapply holds_not_other; [exact Hh|]. apply Hbefore. lia.
Qed.

Lemma insert_place_b_spec la k v l :
  wf la -> 2 <= LastSubArray._b_size la ->
  (LastSubArray.insert_place_b la k v l = Ok None /\
   Forall (fun j => slotb la k j <> None) l) \/
  (exists pre i post, l = pre ++ i :: post /\
     Forall (fun j => slotb la k j <> None) pre /\
     slotb la k i = None /\
     LastSubArray.insert_place_b la k v l =
     Ok (Some (<[Z.to_nat (posb la k i) := Some (k, v)]> (LastSubArray._b la)))).
Proof.
  intros Hwf Hs. induction l as [|j l IH]; [by left|].
  rewrite insert_place_b_cons by done.
  destruct (slotb la k j) as [s|] eqn:Hj.
  - destruct IH as [[Hnone Hall]|(pre & i & post & -> & Hpre & Hi & Hres)].
    + left. split; [done|]. constructor; [by rewrite Hj|done].
    + right. exists (j :: pre), i, post. split; [done|]. split; [|done].
      constructor; [by rewrite Hj|done].
  - right. by exists [], j, l.
Qed.

(** *** Part C *)

Lemma place_in_bucket_cons k v (bucket : list (slot Key Val)) i rest :
  0 <= i < Z.of_nat (length bucket) ->
  LastSubArray.place_in_bucket k v bucket (i :: rest) =
  match nth_slot bucket i with
  | None => Ok (Some (<[Z.to_nat i := Some (k, v)]> bucket))
  | Some _ => LastSubArray.place_in_bucket k v bucket rest
  end.
Proof.
  intros Hi. simpl. rewrite getitem_nth_slot by done. simpl.
  destruct (nth_slot bucket i); [done|]. by rewrite setitem_ok.
Qed.

Lemma place_in_bucket_spec k v (bucket : list (slot Key Val)) l :
  Forall (fun i => 0 <= i < Z.of_nat (length bucket)) l ->
  (LastSubArray.place_in_bucket k v bucket l = Ok None /\
   Forall (fun i => nth_slot bucket i <> None) l) \/
  (exists pre i post, l = pre ++ i :: post /\
     Forall (fun j => nth_slot bucket j <> None) pre /\
     nth_slot bucket i = None /\
     LastSubArray.place_in_bucket k v bucket l =
     Ok (Some (<[Z.to_nat i := Some (k, v)]> bucket))).
Proof.
  induction 1 as [|j l Hj _ IH]; [by left|].
  rewrite place_in_bucket_cons by done.
  destruct (nth_slot bucket j) as [s|] eqn:Hs.
  - destruct IH as [[Hnone Hall]|(pre & i & post & -> & Hpre & Hi & Hres)].
    + left. split; [done|]. constructor; [by rewrite Hs|done].
    + right. exists (j :: pre), i, post. split; [done|]. split; [|done].
      constructor; [by rewrite Hs|done].
  - right. by exists [], j, l.
Qed.

Lemma occupied_all (bucket : list (slot Key Val)) n :
  length bucket = Z.to_nat n ->
  Forall (fun i => nth_slot bucket i <> None) (range n) ->
  Forall (fun s => s <> None) bucket.
Proof.
  intros Hlen Hall. unfold range in Hall. rewrite Forall_seqZ in Hall.
  apply Forall_lookup. intros i s Hi.
  specialize (Hall (Z.of_nat i)). unfold nth_slot in Hall.
  rewrite Nat2Z.id, Hi in Hall. apply Hall.
  apply lookup_lt_Some in Hi. lia.
Qed.

(** The bucket [insert] chooses, and what it does there: the first
    empty slot of the chosen bucket takes the entry. *)
Lemma chosen_cases la k :
  (chosen la k = cand1 la k /\ count_empty (bucket1 la k) >= count_empty (bucket2 la k)) \/
  (chosen la k = cand2 la k /\ count_empty (bucket1 la k) < count_empty (bucket2 la k)).
Proof.
  unfold chosen, LastSubArray.choose_bucket.
  destruct (decide (count_empty (bucket1 la k) >= count_empty (bucket2 la k)));
    [left|right]; split; [done|lia|done|lia].
Qed.

Lemma chosen_range la k :
  2 <= Z.of_nat (length (LastSubArray._c la)) ->
  0 <= chosen la k < Z.of_nat (length (LastSubArray._c la)).
Proof.
  intros Hc. pose proof (cand_range la k Hc) as [? ?].
  destruct (chosen_cases la k) as [[-> _]|[-> _]]; done.
Qed.

Lemma insert_place_c_spec la k v :
  wf la -> safe la ->
  let target := nth_bucket (LastSubArray._c la) (chosen la k) in
  (LastSubArray.insert_place_c la k v = Ok None /\
   Forall (fun s => s <> None) target) \/
  (exists i, 0 <= i < LastSubArray._bucket_size la /\
     nth_slot target i = None /\
     (forall j, 0 <= j < i -> nth_slot target j <> None) /\
     LastSubArray.insert_place_c la k v =
     Ok (Some (<[Z.to_nat (chosen la k) :=
                 <[Z.to_nat i := Some (k, v)]> target]> (LastSubArray._c la)))).
Proof.
  intros Hwf [Hb Hc] target.
  pose proof (cand_range la k Hc) as [Hc1 Hc2].
  pose proof (chosen_range la k Hc) as Ht.
  pose proof (nth_bucket_length la _ Hwf Ht) as Hlen. fold target in Hlen.
  unfold LastSubArray.insert_place_c.
  rewrite hash_c_ok by done. simpl.
  rewrite !getitem_bucket by done. simpl.
  fold (chosen la k). rewrite norm_index_ok by done. simpl.
  rewrite getitem_bucket by done. simpl. fold target.
  destruct (place_in_bucket_spec k v target (range (LastSubArray._bucket_size la)))
    as [[-> Hall]|(pre & i & post & Hsplit & Hpre & Hi & ->)]; simpl.
  - apply Forall_seqZ. intros i Hi. rewrite Hlen. lia.
  - left. split; [done|]. by eapply occupied_all.
  - right. apply range_inv in Hsplit as [Hrange ->].
    exists i. split; [done|]. split; [done|]. split; [|done].
    rewrite Forall_seqZ in Hpre. intros j Hj. apply Hpre. lia.
Qed.

Lemma insert_update_c_free la k v :
  wf la -> safe la -> free la k ->
  LastSubArray.insert_update_c la k v (cand1 la k) (cand2 la k) = Ok None.
Proof.
  intros Hwf [Hb Hc] Hfree. pose proof (cand_range la k Hc) as [Hc1 Hc2].
  unfold LastSubArray.insert_update_c.
  rewrite !norm_index_ok, !getitem_bucket by done. simpl.
  rewrite !bucket_index_free by by apply nth_bucket_free. done.
Qed.

(** *** search *)

Lemma la_search_free la k :
  wf la -> safe la -> free la k -> LastSubArray.search la k = Ok None.
Proof.
  intros Hwf Hs Hfree. pose proof Hs as [Hb Hc].
  pose proof (cand_range la k Hc) as [Hc1 Hc2].
  unfold LastSubArray.search. rewrite loglog_ok by done. simpl.
  rewrite search_b_free by (done || apply Hfree). simpl.
  rewrite hash_c_ok by done. simpl.
  rewrite !getitem_bucket by done. simpl.
  rewrite !bucket_search_free by by apply nth_bucket_free. done.
Qed.

Lemma search_holds la k v :
  wf la -> safe la -> holds_value la k v -> LastSubArray.search la k = Ok v.
Proof.
  intros Hwf Hs [Hinb|[Hothers Hfound]]; pose proof Hs as [Hb Hc];
    unfold LastSubArray.search; rewrite loglog_ok by done; simpl.
  - rewrite (search_b_in_b la k v) by done. done.
  - pose proof (cand_range la k Hc) as [Hc1 Hc2].
    rewrite search_b_others by done. simpl.
    rewrite hash_c_ok by done. simpl.
    rewrite !getitem_bucket by done. simpl.
    unfold found in Hfound.
    destruct (LastSubArray.bucket_search k (bucket1 la k)) as [v1|]; [by injection Hfound as ->|].
    by rewrite Hfound.
Qed.

(** On an empty terminal tier whose moduli vanish, [search] raises. *)
Lemma la_search_unsafe la k :
  wf la -> ~ safe la -> empty la ->
  LastSubArray.search la k = Raise ZeroDivisionError.
Proof.
  intros Hwf Hs (Hb & Hc & _). pose proof (attempts_pos la Hwf) as Hatt.
  pose proof Hwf as (_ & Hb0 & Hlen & _).
  unfold LastSubArray.search. rewrite loglog_ok by done. simpl.
  rewrite range_cons by lia. simpl.
  unfold LastSubArray._hash_b.
  destruct (decide (LastSubArray._b_size la = 0)) as [->|Hne0]; [done|].
  destruct (decide (LastSubArray._b_size la = 1)) as [->|Hne1]; [done|].
  rewrite double_hash_ok by lia. simpl.
  assert (Hr : 0 <= probe (LastSubArray._b_size la) k 0 <
               Z.of_nat (length (LastSubArray._b la))).
  { rewrite Hlen, Z2Nat.id by lia. apply probe_range. lia. }
  rewrite getitem_nth_slot by done. simpl.
  rewrite all_empty_nth by done.
  unfold LastSubArray._hash_c. simpl.
  destruct (decide (Z.of_nat (length (LastSubArray._c la)) = 0)) as [->|Hc0]; [done|].
  rewrite (py_mod_ok (hash k)) by done. simpl.
  destruct (decide (Z.of_nat (length (LastSubArray._c la)) = 1)) as [->|Hc1]; [done|].
  destruct Hs. split; lia.
Qed.

(** *** insert *)

Lemma with_b_wf la b :
  wf la -> length b = length (LastSubArray._b la) -> wf (LastSubArray.with_b la b).
Proof. intros (H1 & H2 & H3 & H4) Hlen. repeat split; simpl; [done|done|lia|done]. Qed.

Lemma with_c_wf la p bucket :
  wf la -> length bucket = Z.to_nat (LastSubArray._bucket_size la) ->
  wf (LastSubArray.with_c la (<[p := bucket]> (LastSubArray._c la))).
Proof.
  intros (H1 & H2 & H3 & H4) Hlen. repeat split; simpl; [done|done|done|].
  destruct (decide (p < length (LastSubArray._c la))%nat) as [Hp|Hp].
  - by apply Forall_insert.
  - rewrite list_insert_ge by lia. done.
Qed.

Lemma incr_count_wf la : wf la -> wf (LastSubArray.incr_count la).
Proof. intros (H1 & H2 & H3 & H4). by repeat split. Qed.

Lemma buckets_step_refl k (c : list (list (slot Key Val))) :
  Forall2 (Forall2 (slot_step k)) c c.
Proof. apply Forall_Forall2_diag, Forall_forall. intros. apply table_step_refl. Qed.

Lemma buckets_step_insert k (c : list (list (slot Key Val))) j bucket bucket' :
  0 <= j < Z.of_nat (length c) -> nth_bucket c j = bucket ->
  Forall2 (slot_step k) bucket bucket' ->
  Forall2 (Forall2 (slot_step k)) c (<[Z.to_nat j := bucket']> c).
Proof.
  intros Hj Hb Hstep.
  rewrite <- (list_insert_id c (Z.to_nat j) bucket) at 1
    by (rewrite <- Hb; by apply nth_bucket_lookup).
  apply Forall2_insert; [apply buckets_step_refl|done].
Qed.

Lemma step_b k la b :
  Forall2 (slot_step k) (LastSubArray._b la) b -> step k la (LastSubArray.with_b la b).
Proof. intros Hb. repeat split; simpl; [done|apply buckets_step_refl]. Qed.

Lemma step_c k la c :
  Forall2 (Forall2 (slot_step k)) (LastSubArray._c la) c ->
  step k la (LastSubArray.with_c la c).
Proof. intros Hb. repeat split; simpl; [apply table_step_refl|done]. Qed.

Lemma step_incr k la la' : step k la la' -> step k la (LastSubArray.incr_count la').
Proof. intros (?&?&?&?&?&?). by repeat split. Qed.

Lemma in_b_written la k v i :
  wf la -> 2 <= LastSubArray._b_size la -> 0 <= i < attempts la ->
  slotb la k i = None \/ holds k (slotb la k i) ->
  (forall j, 0 <= j < i -> other k (slotb la k j)) ->
  in_b (LastSubArray.with_b la
          (<[Z.to_nat (posb la k i) := Some (k, v)]> (LastSubArray._b la))) k v.
Proof.
  intros (H1 & H2 & H3 & H4) Hb Hi Hold Hbefore. exists i.
  split; [unfold attempts in *; simpl; lia|]. simpl.
  apply at_probe_written; [lia|done|lia|done|done].
Qed.

(** The key is in part B: its value is overwritten there. *)
Lemma insert_in_b la k v v0 :
  wf la -> safe la -> in_b la k v0 ->
  exists la', LastSubArray.insert la k v = Ok (true, la') /\
    wf la' /\ step k la la' /\ holds_value la' k v /\
    LastSubArray._count la' = LastSubArray._count la.
Proof.
  intros Hwf Hs (i & Hlt & Hat). pose proof Hat as (Hi & Hslot & Hbefore).
  pose proof Hs as [Hb Hc].
  assert (Hold : slotb la k i = None \/ holds k (slotb la k i)).
  { right. by exists v0. }
  eexists. unfold LastSubArray.insert. rewrite loglog_ok by done. simpl.
  rewrite (insert_update_b_in_b la k v i v0) by done. simpl.
  split; [done|]. split; [|split; [|split; [|done]]].
  - apply with_b_wf; [done|]. by rewrite length_insert.
  - apply step_b. apply table_step_insert; [by apply posb_range|done].
  - left. apply in_b_written; [done|done|lia|done|done].
Qed.

Lemma in_c_no_holds la k v j :
  in_c la k v -> 0 <= j < attempts la -> ~ holds k (slotb la k j).
Proof. intros [Hothers _] Hj Hh. eapply holds_not_other; [done|by apply Hothers]. Qed.

Lemma cand_same la la' k :
  length (LastSubArray._c la') = length (LastSubArray._c la) ->
  cand1 la' k = cand1 la k /\ cand2 la' k = cand2 la k.
Proof. intros Hlen. unfold cand2, cand1. by rewrite Hlen. Qed.

Lemma in_c_written la k v j bucket :
  wf la -> safe la ->
  (forall i, 0 <= i < attempts la -> other k (slotb la k i)) ->
  0 <= j < Z.of_nat (length (LastSubArray._c la)) ->
  (j = cand1 la k \/
   j = cand2 la k /\ LastSubArray.bucket_search k (bucket1 la k) = None) ->
  LastSubArray.bucket_search k bucket = Some v ->
  in_c (LastSubArray.with_c la (<[Z.to_nat j := bucket]> (LastSubArray._c la))) k v.
Proof.
  intros Hwf [_ Hc] Hothers Hj Hwhich Hsearch. split; [done|].
  pose proof (cand_range la k Hc) as [Hc1 Hc2].
  pose proof (cand_distinct la k Hc) as Hne.
  destruct (cand_same la (LastSubArray.with_c la
              (<[Z.to_nat j := bucket]> (LastSubArray._c la))) k) as [-> ->].
  { simpl. by rewrite length_insert. }
  simpl. unfold found. rewrite !nth_bucket_insert by lia.
  destruct Hwhich as [->|[-> Hnone]].
  - destruct (decide (cand1 la k = cand1 la k)); [|done]. by rewrite Hsearch.
  - destruct (decide (cand2 la k = cand1 la k)); [congruence|].
    rewrite Hnone. destruct (decide (cand2 la k = cand2 la k)); done.
Qed.

(** The key is in part C: its value is overwritten there. *)
Lemma insert_in_c la k v v0 :
  wf la -> safe la -> in_c la k v0 ->
  exists la', LastSubArray.insert la k v = Ok (true, la') /\
    wf la' /\ step k la la' /\ holds_value la' k v /\
    LastSubArray._count la' = LastSubArray._count la.
Proof.
  intros Hwf Hs Hin. pose proof Hin as [Hothers Hfound]. pose proof Hs as [Hb Hc].
  pose proof (cand_range la k Hc) as [Hc1 Hc2].
  unfold LastSubArray.insert. rewrite loglog_ok by done. simpl.
  rewrite insert_update_b_none; [|done|done|].
  2:{ apply Forall_seqZ. intros j Hj. eapply in_c_no_holds; [done|lia]. }
  simpl. rewrite hash_c_ok by done. simpl.
  unfold LastSubArray.insert_update_c.
  rewrite !norm_index_ok, !getitem_bucket by done. simpl.
  unfold found in Hfound.
  destruct (LastSubArray.bucket_search k (bucket1 la k)) as [v1|] eqn:Hs1.
  - destruct (bucket_index_search k _ v1 v 0%nat Hs1) as (i & -> & [v' Hh] & Hw). simpl.
    destruct (bucket1 la k !! i) as [s|] eqn:Hi; [simpl in Hh; subst s|done].
    eexists. split; [done|]. split; [|split; [|split; [|done]]].
    + apply with_c_wf; [done|]. rewrite length_insert. by apply nth_bucket_length.
    + apply step_c. eapply buckets_step_insert; [done|done|].
      eapply bucket_step_insert; [done|]. right. by exists v'.
    + right. apply in_c_written; [done|done|done|done|by left|done].
  - rewrite (bucket_index_None k _ 0%nat Hs1).
    destruct (bucket_index_search k _ v0 v 0%nat Hfound) as (i & -> & [v' Hh] & Hw). simpl.
    destruct (bucket2 la k !! i) as [s|] eqn:Hi; [simpl in Hh; subst s|done].
    eexists. split; [done|]. split; [|split; [|split; [|done]]].
    + apply with_c_wf; [done|]. rewrite length_insert. by apply nth_bucket_length.
    + apply step_c. eapply buckets_step_insert; [done|done|].
      eapply bucket_step_insert; [done|]. right. by exists v'.
    + right. apply in_c_written; [done|done|done|done|by right|done].
Qed.

Lemma la_insert_holds la k v v0 :
  wf la -> safe la -> holds_value la k v0 ->
  exists la', LastSubArray.insert la k v = Ok (true, la') /\
    wf la' /\ step k la la' /\ holds_value la' k v /\
    LastSubArray._count la' = LastSubArray._count la.
Proof. intros Hwf Hs [Hb|Hc]; [by eapply insert_in_b|by eapply insert_in_c]. Qed.

(** The key is not in the tier: part B takes it at its first empty
    probe, else the chosen bucket of part C at its first empty slot,
    else the tier is left untouched. *)
Lemma la_insert_free la k v :
  wf la -> safe la -> free la k ->
  LastSubArray.insert la k v = Ok (false, la) \/
  (exists la', LastSubArray.insert la k v = Ok (true, la') /\
     wf la' /\ step k la la' /\ holds_value la' k v /\
     LastSubArray._count la' = LastSubArray._count la + 1).
Proof.
  intros Hwf Hs Hfree. pose proof Hs as [Hb Hc].
  pose proof (cand_range la k Hc) as [Hc1 Hc2].
  unfold LastSubArray.insert. rewrite loglog_ok by done. simpl.
  rewrite insert_update_b_free by (done || apply Hfree). simpl.
  rewrite hash_c_ok by done. simpl.
  rewrite insert_update_c_free by done. simpl.
  destruct (insert_place_b_spec la k v (range (attempts la)) Hwf Hb)
    as [[-> Hall]|(pre & i & post & Hsplit & Hpre & Hi & ->)]; simpl.
  - assert (Hothers : forall j, 0 <= j < attempts la -> other k (slotb la k j)).
    { intros j Hj. unfold range in Hall. rewrite Forall_seqZ in Hall.
      apply occupied_free_other; [apply Hfree|by apply posb_range|]. apply Hall. lia. }
    destruct (insert_place_c_spec la k v Hwf Hs)
      as [[-> _]|(i & Hi & Hempty & _ & ->)]; simpl; [by left|].
    right. eexists. split; [done|].
    pose proof (chosen_range la k Hc) as Ht.
    assert (Hlook : nth_bucket (LastSubArray._c la) (chosen la k) !! Z.to_nat i = Some None).
    { pose proof (nth_bucket_length la _ Hwf Ht) as Hlen.
      unfold nth_slot in Hempty.
      destruct (lookup_lt_is_Some_2 (nth_bucket (LastSubArray._c la) (chosen la k))
                  (Z.to_nat i)) as [s Hs']; [lia|].
      rewrite Hs' in Hempty. simpl in Hempty. by subst s. }
    split; [|split; [|split; [|done]]].
    + apply incr_count_wf, with_c_wf; [done|].
      rewrite length_insert. by apply nth_bucket_length.
    + apply step_incr, step_c. eapply buckets_step_insert; [done|done|].
      eapply bucket_step_insert; [done|by left].
    + right.
      assert (Hin : in_c (LastSubArray.with_c la
                (<[Z.to_nat (chosen la k) :=
                   <[Z.to_nat i := Some (k, v)]>
                     (nth_bucket (LastSubArray._c la) (chosen la k))]>
                   (LastSubArray._c la))) k v).
      { apply in_c_written; [done|done|done|done| |].
        - destruct (chosen_cases la k) as [[-> _]|[-> _]]; [by left|right].
          split; [done|]. apply bucket_search_free. by apply nth_bucket_free.
        - apply bucket_search_placed; [by apply nth_bucket_free|done]. }
      exact Hin.
  - right. eexists. split; [done|].
    apply range_inv in Hsplit as [Hrange ->].
    assert (Hbefore : forall j, 0 <= j < i -> other k (slotb la k j)).
    { intros j Hj. rewrite Forall_seqZ in Hpre.
      apply occupied_free_other; [apply Hfree|by apply posb_range|]. apply Hpre. lia. }
    split; [|split; [|split; [|done]]].
    + apply incr_count_wf, with_b_wf; [done|]. by rewrite length_insert.
    + apply step_incr, step_b. apply table_step_insert; [by apply posb_range|by left].
    + left. apply (in_b_written la k v i); [done|done|lia|by left|done].
Qed.

(** *** Invariance under inserts of other keys *)

Lemma la_step_refl k la : step k la la.
Proof. repeat split; [apply table_step_refl|apply buckets_step_refl]. Qed.

Lemma step_attempts k la la' : step k la la' -> attempts la' = attempts la.
Proof. intros (Hsz & _). unfold attempts. by rewrite Hsz. Qed.

Lemma step_cand k la la' k0 :
  step k la la' -> cand1 la' k0 = cand1 la k0 /\ cand2 la' k0 = cand2 la k0.
Proof.
  intros (_ & _ & _ & _ & _ & HC). apply cand_same. symmetry. by eapply Forall2_length.
Qed.

Lemma la_step_wf k la la' : step k la la' -> wf la -> wf la'.
Proof.
  intros (Hsz & Hbs & _ & Hbk & HB & HC) (H1 & H2 & H3 & H4).
  split; [by rewrite Hsz|]. split; [by rewrite Hbs|]. split.
  - rewrite Hbs, <- H3. symmetry. by eapply Forall2_length.
  - rewrite Hbk. clear -HC H4. induction HC as [|x y c c' Hxy _ IH]; [done|].
    apply Forall_cons in H4 as [Hx Hrest]. constructor; [|by apply IH].
    rewrite <- Hx. symmetry. by eapply Forall2_length.
Qed.

Lemma la_step_safe k la la' : step k la la' -> safe la -> safe la'.
Proof.
  intros (_ & Hbs & _ & _ & _ & HC) [Hb Hc]. split; [by rewrite Hbs|].
  by rewrite <- (Forall2_length _ _ _ HC).
Qed.

Lemma la_free_step k k0 la la' : k0 <> k -> step k la la' -> free la k0 -> free la' k0.
Proof.
  intros Hne (_ & _ & _ & _ & HB & HC) [Hb Hc].
  split; [by apply (free_in_step k k0 (LastSubArray._b la))|].
  clear -Hne HC Hc. induction HC as [|x y c c' Hxy _ IH]; [done|].
  apply Forall_cons in Hc as [Hx Hrest]. constructor; [|by apply IH].
  by apply (free_in_step k k0 x).
Qed.

Lemma nth_bucket_step k (c c' : list (list (slot Key Val))) j :
  Forall2 (Forall2 (slot_step k)) c c' ->
  Forall2 (slot_step k) (nth_bucket c j) (nth_bucket c' j).
Proof.
  intros HC. unfold nth_bucket.
  destruct (c !! Z.to_nat j) as [x|] eqn:Hx.
  - destruct (Forall2_lookup_l _ _ _ _ _ HC Hx) as (y & -> & Hxy). done.
  - apply lookup_ge_None in Hx. rewrite (Forall2_length _ _ _ HC) in Hx.
    apply lookup_ge_None in Hx. rewrite Hx. constructor.
Qed.

Lemma la_holds_value_step k k0 la la' v :
  k0 <> k -> step k la la' -> holds_value la k0 v -> holds_value la' k0 v.
Proof.
  intros Hne Hstep Hv.
  pose proof (step_attempts _ _ _ Hstep) as Hatt.
  pose proof (step_cand _ _ _ k0 Hstep) as [Hc1 Hc2].
  destruct Hstep as (_ & Hbs & _ & _ & HB & HC).
  destruct Hv as [(i & Hlt & Hat)|[Hothers Hfound]]; [left|right].
  - exists i. rewrite Hatt, Hbs. split; [done|]. by eapply at_probe_step.
  - split.
    + intros j Hj. rewrite Hbs. rewrite Hatt in Hj.
      eapply step_other; [done|by apply table_step_nth|by apply Hothers].
    + rewrite Hc1, Hc2. unfold found in *.
      by rewrite !(bucket_search_step k k0 _ _ Hne (nth_bucket_step k _ _ _ HC)).
Qed.

Lemma la_empty_free la k : empty la -> free la k.
Proof.
  intros (Hb & Hc & _). split; [by apply all_empty_free|].
  eapply Forall_impl; [exact Hc|]. intros bucket. apply all_empty_free.
Qed.

Lemma la_init_ok size :
  1 <= size ->
  exists la, LastSubArray.init (Key:=Key) (Val:=Val) size = Ok la /\
    wf la /\ empty la /\ LastSubArray._size la = size.
Proof.
  intros Hs. unfold LastSubArray.init, loglog.
  destruct (decide (size + 1 <= 0)); [lia|]. simpl.
  pose proof (loglog_pos size Hs) as Hll.
  unfold py_floordiv. destruct (decide (_ = 0)); [lia|]. simpl.
  eexists. split; [done|]. split; [|split; [|done]].
  - split; [done|]. simpl. split; [apply Z.div_pos; lia|].
    split; [by rewrite length_replicate|].
    apply Forall_replicate. by rewrite length_replicate.
  - split; [apply all_empty_replicate|]. split; [|done]. simpl.
    apply Forall_replicate, all_empty_replicate.
Qed.

End facts.
End LastSubArrayFacts.

(** ** The table *)

Module TableFacts.
Import TableSpec.
Module SS := SubArraySpec.
Module SF := SubArrayFacts.
Module LS := LastSubArraySpec.
Module LF := LastSubArrayFacts.
Module OT := OpenAddressHashTable.

Section facts.
Context {Key Val : Type} `{Hashable Key}.
Implicit Types (T : OT.t Key Val) (k : Key) (v : option Val)
  (subs pre post : list (SubArray.t Key Val)).

(** *** The high-water test *)

Lemma high_water_test (c s : Z) :
  1 <= s -> Qle_bool (9 # 10) (inject_Z c / inject_Z s) = true <-> 9 * s <= 10 * c.
Proof.
  intros Hs. rewrite Qle_bool_iff.
  destruct s as [|p|p]; [lia| |lia].
  unfold Qle, Qdiv, Qmult, Qinv, inject_Z. simpl. lia.
Qed.

Lemma load_factor_ok T :
  OT._size T <> 0 ->
  OT.load_factor T = Ok (inject_Z (OT._count T) / inject_Z (OT._size T))%Q.
Proof. intros Hs. unfold OT.load_factor. by destruct (decide (OT._size T = 0)). Qed.

(** *** Record bookkeeping *)

Lemma with_subarrays_same T : OT.with_subarrays T (OT._subarrays T) = T.
Proof. by destruct T. Qed.

Lemma with_last_same T la : OT._last_array T = Some la -> OT.with_last T la = T.
Proof. destruct T. simpl. by intros ->. Qed.

Lemma rejects_free mp subs k :
  Forall (fun sa => SS.rejects mp sa k) subs -> Forall (fun sa => SS.free sa k) subs.
Proof. intros HF. eapply Forall_impl; [exact HF|]. by intros sa [? _]. Qed.

(** *** search *)

Lemma search_subarrays_skip pre rest k :
  Forall SS.wf pre -> Forall SS.safe pre -> Forall (fun sa => SS.free sa k) pre ->
  OT.search_subarrays (pre ++ rest) k = OT.search_subarrays rest k.
Proof.
  induction pre as [|sa pre IH]; [done|].
  intros [Hwf Hwfs]%Forall_cons [Hs Hss]%Forall_cons [Hf Hfs]%Forall_cons. simpl.
  rewrite SF.sa_search_free by done. simpl. by apply IH.
Qed.

Lemma search_subarrays_free subs k :
  Forall SS.wf subs -> Forall SS.safe subs -> Forall (fun sa => SS.free sa k) subs ->
  OT.search_subarrays subs k = Ok None.
Proof.
  intros. rewrite <- (app_nil_r subs). by rewrite search_subarrays_skip.
Qed.

Lemma search_last_free T k :
  wf T -> safe T -> last_free T k ->
  match OT._last_array T with
  | Some la => LastSubArray.search la k
  | None => Ok None
  end = Ok None.
Proof.
  intros [_ Hwf] (_ & la & Hla & Hs) Hfree. unfold last_free in Hfree.
  rewrite Hla in *. apply LF.la_search_free; [apply Hwf|done|done].
Qed.

Lemma search_absent T k : wf T -> safe T -> absent T k -> OT.search T k = Ok None.
Proof.
  intros Hwf Hs [Hfree Hlast]. unfold OT.search.
  rewrite search_subarrays_free; [|apply Hwf|apply Hs|done]. simpl.
  by apply search_last_free.
Qed.

Lemma search_stored T k v : wf T -> safe T -> stored T k v -> OT.search T k = Ok v.
Proof.
  intros Hwf Hs [(pre & sa & post & Hsubs & Hpre & Hsa & Hpost & Hlast)|
                 (Hall & la & Hla & Hv)]; unfold OT.search.
  - pose proof Hwf as [Hwfs _]. pose proof Hs as [Hss _].
    rewrite Hsubs in *.
    apply Forall_app in Hwfs as [Hwpre [Hwsa Hwpost]%Forall_cons].
    apply Forall_app in Hss as [Hspre [Hssa Hspost]%Forall_cons].
    rewrite search_subarrays_skip by eauto using rejects_free. simpl.
    destruct Hsa as (i & _ & Hat).
    rewrite (SF.search_at sa k i v) by done. simpl.
    destruct v as [x|]; [done|].
    rewrite search_subarrays_free by done. simpl.
    by apply search_last_free.
  - rewrite search_subarrays_free; [|apply Hwf|apply Hs|by eapply rejects_free]. simpl.
    rewrite Hla. destruct Hwf as [_ Hwf]. destruct Hs as (_ & la' & Hla' & Hs).
    rewrite Hla in *. injection Hla' as <-.
    apply LF.search_holds; [apply Hwf|done|done].
Qed.

(** *** The loops of insert *)

Lemma update_subarrays_skip pre rest k v mp :
  Forall SS.wf pre -> Forall SS.safe pre -> Forall (fun sa => SS.free sa k) pre ->
  OT.update_subarrays (pre ++ rest) k v mp =
  match OT.update_subarrays rest k v mp with
  | Ok (Some (b, rest')) => Ok (Some (b, pre ++ rest'))
  | Ok None => Ok None
  | Raise e => Raise e
  end.
Proof.
  induction pre as [|sa pre IH].
  { intros _ _ _. simpl. by destruct (OT.update_subarrays rest k v mp) as [[[b r]|]|]. }
  intros [Hwf Hwfs]%Forall_cons [Hs Hss]%Forall_cons [Hf Hfs]%Forall_cons. simpl.
  rewrite SF.sa_search_free by done. simpl. rewrite IH by done.
  by destruct (OT.update_subarrays rest k v mp) as [[[b r]|]|].
Qed.

Lemma update_subarrays_free subs k v mp :
  Forall SS.wf subs -> Forall SS.safe subs -> Forall (fun sa => SS.free sa k) subs ->
  OT.update_subarrays subs k v mp = Ok None.
Proof.
  intros. rewrite <- (app_nil_r subs). by rewrite update_subarrays_skip.
Qed.

Lemma place_subarrays_skip pre rest k v mp :
  Forall SS.wf pre -> Forall SS.safe pre -> Forall (fun sa => SS.rejects mp sa k) pre ->
  OT.place_subarrays (pre ++ rest) k v mp =
  let '(r, rest') := OT.place_subarrays rest k v mp in (r, pre ++ rest').
Proof.
  induction pre as [|sa pre IH].
  { intros _ _ _. simpl. by destruct (OT.place_subarrays rest k v mp). }
  intros [Hwf Hwfs]%Forall_cons [Hs Hss]%Forall_cons [Hf Hfs]%Forall_cons. simpl.
  rewrite SF.insert_rejects by done. rewrite IH by done.
  by destruct (OT.place_subarrays rest k v mp).
Qed.

Lemma place_subarrays_rejects subs k v mp :
  Forall SS.wf subs -> Forall SS.safe subs -> Forall (fun sa => SS.rejects mp sa k) subs ->
  OT.place_subarrays subs k v mp = (Ok false, subs).
Proof.
  intros. rewrite <- (app_nil_r subs) at 1. rewrite place_subarrays_skip by done.
  simpl. by rewrite app_nil_r.
Qed.

(** Placement of a key that no uniform tier holds. *)
Lemma place_subarrays_free subs k v mp :
  Forall SS.wf subs -> Forall SS.safe subs -> Forall (fun sa => SS.free sa k) subs ->
  (OT.place_subarrays subs k v mp = (Ok false, subs) /\
   Forall (fun sa => SS.rejects mp sa k) subs) \/
  (exists pre sa post sa', subs = pre ++ sa :: post /\
     Forall (fun sa => SS.rejects mp sa k) pre /\
     OT.place_subarrays subs k v mp = (Ok true, pre ++ sa' :: post) /\
     SS.wf sa' /\ SS.step k sa sa' /\ SS.holds_value mp sa' k v).
Proof.
  induction subs as [|sa subs IH]; [by left|].
  intros [Hwf Hwfs]%Forall_cons [Hs Hss]%Forall_cons [Hf Hfs]%Forall_cons. simpl.
  destruct (SF.sa_insert_free sa k v mp Hwf Hs Hf)
    as [[-> Hrej]|(sa' & -> & Hwf' & Hstep & Hv & _)].
  - destruct (IH Hwfs Hss Hfs)
      as [[-> Hall]|(pre & sa0 & post & sa' & -> & Hpre & -> & Hrest)].
    + left. split; [done|by constructor].
    + right. exists (sa :: pre), sa0, post, sa'. split; [done|].
      split; [by constructor|done].
  - right. by exists [], sa, subs, sa'.
Qed.

(** *** Steps of the table *)

Lemma Forall_step {A} (R : A -> A -> Prop) (P Q : A -> Prop) (l l' : list A) :
  (forall x y, R x y -> P x -> Q y) -> Forall2 R l l' -> Forall P l -> Forall Q l'.
Proof.
  intros HR. induction 1 as [|x y l l' Hxy _ IH]; [done|].
  intros [Hx Hl]%Forall_cons. constructor; [by eapply HR|by apply IH].
Qed.

Lemma subs_step_refl k subs : Forall2 (SS.step k) subs subs.
Proof. apply Forall_Forall2_diag, Forall_forall. intros. apply SF.sa_step_refl. Qed.

Lemma subs_step_middle k pre sa sa' post :
  SS.step k sa sa' -> Forall2 (SS.step k) (pre ++ sa :: post) (pre ++ sa' :: post).
Proof.
  intros Hstep. apply Forall2_app; [apply subs_step_refl|].
  constructor; [done|apply subs_step_refl].
Qed.

Lemma last_step_refl k (o : option (LastSubArray.t Key Val)) :
  option_Forall2 (LS.step k) o o.
Proof. destruct o; constructor. apply LF.la_step_refl. Qed.

Lemma tbl_step_wf k T T' : step k T T' -> wf T -> wf T'.
Proof.
  intros (Hsz & _ & Hsubs & Hlast) [Hwfs Hwfl]. split.
  - eapply Forall_step; [|exact Hsubs|exact Hwfs]. intros x y. apply SF.sa_step_wf.
  - destruct Hlast as [la la' Hstep|]; rewrite ?Hsz.
    + destruct Hwfl. split; [by eapply LF.la_step_wf|done].
    + rewrite Hwfl in Hsubs. by apply Forall2_nil_inv_l in Hsubs.
Qed.

Lemma tbl_step_safe k T T' : step k T T' -> safe T -> safe T'.
Proof.
  intros (_ & _ & Hsubs & Hlast) (Hss & la & Hla & Hsl). split.
  - eapply Forall_step; [|exact Hsubs|exact Hss]. intros x y. apply SF.sa_step_safe.
  - rewrite Hla in Hlast. inversion Hlast as [x la' Hstep|]; subst.
    exists la'. split; [done|by eapply LF.la_step_safe].
Qed.

Lemma last_free_step k k0 T T' : k0 <> k -> step k T T' -> last_free T k0 -> last_free T' k0.
Proof.
  intros Hne (_ & _ & _ & Hlast). unfold last_free.
  destruct Hlast as [la la' Hstep|]; [|done]. by apply (LF.la_free_step k).
Qed.

Lemma absent_step k k0 T T' : k0 <> k -> step k T T' -> absent T k0 -> absent T' k0.
Proof.
  intros Hne Hstep [Hfree Hlast]. split; [|by eapply last_free_step].
  destruct Hstep as (_ & _ & Hsubs & _).
  eapply Forall_step; [|exact Hsubs|exact Hfree]. intros x y ?. by apply (SF.sa_free_step k).
Qed.

Lemma stored_step k k0 T T' v :
  k0 <> k -> step k T T' -> stored T k0 v -> stored T' k0 v.
Proof.
  intros Hne Hstep Hst. pose proof Hstep as (_ & Hmp & Hsubs & Hlast).
  destruct Hst as [(pre & sa & post & Heq & Hpre & Hsa & Hpost & Hlf)|
                   (Hall & la & Hla & Hv)]; unfold stored; rewrite Hmp.
  - left. rewrite Heq in Hsubs.
    apply Forall2_app_inv_l in Hsubs as (pre' & rest' & Hpre' & Hrest' & ->).
    apply Forall2_cons_inv_l in Hrest' as (sa' & post' & Hsa' & Hpost' & ->).
    exists pre', sa', post'. split; [done|]. split; [|split; [|split]].
    + eapply Forall_step; [|exact Hpre'|exact Hpre]. intros x y ?. by apply (SF.rejects_step k).
    + by eapply SF.sa_holds_value_step.
    + eapply Forall_step; [|exact Hpost'|exact Hpost]. intros x y ?. by apply (SF.sa_free_step k).
    + by eapply last_free_step.
  - right. split.
    + eapply Forall_step; [|exact Hsubs|exact Hall]. intros x y ?. by apply (SF.rejects_step k).
    + rewrite Hla in Hlast. inversion Hlast as [x la' Hst|]; subst.
      exists la'. split; [done|by eapply LF.la_holds_value_step].
Qed.

(** *** insert on a table none of whose moduli is zero *)

Lemma update_last_free T k v :
  wf T -> safe T -> last_free T k -> OT.update_last (OT._last_array T) k v = Ok None.
Proof.
  intros [_ Hwf] (_ & la & Hla & Hs) Hfree. unfold last_free in Hfree.
  rewrite Hla in *. simpl. rewrite LF.la_search_free; [done|apply Hwf|done|done].
Qed.

(** The key is in no tier. *)
Lemma insert_absent T k v :
  wf T -> safe T -> absent T k ->
  (high_water T /\ OT.insert T k v = (Ok false, T)) \/
  (~ high_water T /\
   (OT.insert T k v = (Ok false, T) \/
    exists T', OT.insert T k v = (Ok true, T') /\ stored T' k v /\ step k T T' /\
      OT._count T' = OT._count T + 1)).
Proof.
  intros Hwf Hs [Hfree Hlast].
  pose proof Hwf as [Hwfs Hwfl]. pose proof Hs as (Hss & la & Hla & Hsl).
  rewrite Hla in Hwfl. destruct Hwfl as [Hwl Hsz].
  unfold OT.insert.
  rewrite update_subarrays_free by done.
  rewrite update_last_free by done.
  rewrite load_factor_ok by lia.
  destruct (Qle_bool _ _) eqn:Hq.
  { left. split; [|done]. by apply high_water_test in Hq. }
  right. split.
  { intros Hhw. apply (high_water_test _ _ Hsz) in Hhw. congruence. }
  unfold OT.place.
  destruct (place_subarrays_free (OT._subarrays T) k v (OT._max_probes T) Hwfs Hss Hfree)
    as [[-> Hrej]|(pre & sa & post & sa' & Heq & Hpre & -> & Hwf' & Hstep & Hv)].
  - rewrite with_subarrays_same, Hla.
    unfold last_free in Hlast. rewrite Hla in Hlast.
    destruct (LF.la_insert_free la k v Hwl Hsl Hlast)
      as [->|(la' & -> & Hwl' & Hstepl & Hvl & _)].
    + left. by rewrite with_last_same.
    + right. eexists. split; [done|]. split; [|split; [|done]].
      * right. split; [done|]. by exists la'.
      * split; [done|]. split; [done|]. simpl. split; [apply subs_step_refl|].
        rewrite Hla. by constructor.
  - right. eexists. split; [done|]. split; [|split; [|done]].
    + left. exists pre, sa', post. simpl. split; [done|]. split; [done|]. split; [done|].
      rewrite Heq in Hfree. apply Forall_app in Hfree as [_ [_ Hpost]%Forall_cons].
      done.
    + split; [done|]. split; [done|]. simpl.
      split; [rewrite Heq; by apply subs_step_middle|apply last_step_refl].
Qed.

(** The key is held by a tier. *)
Lemma insert_stored T k v v0 :
  wf T -> safe T -> stored T k v0 ->
  (v0 = None /\ high_water T /\ OT.insert T k v = (Ok false, T)) \/
  (exists T', OT.insert T k v = (Ok true, T') /\ stored T' k v /\ step k T T' /\
     (OT._count T' = OT._count T \/
      v0 = None /\ ~ high_water T /\ OT._count T' = OT._count T + 1)).
Proof.
  intros Hwf Hs Hst.
  pose proof Hwf as [Hwfs Hwfl]. pose proof Hs as (Hss & la & Hla & Hsl).
  rewrite Hla in Hwfl. destruct Hwfl as [Hwl Hsz].
  destruct Hst as [(pre & sa & post & Heq & Hpre & Hsa & Hpost & Hlf)|
                   (Hall & la' & Hla' & Hv)].
  - (* held by a uniform tier *)
    rewrite Heq in Hwfs, Hss.
    apply Forall_app in Hwfs as [Hwpre [Hwsa Hwpost]%Forall_cons].
    apply Forall_app in Hss as [Hspre [Hssa Hspost]%Forall_cons].
    destruct (SF.sa_insert_holds sa k v v0 _ Hwsa Hssa Hsa)
      as (sa' & Hins & Hwf' & Hstep & Hv' & _).
    assert (Hstored : forall T',
      OT._subarrays T' = pre ++ sa' :: post ->
      OT._max_probes T' = OT._max_probes T ->
      OT._last_array T' = OT._last_array T -> stored T' k v).
    { intros T' Hsubs' Hmp' Hlast'. left. exists pre, sa', post.
      rewrite Hmp'. unfold last_free. rewrite Hlast'. done. }
    assert (Hstep' : Forall2 (SS.step k) (OT._subarrays T) (pre ++ sa' :: post)).
    { rewrite Heq. by apply subs_step_middle. }
    unfold OT.insert. rewrite Heq.
    rewrite update_subarrays_skip by eauto using rejects_free. simpl.
    destruct Hsa as (i & Hlt & Hat).
    rewrite (SF.search_at sa k i v0) by done. simpl.
    destruct v0 as [x|].
    + rewrite Hins. simpl. right. eexists. split; [done|].
      split; [by apply Hstored|]. split; [|by left].
      split; [done|]. split; [done|]. split; [done|apply last_step_refl].
    + rewrite update_subarrays_free by done.
      rewrite update_last_free by done.
      rewrite load_factor_ok by lia.
      destruct (Qle_bool _ _) eqn:Hq.
      { left. split; [done|]. split; [by apply high_water_test in Hq|done]. }
      right. unfold OT.place. rewrite Heq.
      rewrite place_subarrays_skip by done. simpl. rewrite Hins.
      eexists. split; [done|]. split; [by apply Hstored|]. split.
      * split; [done|]. split; [done|]. split; [done|apply last_step_refl].
      * right. split; [done|]. split; [|done].
        intros Hhw. apply (high_water_test _ _ Hsz) in Hhw. congruence.
  - (* held by the terminal tier *)
    rewrite Hla in Hla'. injection Hla' as <-.
    destruct (LF.la_insert_holds la k v v0 Hwl Hsl Hv)
      as (la' & Hins & Hwl' & Hstepl & Hvl & _).
    assert (Hstored : forall T',
      OT._subarrays T' = OT._subarrays T ->
      OT._max_probes T' = OT._max_probes T ->
      OT._last_array T' = Some la' -> stored T' k v).
    { intros T' Hsubs' Hmp' Hlast'. right. rewrite Hmp', Hsubs'.
      split; [done|]. by exists la'. }
    unfold OT.insert.
    rewrite update_subarrays_free by eauto using rejects_free.
    rewrite Hla. simpl.
    rewrite (LF.search_holds la k v0) by done. simpl.
    destruct v0 as [x|].
    + rewrite Hins. simpl. right. eexists. split; [done|].
      split; [by apply Hstored|]. split; [|by left].
      split; [done|]. split; [done|]. simpl. split; [apply subs_step_refl|].
      rewrite Hla. by constructor.
    + rewrite load_factor_ok by lia.
      destruct (Qle_bool _ _) eqn:Hq.
      { left. split; [done|]. split; [by apply high_water_test in Hq|done]. }
      right. unfold OT.place.
      rewrite place_subarrays_rejects by done.
      rewrite with_subarrays_same, Hla, Hins.
      eexists. split; [done|]. split; [by apply Hstored|]. split.
      * split; [done|]. split; [done|]. simpl. split; [apply subs_step_refl|].
        rewrite Hla. by constructor.
      * right. split; [done|]. split; [|done].
        intros Hhw. apply (high_water_test _ _ Hsz) in Hhw. congruence.
Qed.

(** *** insert on an empty table one of whose moduli is zero *)

Lemma update_subarrays_empty subs k v mp :
  Forall SS.wf subs -> Forall SS.empty subs ->
  (Forall SS.safe subs /\ OT.update_subarrays subs k v mp = Ok None) \/
  (~ Forall SS.safe subs /\ OT.update_subarrays subs k v mp = Raise ZeroDivisionError).
Proof.
  induction subs as [|sa subs IH]; [by left|].
  intros [Hwf Hwfs]%Forall_cons [He Hes]%Forall_cons. simpl.
  destruct (decide (2 <= SubArray._size sa)) as [Hs|Hs].
  - rewrite SF.sa_search_free by eauto using SF.sa_empty_free. simpl.
    destruct (IH Hwfs Hes) as [[Hss ->]|[Hss ->]]; [left|right].
    + split; [by constructor|done].
    + split; [|done]. by intros [_ ?]%Forall_cons.
  - right. rewrite SF.sa_search_unsafe by done. split; [|done].
    by intros [? _]%Forall_cons.
Qed.

Lemma insert_unsafe T k v :
  wf T -> ~ safe T -> empty T ->
  (OT.insert T k v).2 = T /\ (OT.insert T k v).1 <> Ok true.
Proof.
  intros [Hwfs Hwfl] Hns (Hes & Hel & _). unfold OT.insert.
  destruct (update_subarrays_empty (OT._subarrays T) k v (OT._max_probes T) Hwfs Hes)
    as [[Hss ->]|[_ ->]]; [|done].
  destruct (OT._last_array T) as [la|] eqn:Hla.
  - destruct Hwfl as [Hwl _]. simpl.
    rewrite LF.la_search_unsafe; [done|done| |done].
    intros Hsl. apply Hns. split; [done|]. by exists la.
  - simpl. unfold OT.load_factor.
    destruct (decide (OT._size T = 0)); [done|].
    destruct (Qle_bool _ _); [done|].
    unfold OT.place. rewrite Hwfl. simpl. rewrite Hla.
    split; [|done]. simpl. rewrite <- Hwfl. apply with_subarrays_same.
Qed.

Lemma safe_dec T : safe T \/ ~ safe T.
Proof.
  unfold safe, SS.safe, LS.safe.
  destruct (decide (Forall (fun sa : SubArray.t Key Val => 2 <= SubArray._size sa)
                      (OT._subarrays T))) as [Hs|Hs]; [|right; by intros [? _]].
  destruct (OT._last_array T) as [la|]; [|right; by intros (_ & ? & ? & _)].
  destruct (decide (2 <= LastSubArray._b_size la /\
                    2 <= Z.of_nat (length (LastSubArray._c la)))) as [Hl|Hl].
  - left. split; [done|]. by exists la.
  - right. intros (_ & la' & [= <-] & ?). done.
Qed.

Lemma empty_absent T k : empty T -> absent T k.
Proof.
  intros (Hes & Hel & _). split.
  - eapply Forall_impl; [exact Hes|]. intros sa. apply SF.sa_empty_free.
  - unfold last_free. destruct (OT._last_array T); [by apply LF.la_empty_free|done].
Qed.

(** *** The constructor *)

Lemma init_subarrays_shape c idxs :
  Forall (fun sa : SubArray.t Key Val => SS.wf sa /\ SS.empty sa)
         (OT.init_subarrays c idxs).
Proof.
  induction idxs as [|i idxs IH]; simpl; [done|].
  destruct (decide (c `div` 2 ^ i < 1)); [done|].
  constructor; [|done]. split; [apply SF.init_wf; lia|apply SF.init_empty].
Qed.

Lemma sum_sizes_nonneg subs : Forall SS.wf subs -> 0 <= OT.sum_sizes subs.
Proof.
  induction 1 as [|sa subs [Hs _] _ IH]; simpl; [done|lia].
Qed.

(** The uniform tiers take less than twice the size of the first one. *)
Lemma sum_sizes_bound c (n : nat) i :
  0 <= i ->
  OT.sum_sizes (OT.init_subarrays (Key:=Key) (Val:=Val) c (seqZ i (Z.of_nat n)))
  <= Z.max 0 (2 * (c `div` 2 ^ i) - 1).
Proof.
  revert i. induction n as [|n IH]; intros i Hi; [simpl; lia|].
  rewrite seqZ_cons by lia. simpl.
  destruct (decide (c `div` 2 ^ i < 1)); [simpl; lia|]. simpl.
  replace (Z.pred (Z.of_nat (S n))) with (Z.of_nat n) by lia.
  specialize (IH (Z.succ i) ltac:(lia)).
  assert (Hhalf : c `div` 2 ^ Z.succ i = (c `div` 2 ^ i) `div` 2).
  { rewrite Z.pow_succ_r by done. rewrite (Z.mul_comm 2).
    rewrite Z.div_div; [done| |lia]. apply Z.pow_nonzero; lia. }
  rewrite Hhalf in IH.
  pose proof (Z.mul_div_le (c `div` 2 ^ i) 2 ltac:(lia)). lia.
Qed.

Lemma range_of_nat n : range n = seqZ 0 (Z.of_nat (Z.to_nat n)).
Proof.
  unfold range. destruct (decide (0 <= n)).
  - by rewrite Z2Nat.id.
  - rewrite seqZ_nil by lia. by rewrite Z2Nat.nonpos by lia.
Qed.

(** The uniform tiers leave room for the terminal tier. *)
Lemma sum_sizes_lt initial_size alpha :
  1 <= initial_size ->
  OT.sum_sizes (OT.init_subarrays (Key:=Key) (Val:=Val)
                  (initial_size `div` 2) (range alpha)) < initial_size.
Proof.
  intros Hs. rewrite range_of_nat.
  pose proof (sum_sizes_bound (initial_size `div` 2) (Z.to_nat alpha) 0 ltac:(lia)) as Hb.
  rewrite Z.pow_0_r, Z.div_1_r in Hb.
  pose proof (Z.mul_div_le initial_size 2 ltac:(lia)).
  pose proof (Z.div_pos initial_size 2 ltac:(lia) ltac:(lia)). lia.
Qed.

Lemma init_subarrays_nonpos c idxs :
  c <= 0 -> Forall (fun i => 0 <= i) idxs ->
  OT.init_subarrays (Key:=Key) (Val:=Val) c idxs = [].
Proof.
  intros Hc. destruct 1 as [|i idxs Hi _]; [done|]. simpl.
  destruct (decide (c `div` 2 ^ i < 1)); [done|exfalso].
  assert (0 < 2 ^ i) by (apply Z.pow_pos_nonneg; lia).
  assert (c `div` 2 ^ i <= 0); [|lia].
  apply Z.div_le_upper_bound; lia.
Qed.

Lemma tbl_init_ok initial_size alpha max_probes :
  exists T, OT.init (Key:=Key) (Val:=Val) initial_size alpha max_probes = Ok T /\
    wf T /\ empty T /\ OT._size T = initial_size /\
    OT._max_probes T = max_probes /\
    total_capacity T = Z.max 0 initial_size.
Proof.
  unfold OT.init.
  set (subs := OT.init_subarrays (initial_size `div` 2) (range alpha)).
  pose proof (init_subarrays_shape (initial_size `div` 2) (range alpha)) as Hshape.
  fold subs in Hshape.
  assert (Hwfs : Forall SS.wf subs).
  { eapply Forall_impl; [exact Hshape|]. by intros sa [? _]. }
  assert (Hes : Forall SS.empty subs).
  { eapply Forall_impl; [exact Hshape|]. by intros sa [_ ?]. }
  pose proof (sum_sizes_nonneg subs Hwfs) as Hsum.
  destruct (decide (initial_size - OT.sum_sizes subs > 0)) as [Hpos|Hnpos].
  - destruct (LF.la_init_ok (Key:=Key) (Val:=Val) (initial_size - OT.sum_sizes subs))
      as (la & -> & Hwl & Hel & Hsz); [lia|]. simpl.
    eexists. split; [done|]. unfold total_capacity. simpl.
    split; [split; [done|]; simpl; split; [done|lia]|].
    split; [by split|]. split; [done|]. split; [done|lia].
  - simpl. eexists. split; [done|]. unfold total_capacity. simpl.
    assert (Hnil : subs = []).
    { destruct (decide (1 <= initial_size)) as [Hge|Hlt].
      - pose proof (sum_sizes_lt initial_size alpha Hge). fold subs in H0. lia.
      - apply init_subarrays_nonpos.
        + apply Z.div_le_upper_bound; lia.
        + apply Forall_seqZ. lia. }
    rewrite Hnil in *. simpl in *.
    split; [by split|]. split; [by split|]. split; [done|]. split; [done|lia].
Qed.

End facts.
End TableFacts.

(** ** Reachable tables *)

Module TableInv.
Import TableSpec TableFacts.

Section facts.
Context {Key Val : Type} `{Hashable Key}.
Implicit Types (T : OT.t Key Val) (k : Key) (v : option Val).

(** Every call of [insert] on a reachable table either leaves the table
    as it was and does not return [True], or returns [True] and stores
    the key. *)
Lemma insert_cases T k v :
  inv T ->
  ((OT.insert T k v).2 = T /\ (OT.insert T k v).1 <> Ok true) \/
  (exists T', OT.insert T k v = (Ok true, T') /\ safe T /\ stored T' k v /\
     step k T T' /\
     (OT._count T' = OT._count T \/
      ~ high_water T /\ OT._count T' = OT._count T + 1)).
Proof.
  intros [Hwf [[Hs Hkeys]|[Hns He]]]; [|left; by apply insert_unsafe].
  destruct (Hkeys k) as [Habs|[v0 Hst]].
  - destruct (insert_absent T k v Hwf Hs Habs)
      as [[_ ->]|[Hhw [->|(T' & -> & Hst & Hstep & Hc)]]]; [by left|by left|].
    right. exists T'. eauto 10.
  - destruct (insert_stored T k v v0 Hwf Hs Hst)
      as [(_ & _ & ->)|(T' & -> & Hst' & Hstep & Hc)]; [by left|].
    right. exists T'. split; [done|]. split; [done|]. split; [done|]. split; [done|].
    destruct Hc as [?|(_ & ? & ?)]; [by left|by right].
Qed.

Lemma step_inv k v T T' : inv T -> safe T -> step k T T' -> stored T' k v -> inv T'.
Proof.
  intros [Hwf [[_ Hkeys]|[Hns _]]] Hs Hstep Hst; [|done].
  split; [by eapply tbl_step_wf|]. left. split; [by eapply tbl_step_safe|].
  intros k0. destruct (decide (k0 = k)) as [->|Hne]; [right; by exists v|].
  destruct (Hkeys k0) as [Habs|[v0 Hst0]].
  - left. by eapply absent_step.
  - right. exists v0. by eapply stored_step.
Qed.

Lemma insert_inv T k v : inv T -> inv (OT.insert T k v).2.
Proof.
  intros Hinv.
  destruct (insert_cases T k v Hinv) as [[-> _]|(T' & -> & Hs & Hst & Hstep & _)];
    [done|]. simpl. by eapply step_inv.
Qed.

Lemma exec_inv T o : inv T -> inv (OT.exec T o).
Proof. destruct o; simpl; [apply insert_inv|done|done]. Qed.

Lemma run_inv T ops : inv T -> inv (OT.run T ops).
Proof.
  revert T. induction ops as [|o ops IH]; intros T Hinv; [done|].
  simpl. apply IH. by apply exec_inv.
Qed.

Lemma init_inv initial_size alpha max_probes T :
  OT.init initial_size alpha max_probes = Ok T -> inv T.
Proof.
  intros Hinit.
  destruct (tbl_init_ok (Key:=Key) (Val:=Val) initial_size alpha max_probes)
    as (T' & Hinit' & Hwf & He & _).
  rewrite Hinit in Hinit'. injection Hinit' as <-.
  split; [done|]. destruct (safe_dec T) as [Hs|Hns]; [left|by right].
  split; [done|]. intros k. left. by apply empty_absent.
Qed.

(** A stored key stays stored, with its value, as long as no insert of
    that key returns [True]. *)
Lemma quiet_stored T k v ops :
  inv T -> safe T -> stored T k v -> quiet k T ops ->
  inv (OT.run T ops) /\ safe (OT.run T ops) /\ stored (OT.run T ops) k v.
Proof.
  revert T. induction ops as [|o ops IH]; intros T Hinv Hs Hst Hq; [done|].
  destruct Hq as [Ho Hq]. simpl. apply IH; try done.
  - by apply exec_inv.
  - destruct o as [k' v'| |]; simpl in *; [|done|done].
    destruct (insert_cases T k' v' Hinv) as [[-> _]|(T' & -> & _ & _ & Hstep & _)];
      [done|]. by eapply tbl_step_safe.
  - destruct o as [k' v'| |]; simpl in *; [|done|done].
    destruct (insert_cases T k' v' Hinv) as [[-> _]|(T' & Hins & _ & _ & Hstep & _)];
      [done|]. rewrite Hins in *. simpl in *.
    destruct (decide (k' = k)) as [Heq|Hne]; [by destruct (Ho Heq)|].
    by eapply stored_step.
Qed.

(** Sizes never change. *)
Lemma step_sizes k T T' :
  step k T T' -> OT._size T' = OT._size T /\ total_capacity T' = total_capacity T.
Proof.
  intros (Hsz & _ & Hsubs & Hlast). split; [done|]. unfold total_capacity.
  f_equal.
  - induction Hsubs as [|sa sa' subs subs' [Hs _] _ IH]; simpl; [done|]. by rewrite Hs, IH.
  - destruct Hlast as [la la' (Hs & _)|]; done.
Qed.

Lemma run_sizes T ops :
  inv T ->
  OT._size (OT.run T ops) = OT._size T /\
  total_capacity (OT.run T ops) = total_capacity T.
Proof.
  revert T. induction ops as [|o ops IH]; intros T Hinv; [done|].
  simpl. destruct (IH (OT.exec T o) (exec_inv _ _ Hinv)) as [-> ->].
  destruct o as [k v| |]; simpl; [|done|done].
  destruct (insert_cases T k v Hinv) as [[-> _]|(T' & -> & _ & _ & Hstep & _)];
    [done|]. simpl. by eapply step_sizes.
Qed.

(** The count is bounded by the high-water test. *)
Lemma run_count T ops :
  inv T -> 0 <= OT._count T ->
  10 * OT._count T < 9 * OT._size T + 10 ->
  0 <= OT._count (OT.run T ops) /\
  10 * OT._count (OT.run T ops) < 9 * OT._size T + 10.
Proof.
  revert T. induction ops as [|o ops IH]; intros T Hinv H0 Hc; [done|].
  simpl. destruct o as [k v| |]; simpl; [|by apply IH|by apply IH].
  pose proof (insert_inv T k v Hinv) as Hinv'.
  destruct (insert_cases T k v Hinv)
    as [[Heq _]|(T' & Heq & _ & _ & Hstep & Hcount)].
  - rewrite Heq in *. by apply IH.
  - rewrite Heq in *. simpl in *.
    destruct (step_sizes _ _ _ Hstep) as [Hsz _]. rewrite <- Hsz.
    unfold high_water in Hcount. apply IH; [done|lia|lia].
Qed.

End facts.
End TableInv.

(** * The claims of the specification *)

Module Claims.
Import TableSpec TableFacts TableInv.

Section claims.
Context {Key Val : Type} `{Hashable Key}.
Implicit Types (T : OT.t Key Val) (k : Key) (v : option Val).

(** C1. Round trip: on a table built by the constructor and taken through
    any operations, once [insert(k, v)] has returned [True], [search(k)]
    returns [v] after any further operations among which no [insert] of
    [k] returns [True]. (After such a later successful [insert(k, v2)]
    the same statement gives [v2].) *)
Theorem round_trip initial_size alpha max_probes T0 ops1 k v T1 ops2 :
  OT.init initial_size alpha max_probes = Ok T0 ->
  OT.insert (OT.run T0 ops1) k v = (Ok true, T1) ->
  quiet k T1 ops2 ->
  OT.search (OT.run T1 ops2) k = Ok v.
Proof.
  intros Hinit Hins Hq.
  pose proof (run_inv _ ops1 (init_inv _ _ _ _ Hinit)) as Hinv.
  pose proof (insert_inv _ k v Hinv) as Hinv1.
  destruct (insert_cases _ k v Hinv) as [[_ Hne]|(T' & Heq & Hs & Hst & Hstep & _)].
  { rewrite Hins in Hne. by destruct Hne. }
  rewrite Hins in *. injection Heq as <-. simpl in Hinv1.
  destruct (quiet_stored T1 k v ops2 Hinv1 (tbl_step_safe _ _ _ Hstep Hs) Hst Hq)
    as ([Hwf _] & Hs2 & Hst2).
  by apply search_stored.
Qed.

Lemma inject_div_le (c s : Z) : 1 <= s -> (inject_Z c / inject_Z s <= 1)%Q <-> c <= s.
Proof.
  intros Hs. destruct s as [|p|p]; [lia| |lia].
  unfold Qle, Qdiv, Qmult, Qinv, inject_Z. simpl. lia.
Qed.

Lemma inject_div_lt (c s : Z) : 1 <= s -> (inject_Z c / inject_Z s < 1)%Q <-> c < s.
Proof.
  intros Hs. destruct s as [|p|p]; [lia| |lia].
  unfold Qlt, Qdiv, Qmult, Qinv, inject_Z. simpl. lia.
Qed.

(** C5, as the code has it. On a table built with a capacity of at least
    1 and taken through any operations, the load factor is at most 1,
    and it is strictly below 1 when the capacity is at least 10. *)
Theorem load_factor_bound initial_size alpha max_probes T0 ops :
  OT.init initial_size alpha max_probes = Ok T0 ->
  1 <= initial_size ->
  exists q, OT.load_factor (OT.run T0 ops) = Ok q /\
    (q <= 1)%Q /\ (10 <= initial_size -> (q < 1)%Q).
Proof.
  intros Hinit Hs.
  destruct (tbl_init_ok (Key:=Key) (Val:=Val) initial_size alpha max_probes)
    as (T' & Hinit' & _ & (_ & _ & Hc0) & Hsz & _).
  rewrite Hinit in Hinit'. injection Hinit' as <-.
  pose proof (init_inv _ _ _ _ Hinit) as Hinv.
  destruct (run_sizes T0 ops Hinv) as [Hsz' _].
  destruct (run_count T0 ops Hinv) as [H0 Hc]; [lia|lia|].
  rewrite load_factor_ok by lia. eexists. split; [done|].
  rewrite Hsz', Hsz in *. split.
  - apply inject_div_le; lia.
  - intros H10. apply inject_div_lt; lia.
Qed.

(** C6. High-water refusal: on a table built by the constructor and taken
    through any operations, if the key is absent from every tier and the
    load factor is at least 0.9, [insert] returns [False] and the table is
    unchanged. *)
Theorem high_water_refusal initial_size alpha max_probes T0 ops k v q :
  OT.init initial_size alpha max_probes = Ok T0 ->
  absent (OT.run T0 ops) k ->
  OT.load_factor (OT.run T0 ops) = Ok q ->
  (9 # 10 <= q)%Q ->
  OT.insert (OT.run T0 ops) k v = (Ok false, OT.run T0 ops).
Proof.
  intros Hinit Habs Hload Hq.
  pose proof (run_inv _ ops (init_inv _ _ _ _ Hinit)) as Hinv.
  set (T := OT.run T0 ops) in *.
  destruct Hinv as [Hwf [[Hs _]|[_ (_ & _ & Hc0)]]].
  - destruct (insert_absent T k v Hwf Hs Habs) as [[_ ->]|[Hhw _]]; [done|].
    destruct Hhw. destruct Hwf as [_ Hwfl]. destruct Hs as (_ & la & Hla & _).
    rewrite Hla in Hwfl. destruct Hwfl as [_ Hsz].
    rewrite load_factor_ok in Hload by lia. injection Hload as <-.
    apply (high_water_test _ _ Hsz). by apply Qle_bool_iff.
  - exfalso. unfold OT.load_factor in Hload.
    destruct (decide (OT._size T = 0)); [done|]. injection Hload as <-.
    rewrite Hc0 in Hq. revert Hq. unfold Qle, Qdiv, Qmult, inject_Z. simpl. lia.
Qed.

(** C8. Capacity conservation: for a table built with a capacity that is
    not negative, the capacities of the uniform tiers and of the terminal
    tier, when there is one, add up to the configured capacity, after
    any operations. *)
Theorem capacity_conservation initial_size alpha max_probes T0 ops :
  0 <= initial_size ->
  OT.init initial_size alpha max_probes = Ok T0 ->
  total_capacity (OT.run T0 ops) = initial_size /\
  OT._size (OT.run T0 ops) = initial_size.
Proof.
  intros Hs Hinit.
  destruct (tbl_init_ok (Key:=Key) (Val:=Val) initial_size alpha max_probes)
    as (T' & Hinit' & _ & _ & Hsz & _ & Hcap).
  rewrite Hinit in Hinit'. injection Hinit' as <-.
  destruct (run_sizes T0 ops (init_inv _ _ _ _ Hinit)) as [-> ->]. lia.
Qed.

End claims.

Lemma round_trip_witness :
  OT.search
    (OT.run (OT.insert (OT.run table64 [OT.Insert 5 (Some 6)]) 3 (Some 4)).2
       [OT.Insert 5 (Some 7); OT.Search 3; OT.LoadFactor]) 3
  = Ok (Some 4).
Proof.
  apply (round_trip 64 1 3 table64 [OT.Insert 5 (Some 6)] 3 (Some 4) _
           [OT.Insert 5 (Some 7); OT.Search 3; OT.LoadFactor]).
  - reflexivity.
  - vm_compute. reflexivity.
  - split; [intros Heq; discriminate Heq|]. split; [exact I|]. split; exact I.
Defined.

Section tier_claims.
Context {Key Val : Type} `{Hashable Key}.
Implicit Types (T : OT.t Key Val) (k : Key) (v : option Val).

(** C9. Probe sequence: in a uniform tier of capacity at least 2 the
    probed slot is [(h1 + i*h2) mod capacity] with
    [h1 = hash1(k) mod capacity] and
    [h2 = 1 + (hash2raw(k) mod (capacity-1))]; it lies inside the tier
    and depends on the key, the attempt and the capacity only, so
    [insert] and [search], which both call [_hash], probe the same
    slots. *)
Theorem probe_sequence (self self' : SubArray.t Key Val) k (i : Z) :
  2 <= SubArray._size self ->
  SubArray._size self' = SubArray._size self ->
  let capacity := SubArray._size self in
  let h1 := hash k `mod` capacity in
  let h2 := 1 + hash_str k `mod` (capacity - 1) in
  SubArray._hash self k i = Ok ((h1 + i * h2) `mod` capacity) /\
  0 <= (h1 + i * h2) `mod` capacity < capacity /\
  SubArray._hash self' k i = SubArray._hash self k i.
Proof.
  intros Hs Heq capacity h1 h2. split; [|split].
  - by apply SF.hash_ok.
  - apply Z.mod_pos_bound. lia.
  - unfold SubArray._hash. by rewrite Heq.
Qed.

(** C10. Distinct candidates: when part C has at least two buckets,
    [_hash_c] returns two bucket indices that differ. *)
Theorem distinct_candidates (self : LastSubArray.t Key Val) k :
  2 <= Z.of_nat (length (LastSubArray._c self)) ->
  exists b1 b2, LastSubArray._hash_c self k = Ok (b1, b2) /\ b1 <> b2 /\
    0 <= b1 < Z.of_nat (length (LastSubArray._c self)) /\
    0 <= b2 < Z.of_nat (length (LastSubArray._c self)).
Proof.
  intros Hc. exists (LS.cand1 self k), (LS.cand2 self k).
  split; [by apply LF.hash_c_ok|]. split; [by apply LF.cand_distinct|].
  by apply LF.cand_range.
Qed.

Lemma insert_update_b_ok (la : LastSubArray.t Key Val) k v l :
  LS.wf la -> 2 <= LastSubArray._b_size la ->
  exists r, LastSubArray.insert_update_b la k v l = Ok r.
Proof.
  intros Hwf Hb. induction l as [|i l IH]; [by eexists|].
  rewrite LF.insert_update_b_cons by done.
  destruct (nth_slot _ _) as [[k' v']|]; [|done].
  destruct (decide (k' = k)); [by eexists|done].
Qed.

Lemma insert_update_c_ok (la : LastSubArray.t Key Val) k v :
  2 <= Z.of_nat (length (LastSubArray._c la)) ->
  exists r, LastSubArray.insert_update_c la k v (LS.cand1 la k) (LS.cand2 la k) = Ok r.
Proof.
  intros Hc. pose proof (LF.cand_range la k Hc) as [Hc1 Hc2].
  unfold LastSubArray.insert_update_c.
  rewrite !norm_index_ok, !LF.getitem_bucket by done. simpl.
  destruct (LastSubArray.bucket_index k _ 0); [by eexists|].
  destruct (LastSubArray.bucket_index k _ 0); by eexists.
Qed.

(** With a part B of fewer than two slots [insert] raises at its first
    probe, and with fewer than two buckets [_hash_c] raises. *)
Lemma insert_b_unsafe (la : LastSubArray.t Key Val) k v :
  LS.wf la -> ~ 2 <= LastSubArray._b_size la ->
  LastSubArray.insert la k v = Raise ZeroDivisionError.
Proof.
  intros Hwf Hb. pose proof (LF.attempts_pos la Hwf) as Hatt.
  pose proof Hwf as (_ & Hb0 & _).
  unfold LastSubArray.insert. rewrite LF.loglog_ok by done. simpl.
  rewrite range_cons by lia. simpl. unfold LastSubArray._hash_b.
  destruct (decide (LastSubArray._b_size la = 0)) as [->|Hne0]; [done|].
  destruct (decide (LastSubArray._b_size la = 1)) as [->|Hne1]; [done|]. lia.
Qed.

Lemma hash_c_unsafe (la : LastSubArray.t Key Val) k :
  ~ 2 <= Z.of_nat (length (LastSubArray._c la)) ->
  LastSubArray._hash_c la k = Raise ZeroDivisionError.
Proof.
  unfold LastSubArray._hash_c.
  destruct (length (LastSubArray._c la)) as [|[|n]]; [done|done|lia].
Qed.

(** C7. Two-choice placement, for an insert into a terminal tier of the
    shape the constructor gives. When the insert places a new entry in
    part C (the count grows and part B is as before), the entry goes to
    the first empty slot of the chosen bucket, which had at least as
    many empty slots as the other candidate, and is the first candidate
    [b1] on a tie; and when the insert returns [False], the tier is
    unchanged and both candidate buckets are full. *)
Theorem two_choice_rule (self self' : LastSubArray.t Key Val) k v (b : bool) :
  LS.wf self ->
  LastSubArray.insert self k v = Ok (b, self') ->
  let b1 := LS.cand1 self k in
  let b2 := LS.cand2 self k in
  let bucket1 := LS.nth_bucket (LastSubArray._c self) b1 in
  let bucket2 := LS.nth_bucket (LastSubArray._c self) b2 in
  let target := LastSubArray.choose_bucket b1 b2 bucket1 bucket2 in
  let target_bucket := LS.nth_bucket (LastSubArray._c self) target in
  (b = false ->
   LastSubArray._hash_c self k = Ok (b1, b2) /\
   self' = self /\ count_empty bucket1 = 0 /\ count_empty bucket2 = 0) /\
  (b = true ->
   LastSubArray._count self' = LastSubArray._count self + 1 ->
   LastSubArray._b self' = LastSubArray._b self ->
   LastSubArray._hash_c self k = Ok (b1, b2) /\
   (target = b1 /\ count_empty bucket1 >= count_empty bucket2 \/
    target = b2 /\ count_empty bucket2 > count_empty bucket1) /\
   exists i, 0 <= i < LastSubArray._bucket_size self /\
     nth_slot target_bucket i = None /\
     (forall j, 0 <= j < i -> nth_slot target_bucket j <> None) /\
     LastSubArray._c self' =
       <[Z.to_nat target := <[Z.to_nat i := Some (k, v)]> target_bucket]>
         (LastSubArray._c self)).
Proof.
  intros Hwf Hins. cbv zeta. fold (LS.chosen self k).
  assert (Hb : 2 <= LastSubArray._b_size self).
  { destruct (decide (2 <= LastSubArray._b_size self)) as [|Hnb]; [done|].
    by rewrite insert_b_unsafe in Hins. }
  pose proof (count_empty_nonneg (LS.nth_bucket (LastSubArray._c self) (LS.cand1 self k))).
  pose proof (count_empty_nonneg (LS.nth_bucket (LastSubArray._c self) (LS.cand2 self k))).
  assert (Hchoice :
    LS.chosen self k = LS.cand1 self k /\
    count_empty (LS.nth_bucket (LastSubArray._c self) (LS.cand1 self k)) >=
    count_empty (LS.nth_bucket (LastSubArray._c self) (LS.cand2 self k)) \/
    LS.chosen self k = LS.cand2 self k /\
    count_empty (LS.nth_bucket (LastSubArray._c self) (LS.cand2 self k)) >
    count_empty (LS.nth_bucket (LastSubArray._c self) (LS.cand1 self k))).
  { destruct (LF.chosen_cases self k) as [[? ?]|[? ?]]; [left|right]; split; try done.
    lia. }
  revert Hins. unfold LastSubArray.insert. rewrite LF.loglog_ok by done. simpl.
  destruct (insert_update_b_ok self k v (range (LS.attempts self)) Hwf Hb) as [ub ->].
  simpl. destruct ub as [b'|].
  { intros [= <- <-]. split; [done|]. simpl. lia. }
  destruct (decide (2 <= Z.of_nat (length (LastSubArray._c self)))) as [Hc|Hnc].
  2:{ by rewrite hash_c_unsafe. }
  assert (Hs : LS.safe self) by done.
  pose proof (LF.hash_c_ok self k Hc) as Hhash.
  rewrite Hhash. simpl.
  destruct (insert_update_c_ok self k v Hc) as [uc ->]. simpl.
  destruct uc as [c'|].
  { intros [= <- <-]. split; [done|]. simpl. lia. }
  destruct (LF.insert_place_b_spec self k v (range (LS.attempts self)) Hwf Hb)
    as [[-> _]|(pre & i & post & _ & _ & Hi & ->)]; simpl.
  2:{ intros [= <- <-]. split; [done|]. simpl. intros _ _ Hbb. exfalso.
      pose proof (LF.posb_range self k i Hwf Hb) as Hr.
      assert (Hnew : nth_slot (LastSubArray._b self)
                       (probe (LastSubArray._b_size self) k i) = Some (k, v)).
      { rewrite <- Hbb at 1. rewrite nth_slot_insert by lia. by case_decide. }
      congruence. }
  destruct (LF.insert_place_c_spec self k v Hwf Hs)
    as [[-> Hfull]|(i & Hi & Hempty & Hfirst & ->)]; simpl.
  - intros [= <- <-]. split; [|done]. intros _. split; [done|]. split; [done|].
    apply count_empty_zero in Hfull.
    destruct Hchoice as [[Ht ?]|[Ht ?]]; rewrite Ht in Hfull; lia.
  - intros [= <- <-]. split; [done|]. intros _ _ _. split; [done|]. split; [done|].
    by exists i.
Qed.

(** C3, as the code has it. The constructor validates nothing: for every
    integer capacity and every pair of tier count and probe bound
    computed from [delta] it returns a table object of that capacity
    with count 0; a capacity below 1 gives a table with no tier at all. *)
Theorem constructor_accepts (initial_size alpha max_probes : Z) :
  exists T : OT.t Key Val,
    OT.init initial_size alpha max_probes = Ok T /\
    OT._size T = initial_size /\ OT._count T = 0 /\
    (initial_size <= 0 -> OT._subarrays T = [] /\ OT._last_array T = None).
Proof.
  destruct (tbl_init_ok (Key:=Key) (Val:=Val) initial_size alpha max_probes)
    as (T & Hinit & [Hwfs Hwfl] & (_ & _ & Hc0) & Hsz & _).
  exists T. split; [done|]. split; [done|]. split; [done|].
  intros Hle. destruct (OT._last_array T) as [la|]; [lia|done].
Qed.

(** An empty table whose uniform tiers are sound and whose terminal tier
    has a zero modulus: every [insert] and every [search] raises. *)
Lemma unsafe_last_raises T k v la :
  wf T -> empty T -> Forall SS.safe (OT._subarrays T) ->
  OT._last_array T = Some la -> ~ LS.safe la ->
  OT.insert T k v = (Raise ZeroDivisionError, T) /\
  OT.search T k = Raise ZeroDivisionError.
Proof.
  intros [Hwfs Hwfl] He Hss Hla Hns.
  pose proof (empty_absent T k He) as [Hfree _].
  destruct He as (_ & Hel & _). rewrite Hla in Hwfl, Hel. destruct Hwfl as [Hwl _].
  unfold OT.insert, OT.search.
  rewrite update_subarrays_free, search_subarrays_free by done.
  rewrite Hla. simpl. by rewrite LF.la_search_unsafe.
Qed.

(** C4, at the constructor's default arguments. On
    [OpenAddressHashTable(16, 0.1)] every [insert] and every [search]
    raises [ZeroDivisionError]: the terminal tier has one bucket, and
    [_hash_c] takes a remainder modulo [num_buckets - 1]. *)
Theorem default_table_raises k v :
  exists T : OT.t Key Val,
    OT.init 16 1 3 = Ok T /\
    OT.insert T k v = (Raise ZeroDivisionError, T) /\
    OT.search T k = Raise ZeroDivisionError.
Proof.
  destruct (tbl_init_ok (Key:=Key) (Val:=Val) 16 1 3) as (T & Hinit & Hwf & He & _).
  exists T. split; [done|].
  vm_compute in Hinit. injection Hinit as <-.
  eapply unsafe_last_raises; [done|done| |reflexivity|].
  - repeat constructor. unfold SS.safe. simpl. lia.
  - intros [_ Hc]. simpl in Hc. lia.
Qed.

(** Inserting again the value that a key has, when that value is not
    [None]: the key keeps its value and the count stays. *)
Lemma insert_again T k (x : Val) T1 :
  inv T -> OT.insert T k (Some x) = (Ok true, T1) ->
  exists T2, OT.insert T1 k (Some x) = (Ok true, T2) /\
    OT.search T2 k = Ok (Some x) /\
    OT._count T2 = OT._count T1 /\ OT._size T2 = OT._size T1.
Proof.
  intros Hinv Hins.
  pose proof (insert_inv T k (Some x) Hinv) as Hinv1.
  destruct (insert_cases T k (Some x) Hinv)
    as [[_ Hne]|(T' & Heq & Hs & Hst & Hstep & _)].
  { rewrite Hins in Hne. by destruct Hne. }
  rewrite Hins in *. injection Heq as <-. simpl in Hinv1.
  pose proof (tbl_step_safe _ _ _ Hstep Hs) as Hs1. destruct Hinv1 as [Hwf1 _].
  destruct (insert_stored T1 k (Some x) (Some x) Hwf1 Hs1 Hst)
    as [(? & _)|(T2 & Hins2 & Hst2 & Hstep2 & Hc)]; [done|].
  exists T2. split; [done|]. split; [|split].
  - apply search_stored; [by eapply tbl_step_wf|by eapply tbl_step_safe|done].
  - by destruct Hc as [?|(? & _)].
  - apply Hstep2.
Qed.

End tier_claims.

(** *** Concrete runs *)

(** C3 as stated fails: capacity 1 with [delta = 0.1], [delta = 2.0]
    with capacity 16, and capacity 0, which leaves no tier at all, are
    all accepted. *)
Lemma constructor_rejects_nothing :
  (exists T : OT.t Z Z, OT.init 1 1 3 = Ok T) /\
  (exists T : OT.t Z Z, OT.init 16 0 (-1) = Ok T) /\
  (exists T : OT.t Z Z, OT.init 0 1 3 = Ok T /\
     OT._subarrays T = [] /\ OT._last_array T = None).
Proof. split; [|split]; eexists; vm_compute; eauto. Qed.

(** C5 as stated fails: five inserts fill [OpenAddressHashTable(5, 0.5)]
    and its load factor is 1. *)
Lemma load_factor_reaches_one :
  OT.init 5 0 1 = Ok table5 /\
  OT.load_factor
    (OT.run table5 [OT.Insert 1 (Some 1); OT.Insert 2 (Some 2); OT.Insert 3 (Some 3);
                    OT.Insert 4 (Some 4); OT.Insert 5 (Some 5)]) = Ok (5 # 5)%Q /\
  ~ (5 # 5 < 1)%Q.
Proof. split; [reflexivity|]. split; [reflexivity|]. by vm_compute. Qed.

(** C2 on [OpenAddressHashTable(64, 0.1)]: [insert(7, None)] twice. Both
    calls return [True] and [search(7)] is [None], but the load factor
    goes from 1/64 to 2/64 while one slot is occupied. *)
Lemma none_insert_counts_twice :
  let T1 := (OT.insert table64 7 None).2 in
  let T2 := (OT.insert T1 7 None).2 in
  OT.init 64 1 3 = Ok table64 /\
  (OT.insert table64 7 None).1 = Ok true /\
  (OT.insert T1 7 None).1 = Ok true /\
  OT.search T2 7 = Ok None /\
  OT.load_factor T1 = Ok (1 # 64)%Q /\
  OT.load_factor T2 = Ok (2 # 64)%Q /\
  OT._subarrays T2 = OT._subarrays T1 /\
  OT._last_array T2 = OT._last_array T1.
Proof. vm_compute. repeat split. Qed.

Lemma probe_sequence_witness :
  SubArray._hash (SubArray.init (Val:=Z) 8) 3 2 = Ok 5 /\
  0 <= 5 < 8 /\
  SubArray._hash (SubArray.mk (Val:=Z) 8 [Some (3, None)] 7) 3 2 =
  SubArray._hash (SubArray.init (Val:=Z) 8) 3 2.
Proof.
  assert (Hcap : 2 <= SubArray._size (SubArray.init (Key:=Z) (Val:=Z) 8)) by (simpl; lia).
  exact (probe_sequence (SubArray.init 8) (SubArray.mk 8 [Some (3, None)] 7) 3 2
           Hcap eq_refl).
Defined.

Lemma distinct_candidates_witness :
  exists b1 b2, LastSubArray._hash_c last32 7 = Ok (b1, b2) /\ b1 <> b2 /\
    0 <= b1 < Z.of_nat (length (LastSubArray._c last32)) /\
    0 <= b2 < Z.of_nat (length (LastSubArray._c last32)).
Proof. apply (distinct_candidates last32 7). simpl. lia. Defined.

Lemma load_factor_bound_witness :
  exists q, OT.load_factor (OT.run table64 [OT.Insert 3 (Some 4)]) = Ok q /\
    (q <= 1)%Q /\ (10 <= 64 -> (q < 1)%Q).
Proof. apply (load_factor_bound 64 1 3 table64); [reflexivity|lia]. Defined.

Lemma high_water_refusal_witness :
  OT.insert (OT.run table5 five_inserts) 6 (Some 6) = (Ok false, OT.run table5 five_inserts).
Proof.
  apply (high_water_refusal 5 0 1 table5 five_inserts 6 (Some 6) (5 # 5)).
  - reflexivity.
  - vm_compute. split; [constructor|]. split; no_slot_holds.
  - reflexivity.
  - unfold Qle. simpl. lia.
Defined.

Lemma capacity_conservation_witness :
  total_capacity (OT.run table64 [OT.Insert 3 (Some 4)]) = 64 /\
  OT._size (OT.run table64 [OT.Insert 3 (Some 4)]) = 64.
Proof. apply (capacity_conservation 64 1 3 table64); [lia|reflexivity]. Defined.

Lemma two_choice_rule_witness :
  let self := last_after last32 [0; 1] in
  let self' := last_after last32 [0; 1; 16] in
  let bucket := [None; None; None; None] in
  (true = false ->
   LastSubArray._hash_c self 16 = Ok (0, 1) /\
   self' = self /\ count_empty bucket = 0 /\ count_empty bucket = 0) /\
  (true = true ->
   LastSubArray._count self' = LastSubArray._count self + 1 ->
   LastSubArray._b self' = LastSubArray._b self ->
   LastSubArray._hash_c self 16 = Ok (0, 1) /\
   (0 = 0 /\ count_empty bucket >= count_empty bucket \/
    0 = 1 /\ count_empty bucket > count_empty bucket) /\
   exists i, 0 <= i < 4 /\
     nth_slot bucket i = None /\
     (forall j, 0 <= j < i -> nth_slot bucket j <> None) /\
     LastSubArray._c self' =
       <[Z.to_nat 0 := <[Z.to_nat i := Some (16, Some 16)]> bucket]>
         (LastSubArray._c self)).
Proof.
  assert (Hwf : LS.wf (last_after last32 [0; 1])).
  { vm_compute. repeat split; try discriminate; repeat constructor. }
  assert (Hins : LastSubArray.insert (last_after last32 [0; 1]) 16 (Some 16)
                 = Ok (true, last_after last32 [0; 1; 16])).
  { vm_compute. reflexivity. }
  exact (two_choice_rule _ _ 16 (Some 16) true Hwf Hins).
Defined.

Section further_claims.
Context {Key Val : Type} `{Hashable Key}.
Implicit Types (T : OT.t Key Val) (k : Key) (v : option Val).

(** X1. Idempotence for a value that is not [None]: on a table built by
    the constructor and taken through any operations, when
    [insert(k, x)] has returned [True], the same call again returns
    [True], [search(k)] is [x], and the load factor is the same as
    before the repeated call. *)
Theorem idempotent_insert initial_size alpha max_probes T0 ops k (x : Val) T1 :
  OT.init initial_size alpha max_probes = Ok T0 ->
  OT.insert (OT.run T0 ops) k (Some x) = (Ok true, T1) ->
  exists T2, OT.insert T1 k (Some x) = (Ok true, T2) /\
    OT.search T2 k = Ok (Some x) /\
    OT.load_factor T2 = OT.load_factor T1.
Proof.
  intros Hinit Hins.
  pose proof (run_inv _ ops (init_inv _ _ _ _ Hinit)) as Hinv.
  destruct (insert_again _ k x T1 Hinv Hins) as (T2 & Hins2 & Hsearch & Hc & Hsz).
  exists T2. split; [done|]. split; [done|].
  unfold OT.load_factor. by rewrite Hc, Hsz.
Qed.

(** X2. An [insert] that does not return [True] (it returns [False] or
    raises) leaves the table as it was: every slot, every count. *)
Theorem failed_insert_unchanged initial_size alpha max_probes T0 ops k v :
  OT.init initial_size alpha max_probes = Ok T0 ->
  (OT.insert (OT.run T0 ops) k v).1 <> Ok true ->
  (OT.insert (OT.run T0 ops) k v).2 = OT.run T0 ops.
Proof.
  intros Hinit Hne.
  pose proof (run_inv _ ops (init_inv _ _ _ _ Hinit)) as Hinv.
  destruct (insert_cases _ k v Hinv) as [[Heq _]|(T' & Heq & _)]; [done|].
  rewrite Heq in Hne. by destruct Hne.
Qed.

Lemma never_inserted_absent T k ops :
  inv T -> safe T -> absent T k ->
  Forall (fun o => forall v, o <> OT.Insert k v) ops ->
  safe (OT.run T ops) /\ wf (OT.run T ops) /\ absent (OT.run T ops) k.
Proof.
  revert T. induction ops as [|o ops IH]; intros T Hinv Hs Habs Hops.
  { split; [done|]. split; [apply Hinv|done]. }
  apply Forall_cons in Hops as [Ho Hops]. simpl.
  destruct o as [k' v'| |]; simpl; [|by apply IH|by apply IH].
  pose proof (insert_inv T k' v' Hinv) as Hinv'.
  destruct (insert_cases T k' v' Hinv) as [[Heq _]|(T' & Heq & _ & _ & Hstep & _)];
    rewrite Heq in *; [by apply IH|]. simpl in *.
  assert (Hne : k <> k') by (intros ->; by destruct (Ho v')).
  apply IH; [done|by eapply tbl_step_safe|by eapply absent_step|done].
Qed.

(** X3. A key that was never inserted is absent: on a table built by the
    constructor, none of whose tiers has a zero modulus, after any
    operations that do not insert [k], [search(k)] returns [None]. *)
Theorem search_never_inserted initial_size alpha max_probes T0 ops k :
  OT.init initial_size alpha max_probes = Ok T0 ->
  safe T0 ->
  Forall (fun o => forall v, o <> OT.Insert k v) ops ->
  OT.search (OT.run T0 ops) k = Ok None.
Proof.
  intros Hinit Hs Hops.
  destruct (tbl_init_ok (Key:=Key) (Val:=Val) initial_size alpha max_probes)
    as (T' & Hinit' & _ & He & _).
  rewrite Hinit in Hinit'. injection Hinit' as <-.
  destruct (never_inserted_absent T0 k ops (init_inv _ _ _ _ Hinit) Hs
              (empty_absent _ _ He) Hops) as (Hs' & Hwf' & Habs').
  by apply search_absent.
Qed.

End further_claims.

Lemma idempotent_insert_witness :
  exists T2, OT.insert (OT.insert table64 3 (Some 4)).2 3 (Some 4) = (Ok true, T2) /\
    OT.search T2 3 = Ok (Some 4) /\
    OT.load_factor T2 = OT.load_factor (OT.insert table64 3 (Some 4)).2.
Proof.
  apply (idempotent_insert 64 1 3 table64 [] 3 4); [reflexivity|].
  vm_compute. reflexivity.
Defined.

Lemma failed_insert_unchanged_witness :
  (OT.insert (OT.run table5 five_inserts) 6 (Some 6)).2 = OT.run table5 five_inserts.
Proof.
  apply (failed_insert_unchanged 5 0 1 table5 five_inserts 6 (Some 6)); [reflexivity|].
  vm_compute. discriminate.
Defined.

Lemma search_never_inserted_witness :
  OT.search (OT.run table64 [OT.Insert 3 (Some 4); OT.Search 7; OT.LoadFactor]) 7 = Ok None.
Proof.
  apply (search_never_inserted 64 1 3 table64 _ 7); [reflexivity| |].
  - split; [repeat constructor; vm_compute; discriminate|].
    eexists. split; [reflexivity|]. vm_compute. split; discriminate.
  - repeat constructor; intros v; discriminate.
Defined.

End Claims.

(** * Further properties of the code *)

(** ** Counting slots, and one write *)

Section counting_facts.
Context {Key Val : Type} `{Hashable Key}.
Implicit Types (tbl : list (slot Key Val)) (k : Key) (s : slot Key Val).

Lemma count_occupied_range tbl : 0 <= count_occupied tbl <= Z.of_nat (length tbl).
Proof. induction tbl as [|[x|] tbl IH]; simpl; lia. Qed.

Lemma count_occupied_empty tbl : all_empty tbl -> count_occupied tbl = 0.
Proof. induction 1 as [|s tbl -> _ IH]; simpl; [done|done]. Qed.

Lemma count_key_empty k tbl : all_empty tbl -> count_key k tbl = 0.
Proof. induction 1 as [|s tbl -> _ IH]; simpl; [done|done]. Qed.

Lemma count_key_nonneg k tbl : 0 <= count_key k tbl.
Proof.
  induction tbl as [|[[k' v]|] tbl IH]; simpl; [done| |done].
  destruct (decide (k' = k)); lia.
Qed.

Lemma count_key_free k tbl : free_in tbl k -> count_key k tbl = 0.
Proof.
  unfold free_in. induction 1 as [|[[k' v]|] tbl Hs _ IH]; simpl; [done| |done].
  destruct (decide (k' = k)) as [->|]; [|lia]. destruct Hs. by exists v.
Qed.

Lemma count_key_zero_free k tbl : count_key k tbl = 0 -> free_in tbl k.
Proof.
  unfold free_in. induction tbl as [|[[k' v]|] tbl IH]; simpl; intros Hc; [done| |].
  - pose proof (count_key_nonneg k tbl).
    destruct (decide (k' = k)) as [->|Hne]; [lia|].
    constructor; [|apply IH; lia]. intros [v' [= ? _]]. done.
  - constructor; [|by apply IH]. by intros [v' ?].
Qed.

Lemma count_occupied_app tbl1 tbl2 :
  count_occupied (tbl1 ++ tbl2) = count_occupied tbl1 + count_occupied tbl2.
Proof. induction tbl1 as [|[x|] tbl1 IH]; simpl; lia. Qed.

Lemma count_key_app k tbl1 tbl2 :
  count_key k (tbl1 ++ tbl2) = count_key k tbl1 + count_key k tbl2.
Proof.
  induction tbl1 as [|[[k' v]|] tbl1 IH]; simpl; [done| |done].
  destruct (decide (k' = k)); lia.
Qed.

Lemma count_key_le_occupied k tbl : count_key k tbl <= count_occupied tbl.
Proof.
  induction tbl as [|[[k' v]|] tbl IH]; simpl; [done| |done].
  destruct (decide (k' = k)); lia.
Qed.

(** A slot that holds [k] is counted. *)
Lemma count_key_holds k tbl p :
  holds k (nth_slot tbl p) -> 1 <= count_key k tbl.
Proof.
  unfold nth_slot. generalize (Z.to_nat p). clear p.
  induction tbl as [|s tbl IH]; intros [|n] [v Hv]; simpl in *; try done.
  - rewrite Hv. destruct (decide (k = k)); [|done]. pose proof (count_key_nonneg k tbl). lia.
  - assert (1 <= count_key k tbl) by (apply (IH n); by exists v).
    destruct s as [[k' v']|]; [destruct (decide (k' = k))|]; lia.
Qed.

(** One step of an insert of [k]: the slots that hold [k] grow in
    number exactly as the occupied slots do. *)
Lemma step_counts k tbl tbl' :
  Forall2 (slot_step k) tbl tbl' ->
  count_key k tbl' - count_key k tbl = count_occupied tbl' - count_occupied tbl.
Proof.
  induction 1 as [|s s' tbl tbl' Hs _ IH]; simpl; [done|].
  destruct Hs as [->|[[v ->] [->|[v' ->]]]].
  - destruct s as [[k' v']|]; lia.
  - destruct (decide (k = k)); [lia|done].
  - destruct (decide (k = k)); [lia|done].
Qed.

(** It leaves the number of slots of any other key as it was. *)
Lemma step_count_other k k0 tbl tbl' :
  k0 <> k -> Forall2 (slot_step k) tbl tbl' -> count_key k0 tbl' = count_key k0 tbl.
Proof.
  intros Hne. induction 1 as [|s s' tbl tbl' Hs _ IH]; simpl; [done|].
  destruct Hs as [->|[[v ->] [->|[v' ->]]]].
  - by rewrite IH.
  - destruct (decide (k = k0)); [by subst|lia].
  - destruct (decide (k = k0)); [by subst|lia].
Qed.

(** *** One write *)

Lemma written_length k v tbl tbl' d : written k v tbl tbl' d -> length tbl' = length tbl.
Proof. intros (p & old & _ & -> & _). by rewrite length_insert. Qed.

Lemma written_grown k v tbl tbl' d : written k v tbl tbl' d -> d = 0 \/ d = 1.
Proof. intros (p & old & _ & _ & [[_ ->]|[_ ->]]); [by right|by left]. Qed.

Lemma written_step_slots k v tbl tbl' d :
  written k v tbl tbl' d -> Forall2 (slot_step k) tbl tbl'.
Proof.
  intros (p & old & Hp & -> & Hold).
  apply (bucket_step_insert k v tbl p old); [done|].
  destruct Hold as [[-> _]|[? _]]; [by left|by right].
Qed.

Lemma written_occupied k v tbl tbl' d :
  written k v tbl tbl' d -> count_occupied tbl' = count_occupied tbl + d.
Proof.
  intros (p & old & Hp & -> & Hold). revert p Hp.
  induction tbl as [|s0 tbl IH]; intros [|p] Hp; simpl in *; [done|done| |].
  - injection Hp as ->. destruct Hold as [[-> ->]|[[v0 ->] ->]]; lia.
  - rewrite (IH p Hp). destruct s0; lia.
Qed.

Lemma written_key k v tbl tbl' d :
  written k v tbl tbl' d -> count_key k tbl' = count_key k tbl + d.
Proof.
  intros Hw. pose proof (step_counts k tbl tbl' (written_step_slots _ _ _ _ _ Hw)).
  pose proof (written_occupied _ _ _ _ _ Hw). lia.
Qed.

Lemma written_app_l k v tbl tbl' d rest :
  written k v tbl tbl' d -> written k v (tbl ++ rest) (tbl' ++ rest) d.
Proof.
  intros (p & old & Hp & -> & Hold). exists p, old.
  pose proof (lookup_lt_Some _ _ _ Hp) as Hlt.
  split; [by rewrite lookup_app_l|]. split; [|done].
  by rewrite insert_app_l.
Qed.

Lemma written_app_r k v tbl tbl' d pre :
  written k v tbl tbl' d -> written k v (pre ++ tbl) (pre ++ tbl') d.
Proof.
  intros (p & old & Hp & -> & Hold). exists (length pre + p)%nat, old.
  split; [by rewrite lookup_app_r, Nat.add_comm, Nat.add_sub by lia|].
  split; [|done]. by rewrite insert_app_r.
Qed.

(** A write into one bucket is a write into the buckets laid end to end. *)
Lemma written_concat k v (c : list (list (slot Key Val))) (j : nat) bucket bucket' d :
  c !! j = Some bucket -> written k v bucket bucket' d ->
  written k v (concat c) (concat (<[j := bucket']> c)) d.
Proof.
  revert j. induction c as [|b0 c IH]; intros [|j] Hj Hw; simpl in *; [done|done| |].
  - injection Hj as ->. by apply written_app_l.
  - apply written_app_r. by apply IH.
Qed.

(** What a write changes, slot by slot. *)
Lemma written_frame k v tbl tbl' d (p : nat) k0 v0 :
  written k v tbl tbl' d -> k0 <> k ->
  tbl !! p = Some (Some (k0, v0)) -> tbl' !! p = Some (Some (k0, v0)).
Proof.
  intros (q & old & Hq & -> & Hold) Hne Hp.
  destruct (decide (q = p)) as [->|Hqp]; [|by rewrite list_lookup_insert_ne].
  rewrite Hq in Hp. injection Hp as ->.
  destruct Hold as [[? _]|[[v' ?] _]]; congruence.
Qed.

End counting_facts.

Module SubArrayMore.
Import SubArraySpec SubArrayFacts.
Section facts.
Context {Key Val : Type} `{Hashable Key}.
Implicit Types (sa : SubArray.t Key Val) (k : Key) (v : option Val).

#[local] Abbreviation pos sa k i := (probe (SubArray._size sa) k i).
#[local] Abbreviation slot_of sa k i := (nth_slot (SubArray._table sa) (pos sa k i)).

(** How the first loop of [insert] ends, in any state of the tier. *)
Lemma insert_update_cases sa k v l :
  wf sa -> safe sa ->
  (exists pre i post v0, l = pre ++ i :: post /\
     Forall (fun j => other k (slot_of sa k j)) pre /\
     slot_of sa k i = Some (k, v0) /\
     SubArray.insert_update sa k v l =
     Ok (Some (<[Z.to_nat (pos sa k i) := Some (k, v)]> (SubArray._table sa)))) \/
  (exists pre i post, l = pre ++ i :: post /\
     Forall (fun j => other k (slot_of sa k j)) pre /\
     slot_of sa k i = None /\
     SubArray.insert_update sa k v l = Ok None) \/
  (Forall (fun j => other k (slot_of sa k j)) l /\
   SubArray.insert_update sa k v l = Ok None).
Proof.
  intros Hwf Hs. induction l as [|j l IH]; [right; right; by split|].
  rewrite insert_update_cons by done.
  destruct (slot_cases k (slot_of sa k j)) as [Hn|[[v0 Hh]|Ho]].
  - right. left. exists [], j, l. by rewrite Hn.
  - left. exists [], j, l, v0. rewrite Hh. by destruct (decide (k = k)).
  - pose proof Ho as (k' & v' & Hj & Hne). rewrite Hj.
    destruct (decide (k' = k)); [done|].
    destruct IH as [(pre & i & post & v0 & -> & Hpre & Hi & Hres)|
                    [(pre & i & post & -> & Hpre & Hi & Hres)|[Hall Hres]]].
    + left. exists (j :: pre), i, post, v0. split; [done|]. split; [by constructor|done].
    + right. left. exists (j :: pre), i, post. split; [done|]. split; [by constructor|done].
    + right. right. split; [by constructor|done].
Qed.

(** What [insert] does, in any state of a tier of the constructor's
    shape and of capacity at least 2. *)
Lemma sa_insert_cases sa k v mp :
  wf sa -> safe sa ->
  (exists i v0, 0 <= i < mp /\
     at_probe (SubArray._size sa) (SubArray._table sa) k i v0 /\
     SubArray.insert sa k v mp =
     Ok (true, SubArray.mk (SubArray._size sa)
                 (<[Z.to_nat (pos sa k i) := Some (k, v)]> (SubArray._table sa))
                 (SubArray._count sa))) \/
  (exists i, 0 <= i < mp /\ slot_of sa k i = None /\
     (forall j, 0 <= j < i -> other k (slot_of sa k j)) /\
     SubArray.insert sa k v mp =
     Ok (true, SubArray.mk (SubArray._size sa)
                 (<[Z.to_nat (pos sa k i) := Some (k, v)]> (SubArray._table sa))
                 (SubArray._count sa + 1))) \/
  ((forall j, 0 <= j < mp -> other k (slot_of sa k j)) /\
   SubArray.insert sa k v mp = Ok (false, sa)).
Proof.
  intros Hwf Hs. unfold SubArray.insert.
  destruct (insert_update_cases sa k v (range mp) Hwf Hs)
    as [(pre & i & post & v0 & Hsplit & Hpre & Hi & ->)|
        [(pre & i & post & Hsplit & Hpre & Hi & ->)|[Hall ->]]]; simpl.
  - left. apply range_inv in Hsplit as [Hr ->]. rewrite Forall_seqZ in Hpre.
    exists i, v0. split; [done|]. split; [|done].
    split; [lia|]. split; [done|]. intros j Hj. apply Hpre. lia.
  - right. left. apply range_inv in Hsplit as [Hr ->]. rewrite Forall_seqZ in Hpre.
    assert (Hbefore : forall j, 0 <= j < i -> other k (slot_of sa k j)).
    { intros j Hj. apply Hpre. lia. }
    exists i. split; [done|]. split; [done|]. split; [done|].
    destruct (insert_place_spec sa k v (range mp) Hwf Hs)
      as [[_ Hocc]|(pre' & i' & post' & Hsplit' & Hpre' & Hi' & ->)].
    + unfold range in Hocc. rewrite Forall_seqZ in Hocc. destruct (Hocc i); [lia|done].
    + apply range_inv in Hsplit' as [Hr' ->]. rewrite Forall_seqZ in Hpre'.
      assert (i' = i) as ->; [|done].
      destruct (Z.lt_trichotomy i' i) as [Hlt|[?|Hgt]]; [|done|].
      * specialize (Hbefore i' ltac:(lia)). rewrite Hi' in Hbefore.
        by apply other_not_None in Hbefore.
      * destruct (Hpre' i); [lia|done].
  - right. right. unfold range in Hall. rewrite Forall_seqZ in Hall.
    assert (Hothers : forall j, 0 <= j < mp -> other k (slot_of sa k j)).
    { intros j Hj. apply Hall. lia. }
    split; [done|].
    destruct (insert_place_spec sa k v (range mp) Hwf Hs)
      as [[-> _]|(pre' & i' & post' & Hsplit' & Hpre' & Hi' & ->)]; [done|].
    apply range_inv in Hsplit' as [Hr' _].
    specialize (Hothers i' Hr'). rewrite Hi' in Hothers.
    by apply other_not_None in Hothers.
Qed.

(** A tier of capacity 1: a call that returns did not probe. *)
Lemma insert_unsafe_same sa k v mp b sa' :
  wf sa -> ~ safe sa -> SubArray.insert sa k v mp = Ok (b, sa') -> b = false /\ sa' = sa.
Proof.
  intros [Hsz _] Hs. unfold safe in Hs.
  assert (Hone : SubArray._size sa = 1) by lia.
  unfold SubArray.insert. destruct (decide (0 < mp)) as [Hmp|Hmp].
  - rewrite range_cons by done. simpl. rewrite hash_unsafe by done. done.
  - unfold range. rewrite seqZ_nil by lia. simpl. by intros [= <- <-].
Qed.


Lemma nth_slot_some tbl0 p (x : Key * option Val) :
  nth_slot tbl0 p = Some x -> tbl0 !! Z.to_nat p = Some (Some x).
Proof. unfold nth_slot. destruct (tbl0 !! Z.to_nat p) as [s|]; simpl; [by intros ->|done]. Qed.

Lemma nth_slot_none sa k i :
  wf sa -> slot_of sa k i = None -> SubArray._table sa !! Z.to_nat (pos sa k i) = Some None.
Proof.
  intros Hwf. unfold nth_slot.
  destruct (SubArray._table sa !! Z.to_nat (pos sa k i)) as [s|] eqn:Hl; simpl; [by intros ->|].
  apply lookup_ge_None in Hl. pose proof (pos_range sa k i Hwf). lia.
Qed.

(** A call that returns [True] wrote one slot, and the count grew by
    one exactly when that slot was empty; a call that returns [False]
    changed nothing. *)
Lemma sa_insert_written sa k v mp b sa' :
  wf sa -> SubArray.insert sa k v mp = Ok (b, sa') ->
  (b = false /\ sa' = sa) \/
  (b = true /\ safe sa /\ SubArray._size sa' = SubArray._size sa /\
   written k v (SubArray._table sa) (SubArray._table sa')
     (SubArray._count sa' - SubArray._count sa) /\
   exists i, 0 <= i < mp /\
     at_probe (SubArray._size sa') (SubArray._table sa') k i v).
Proof.
  intros Hwf Hins.
  destruct (decide (2 <= SubArray._size sa)) as [Hs|Hs];
    [|left; by eapply insert_unsafe_same].
  destruct (sa_insert_cases sa k v mp Hwf Hs)
    as [(i & v0 & Hi & Hat & Heq)|[(i & Hi & Hnone & Hbefore & Heq)|[_ Heq]]];
    rewrite Heq in Hins; injection Hins as <- <-; [right|right|by left].
  - split; [done|]. split; [done|]. split; [done|]. simpl. split.
    + destruct Hat as (_ & Hslot & _). exists (Z.to_nat (pos sa k i)), (Some (k, v0)).
      split; [by apply nth_slot_some|]. split; [done|].
      right. split; [by exists v0|lia].
    + exists i. split; [done|]. destruct Hat as (H0 & Hslot & Hbefore).
      apply sa_written; [done|done| |done]. right. by exists v0.
  - split; [done|]. split; [done|]. split; [done|]. simpl. split.
    + exists (Z.to_nat (pos sa k i)), None.
      split; [by apply nth_slot_none|]. split; [done|]. left. split; [done|lia].
    + exists i. split; [done|]. apply sa_written; [done|lia|by left|done].
Qed.

Lemma sa_insert_step sa k v mp b sa' :
  wf sa -> SubArray.insert sa k v mp = Ok (b, sa') -> wf sa' /\ step k sa sa'.
Proof.
  intros Hwf Hins.
  destruct (sa_insert_written sa k v mp b sa' Hwf Hins)
    as [[_ ->]|(_ & _ & Hsz & Hw & _)]; [split; [done|apply sa_step_refl]|].
  assert (Hstep : step k sa sa') by (split; [done|by eapply written_step_slots]).
  split; [by eapply sa_step_wf|done].
Qed.

Lemma sub_after_cons sa c calls :
  sub_after sa (c :: calls) = sub_after (sa_call sa c) calls.
Proof. done. Qed.

Lemma sa_call_step sa c : wf sa -> wf (sa_call sa c) /\ step c.1.1 sa (sa_call sa c).
Proof.
  intros Hwf. unfold sa_call.
  destruct (SubArray.insert sa c.1.1 c.1.2 c.2) as [[b sa']|e] eqn:Hins;
    [by eapply sa_insert_step|split; [done|apply sa_step_refl]].
Qed.

Lemma sub_after_wf sa calls : wf sa -> wf (sub_after sa calls).
Proof.
  revert sa. induction calls as [|c calls IH]; intros sa Hwf; [done|].
  rewrite sub_after_cons. apply IH. by apply sa_call_step.
Qed.

Lemma sub_after_size sa calls :
  wf sa -> SubArray._size (sub_after sa calls) = SubArray._size sa.
Proof.
  revert sa. induction calls as [|c calls IH]; intros sa Hwf; [done|].
  rewrite sub_after_cons. destruct (sa_call_step sa c Hwf) as [Hwf' [Hsz _]].
  by rewrite IH.
Qed.

(** An entry stays where it is through calls for other keys. *)
Lemma sub_after_at_probe sa calls k i v :
  wf sa -> Forall (fun c => c.1.1 <> k) calls ->
  at_probe (SubArray._size sa) (SubArray._table sa) k i v ->
  at_probe (SubArray._size sa) (SubArray._table (sub_after sa calls)) k i v.
Proof.
  revert sa. induction calls as [|c calls IH]; intros sa Hwf Hcalls Hat; [done|].
  apply Forall_cons in Hcalls as [Hc Hcalls]. rewrite sub_after_cons.
  destruct (sa_call_step sa c Hwf) as [Hwf' [Hsz Hstep]].
  rewrite <- Hsz. apply IH; [done|done|]. rewrite Hsz.
  by apply (at_probe_step _ c.1.1 k (SubArray._table sa)).
Qed.

Lemma tidy_first_empty sa k i :
  tidy sa -> 0 <= i -> slot_of sa k i = None ->
  (forall j, 0 <= j < i -> other k (slot_of sa k j)) -> free sa k.
Proof.
  intros Ht Hi Hnone Hbefore. destruct (Ht k) as [|(i0 & v0 & H0 & Hslot & Hb0)]; [done|].
  destruct (Z.lt_trichotomy i0 i) as [Hlt|[->|Hgt]].
  - specialize (Hbefore i0 ltac:(lia)). rewrite Hslot in Hbefore.
    destruct Hbefore as (k' & v' & [= <- _] & ?). done.
  - congruence.
  - specialize (Hb0 i ltac:(lia)). rewrite Hnone in Hb0. by apply other_not_None in Hb0.
Qed.

Lemma sa_call_tidy sa c :
  wf sa -> tidy sa ->
  tidy (sa_call sa c) /\
  (forall k, count_key k (SubArray._table sa) <= 1 ->
             count_key k (SubArray._table (sa_call sa c)) <= 1).
Proof.
  intros Hwf Ht. destruct c as [[k v] mp]. unfold sa_call. simpl.
  destruct (SubArray.insert sa k v mp) as [[b sa']|e] eqn:Hins; [|by split].
  destruct (decide (2 <= SubArray._size sa)) as [Hs|Hs];
    [|by destruct (insert_unsafe_same sa k v mp b sa' Hwf Hs Hins) as [_ ->]].
  destruct (sa_insert_step sa k v mp b sa' Hwf Hins) as [Hwf' [Hsz Hstep]].
  assert (Hothers : forall k0, k0 <> k ->
            (free sa' k0 \/ exists i v1,
               at_probe (SubArray._size sa') (SubArray._table sa') k0 i v1) /\
            count_key k0 (SubArray._table sa') = count_key k0 (SubArray._table sa)).
  { intros k0 Hne. split; [|by apply (step_count_other k)].
    destruct (Ht k0) as [Hf|(i0 & v0 & Hat)].
    - left. by apply (sa_free_step k k0 sa).
    - right. exists i0, v0. rewrite Hsz. by apply (at_probe_step _ k k0 (SubArray._table sa)). }
  destruct (sa_insert_cases sa k v mp Hwf Hs)
    as [(i & v0 & Hi & Hat & Heq)|[(i & Hi & Hnone & Hbefore & Heq)|[_ Heq]]];
    rewrite Heq in Hins; injection Hins as <- <-; [| |by split].
  - assert (Hat' : at_probe (SubArray._size sa)
              (<[Z.to_nat (pos sa k i) := Some (k, v)]> (SubArray._table sa)) k i v).
    { destruct Hat as (H0 & Hslot & Hb). apply sa_written; [done|done| |done].
      right. by exists v0. }
    split.
    + intros k0. destruct (decide (k0 = k)) as [->|Hne]; [|by apply Hothers].
      right. by exists i, v.
    + intros k0 Hle. destruct (decide (k0 = k)) as [->|Hne];
        [|by rewrite (proj2 (Hothers k0 Hne))].
      simpl. destruct Hat as (_ & Hslot & _).
      rewrite (written_key k v (SubArray._table sa) _ 0); [lia|].
      exists (Z.to_nat (pos sa k i)), (Some (k, v0)).
      split; [by apply nth_slot_some|]. split; [done|]. right. split; [by exists v0|done].
  - assert (Hat' : at_probe (SubArray._size sa)
              (<[Z.to_nat (pos sa k i) := Some (k, v)]> (SubArray._table sa)) k i v).
    { apply sa_written; [done|lia|by left|done]. }
    split.
    + intros k0. destruct (decide (k0 = k)) as [->|Hne]; [|by apply Hothers].
      right. by exists i, v.
    + intros k0 Hle. destruct (decide (k0 = k)) as [->|Hne];
        [|by rewrite (proj2 (Hothers k0 Hne))].
      simpl. rewrite (written_key k v (SubArray._table sa) _ 1).
      * rewrite (count_key_free k (SubArray._table sa)); [lia|].
        apply (tidy_first_empty sa k i); [done|lia|done|done].
      * exists (Z.to_nat (pos sa k i)), None.
        split; [by apply nth_slot_none|]. split; [done|]. by left.
Qed.

Lemma sub_after_tidy sa calls :
  wf sa -> tidy sa -> (forall k, count_key k (SubArray._table sa) <= 1) ->
  forall k, count_key k (SubArray._table (sub_after sa calls)) <= 1.
Proof.
  revert sa. induction calls as [|c calls IH]; intros sa Hwf Ht Hle; [done|].
  rewrite sub_after_cons. destruct (sa_call_tidy sa c Hwf Ht) as [Ht' Hle'].
  apply IH; [by apply sa_call_step|done|]. intros k. apply Hle', Hle.
Qed.

Lemma sub_after_count sa calls :
  wf sa -> SubArray._count sa = count_occupied (SubArray._table sa) ->
  SubArray._count (sub_after sa calls) = count_occupied (SubArray._table (sub_after sa calls)).
Proof.
  revert sa. induction calls as [|c calls IH]; intros sa Hwf Hc; [done|].
  rewrite sub_after_cons. apply IH; [by apply sa_call_step|].
  destruct c as [[k v] mp]. unfold sa_call. simpl.
  destruct (SubArray.insert sa k v mp) as [[b sa']|e] eqn:Hins; [|done].
  destruct (sa_insert_written sa k v mp b sa' Hwf Hins)
    as [[_ ->]|(_ & _ & _ & Hw & _)]; [done|].
  apply written_occupied in Hw. lia.
Qed.

(** A tier of a size below 1 has no slot, and no call changes it. *)
Lemma sub_after_nonpos size calls :
  size < 1 ->
  sub_after (SubArray.init (Key:=Key) (Val:=Val) size) calls = SubArray.init size.
Proof.
  intros Hsz. induction calls as [|c calls IH]; [done|].
  rewrite sub_after_cons. rewrite <- IH at 2. f_equal.
  destruct c as [[k v] mp]. unfold sa_call. simpl.
  destruct (SubArray.insert (SubArray.init size) k v mp) as [[b sa']|e] eqn:Hins; [|done].
  revert Hins. unfold SubArray.insert.
  assert (Hl : replicate (Z.to_nat size) (None : slot Key Val) = []).
  { by replace (Z.to_nat size) with 0%nat by lia. }
  destruct (decide (0 < mp)) as [Hmp|Hmp].
  - rewrite range_cons by done. simpl. rewrite Hl.
    destruct (SubArray._hash _ k 0) as [p|e]; simpl; [|done].
    unfold getitem, norm_index. simpl.
    destruct (decide (p < 0)); destruct (decide _); simpl; try done; lia.
  - unfold range. rewrite seqZ_nil by lia. simpl. by intros [= <- <-].
Qed.

End facts.
End SubArrayMore.

(** ** The terminal tier in any state, and on its own *)

Module LastSubArrayMore.
Import LastSubArraySpec LastSubArrayFacts.
Section facts.
Context {Key Val : Type} `{Hashable Key}.
Implicit Types (la : LastSubArray.t Key Val) (k : Key) (v : option Val).

#[local] Abbreviation posb la k i := (probe (LastSubArray._b_size la) k i).
#[local] Abbreviation slotb la k i := (nth_slot (LastSubArray._b la) (posb la k i)).

Lemma bucket_index_holds k (bucket : list (slot Key Val)) n m :
  LastSubArray.bucket_index k bucket n = Some m ->
  exists (i : nat) v0, m = (n + i)%nat /\ bucket !! i = Some (Some (k, v0)).
Proof.
  revert n. induction bucket as [|[[k' v']|] bucket IH]; intros n; simpl; [done| |].
  - destruct (decide (k' = k)) as [->|Hne].
    + intros [= <-]. exists 0%nat, v'. split; [lia|done].
    + intros Hi. destruct (IH (S n) Hi) as (i & v0 & -> & Hl).
      exists (S i), v0. split; [lia|done].
  - intros Hi. destruct (IH (S n) Hi) as (i & v0 & -> & Hl).
    exists (S i), v0. split; [lia|done].
Qed.

(** The overwrite scan of part B, in any state. *)
Lemma insert_update_b_spec la k v l :
  wf la -> 2 <= LastSubArray._b_size la ->
  LastSubArray.insert_update_b la k v l = Ok None \/
  exists i v0, slotb la k i = Some (k, v0) /\
    LastSubArray.insert_update_b la k v l =
    Ok (Some (<[Z.to_nat (posb la k i) := Some (k, v)]> (LastSubArray._b la))).
Proof.
  intros Hwf Hb. induction l as [|j l IH]; [by left|].
  rewrite insert_update_b_cons by done.
  destruct (slotb la k j) as [[k' v']|] eqn:Hj; [|done].
  destruct (decide (k' = k)) as [->|]; [|done].
  right. by exists j, v'.
Qed.

Lemma slotb_lookup la k i s :
  wf la -> 2 <= LastSubArray._b_size la -> slotb la k i = s ->
  LastSubArray._b la !! Z.to_nat (posb la k i) = Some s.
Proof.
  intros Hwf Hb. unfold nth_slot.
  destruct (LastSubArray._b la !! Z.to_nat (posb la k i)) as [s'|] eqn:Hl; simpl;
    [by intros ->|].
  apply lookup_ge_None in Hl. pose proof (posb_range la k i Hwf Hb). lia.
Qed.

(** A call that returns [True] wrote one slot of the tier, and the count
    grew by one exactly when that slot was empty; a call that returns
    [False] changed nothing. *)
Lemma la_insert_written la k v b la' :
  wf la -> LastSubArray.insert la k v = Ok (b, la') ->
  (b = false /\ la' = la) \/
  (b = true /\ step k la la' /\
   written k v (la_slots la) (la_slots la')
     (LastSubArray._count la' - LastSubArray._count la)).
Proof.
  intros Hwf Hins.
  assert (Hb : 2 <= LastSubArray._b_size la).
  { destruct (decide (2 <= LastSubArray._b_size la)) as [|Hnb]; [done|].
    by rewrite Claims.insert_b_unsafe in Hins. }
  revert Hins. unfold LastSubArray.insert. rewrite loglog_ok by done. simpl.
  destruct (insert_update_b_spec la k v (range (attempts la)) Hwf Hb)
    as [->|(i & v0 & Hi & ->)]; simpl.
  2:{ (* overwritten in part B *)
    intros [= <- <-]. right. split; [done|].
    assert (Hw : written k v (LastSubArray._b la)
                   (<[Z.to_nat (posb la k i) := Some (k, v)]> (LastSubArray._b la)) 0).
    { exists (Z.to_nat (posb la k i)), (Some (k, v0)).
      split; [by apply slotb_lookup|]. split; [done|]. right. split; [by exists v0|done]. }
    split; [apply step_b; by eapply written_step_slots|].
    unfold la_slots. simpl. rewrite Z.sub_diag. by apply written_app_l. }
  destruct (decide (2 <= Z.of_nat (length (LastSubArray._c la)))) as [Hc|Hnc].
  2:{ by rewrite Claims.hash_c_unsafe. }
  assert (Hs : safe la) by done.
  pose proof (cand_range la k Hc) as [Hc1 Hc2].
  rewrite hash_c_ok by done. simpl.
  unfold LastSubArray.insert_update_c.
  rewrite !norm_index_ok, !getitem_bucket by done. simpl.
  assert (Hover : forall j i0,
    0 <= j < Z.of_nat (length (LastSubArray._c la)) ->
    LastSubArray.bucket_index k (nth_bucket (LastSubArray._c la) j) 0 = Some i0 ->
    let la1 := LastSubArray.with_c la
                 (<[Z.to_nat j := <[i0 := Some (k, v)]> (nth_bucket (LastSubArray._c la) j)]>
                    (LastSubArray._c la)) in
    step k la la1 /\
    written k v (la_slots la) (la_slots la1)
      (LastSubArray._count la1 - LastSubArray._count la)).
  { intros j i0 Hj Hidx la1.
    destruct (bucket_index_holds _ _ _ _ Hidx) as (i & v0 & -> & Hl). simpl in *.
    assert (Hw : written k v (nth_bucket (LastSubArray._c la) j)
                   (<[i := Some (k, v)]> (nth_bucket (LastSubArray._c la) j)) 0).
    { exists i, (Some (k, v0)). split; [done|]. split; [done|].
      right. split; [by exists v0|done]. }
    split.
    - apply step_c. eapply buckets_step_insert; [done|done|].
      by eapply written_step_slots.
    - unfold la_slots, la1. simpl. rewrite Z.sub_diag. apply written_app_r.
      eapply written_concat; [by apply nth_bucket_lookup|done]. }
  destruct (LastSubArray.bucket_index k (nth_bucket _ (cand1 la k)) 0) as [i1|] eqn:H1.
  { simpl. intros [= <- <-]. right. split; [done|]. by apply Hover. }
  destruct (LastSubArray.bucket_index k (nth_bucket _ (cand2 la k)) 0) as [i2|] eqn:H2.
  { simpl. intros [= <- <-]. right. split; [done|]. by apply Hover. }
  simpl.
  destruct (insert_place_b_spec la k v (range (attempts la)) Hwf Hb)
    as [[-> _]|(pre & i & post & _ & _ & Hi & ->)]; simpl.
  2:{ (* placed in part B *)
    intros [= <- <-]. right. split; [done|].
    assert (Hw : written k v (LastSubArray._b la)
                   (<[Z.to_nat (posb la k i) := Some (k, v)]> (LastSubArray._b la)) 1).
    { exists (Z.to_nat (posb la k i)), None.
      split; [by apply slotb_lookup|]. split; [done|]. by left. }
    split; [apply step_incr, step_b; by eapply written_step_slots|].
    unfold la_slots. simpl. replace (_ + 1 - _) with 1 by lia. by apply written_app_l. }
  destruct (insert_place_c_spec la k v Hwf Hs)
    as [[-> _]|(i & Hi & Hempty & _ & ->)]; simpl.
  { intros [= <- <-]. by left. }
  (* placed in part C *)
  intros [= <- <-]. right. split; [done|].
  pose proof (chosen_range la k Hc) as Ht.
  pose proof (nth_bucket_length la _ Hwf Ht) as Hlen.
  assert (Hw : written k v (nth_bucket (LastSubArray._c la) (chosen la k))
                 (<[Z.to_nat i := Some (k, v)]>
                    (nth_bucket (LastSubArray._c la) (chosen la k))) 1).
  { exists (Z.to_nat i), None. split; [|split; [done|by left]].
    unfold nth_slot in Hempty.
    destruct (lookup_lt_is_Some_2 (nth_bucket (LastSubArray._c la) (chosen la k))
                (Z.to_nat i)) as [s Hs']; [lia|].
    rewrite Hs' in Hempty. simpl in Hempty. by subst s. }
  split.
  - apply step_incr, step_c. eapply buckets_step_insert; [done|done|].
    by eapply written_step_slots.
  - unfold la_slots. simpl. replace (_ + 1 - _) with 1 by lia. apply written_app_r.
    eapply written_concat; [by apply nth_bucket_lookup|done].
Qed.

Lemma la_call_step la c : wf la -> wf (la_call la c) /\ step c.1 la (la_call la c).
Proof.
  intros Hwf. unfold la_call.
  destruct (LastSubArray.insert la c.1 c.2) as [[b la']|e] eqn:Hins;
    [|split; [done|apply la_step_refl]].
  destruct (la_insert_written la c.1 c.2 b la' Hwf Hins) as [[_ ->]|(_ & Hstep & _)];
    [split; [done|apply la_step_refl]|].
  split; [by eapply la_step_wf|done].
Qed.

Lemma la_after_cons la c calls : la_after la (c :: calls) = la_after (la_call la c) calls.
Proof. done. Qed.

Lemma la_after_wf la calls : wf la -> wf (la_after la calls).
Proof.
  revert la. induction calls as [|c calls IH]; intros la Hwf; [done|].
  rewrite la_after_cons. apply IH. by apply la_call_step.
Qed.

Lemma la_after_count la calls :
  wf la -> LastSubArray._count la = count_occupied (la_slots la) ->
  LastSubArray._count (la_after la calls) = count_occupied (la_slots (la_after la calls)).
Proof.
  revert la. induction calls as [|c calls IH]; intros la Hwf Hc; [done|].
  rewrite la_after_cons. apply IH; [by apply la_call_step|].
  unfold la_call.
  destruct (LastSubArray.insert la c.1 c.2) as [[b la']|e] eqn:Hins; [|done].
  destruct (la_insert_written la c.1 c.2 b la' Hwf Hins) as [[_ ->]|(_ & _ & Hw)]; [done|].
  apply written_occupied in Hw. lia.
Qed.

(** *** A terminal tier as the calls can make it *)

(** An empty tier one of whose moduli is zero: every [insert] raises. *)
Lemma la_insert_unsafe la k v :
  wf la -> ~ safe la -> empty la -> LastSubArray.insert la k v = Raise ZeroDivisionError.
Proof.
  intros Hwf Hns He.
  destruct (decide (2 <= LastSubArray._b_size la)) as [Hb|Hnb];
    [|by apply Claims.insert_b_unsafe].
  unfold LastSubArray.insert. rewrite loglog_ok by done. simpl.
  rewrite insert_update_b_free; [|done|done|by apply la_empty_free]. simpl.
  rewrite Claims.hash_c_unsafe; [done|]. intros Hc. by apply Hns.
Qed.

Lemma la_call_settled la c : settled la -> settled (la_call la c).
Proof.
  intros [Hwf [[Hs Hall]|[Hns He]]]; unfold la_call.
  2:{ rewrite la_insert_unsafe by done. split; [done|by right]. }
  destruct c as [k v]. simpl.
  assert (Hnext : forall la', wf la' -> step k la la' -> holds_value la' k v -> settled la').
  { intros la' Hwf' Hstep Hv. split; [done|]. left. split; [by eapply la_step_safe|].
    intros k0. destruct (decide (k0 = k)) as [->|Hne]; [right; by exists v|].
    destruct (Hall k0) as [Hf|[v0 Hv0]].
    - left. by eapply la_free_step.
    - right. exists v0. by eapply la_holds_value_step. }
  destruct (Hall k) as [Hf|[v0 Hv0]].
  - destruct (la_insert_free la k v Hwf Hs Hf) as [->|(la' & -> & Hwf' & Hstep & Hv & _)].
    + split; [done|]. left. by split.
    + by apply Hnext.
  - destruct (la_insert_holds la k v v0 Hwf Hs Hv0) as (la' & -> & Hwf' & Hstep & Hv & _).
    by apply Hnext.
Qed.

Lemma la_after_settled la calls : settled la -> settled (la_after la calls).
Proof.
  revert la. induction calls as [|c calls IH]; intros la Hi; [done|].
  rewrite la_after_cons. by apply IH, la_call_settled.
Qed.

Lemma init_settled size la :
  LastSubArray.init (Key:=Key) (Val:=Val) size = Ok la -> 1 <= size -> settled la.
Proof.
  intros Hinit Hsz. destruct (la_init_ok (Key:=Key) (Val:=Val) size Hsz)
    as (la0 & Hinit0 & Hwf & He & _).
  rewrite Hinit in Hinit0. injection Hinit0 as <-. split; [done|].
  destruct (decide (2 <= LastSubArray._b_size la /\
                    2 <= Z.of_nat (length (LastSubArray._c la)))) as [Hs|Hns].
  - left. split; [done|]. intros k. left. by apply la_empty_free.
  - right. by split.
Qed.

(** An insert that returned [True] left the key where [search] finds it,
    and later calls for other keys leave it there. *)
Lemma la_after_holds la calls k v :
  wf la -> safe la -> holds_value la k v -> Forall (fun c => c.1 <> k) calls ->
  wf (la_after la calls) /\ safe (la_after la calls) /\ holds_value (la_after la calls) k v.
Proof.
  revert la. induction calls as [|c calls IH]; intros la Hwf Hs Hv Hcalls; [done|].
  apply Forall_cons in Hcalls as [Hc Hcalls]. rewrite la_after_cons.
  destruct (la_call_step la c Hwf) as [Hwf' Hstep].
  apply IH; [done|by eapply la_step_safe| |done].
  by eapply la_holds_value_step.
Qed.

Lemma settled_insert_true la k v la' :
  settled la -> LastSubArray.insert la k v = Ok (true, la') ->
  wf la' /\ safe la' /\ holds_value la' k v /\
  (free la k /\ LastSubArray._count la' = LastSubArray._count la + 1 \/
   (exists v0, holds_value la k v0) /\ LastSubArray._count la' = LastSubArray._count la).
Proof.
  intros [Hwf [[Hs Hall]|[Hns He]]] Hins; [|by rewrite la_insert_unsafe in Hins].
  destruct (Hall k) as [Hf|[v0 Hv0]].
  - destruct (la_insert_free la k v Hwf Hs Hf) as [Heq|(la1 & Heq & Hwf' & Hstep & Hv & Hc)];
      rewrite Heq in Hins; [done|]. injection Hins as <-.
    split; [done|]. split; [by eapply la_step_safe|]. split; [done|]. by left.
  - destruct (la_insert_holds la k v v0 Hwf Hs Hv0) as (la1 & Heq & Hwf' & Hstep & Hv & Hc).
    rewrite Heq in Hins. injection Hins as <-.
    split; [done|]. split; [by eapply la_step_safe|]. split; [done|]. right.
    split; [by exists v0|done].
Qed.

Lemma la_free_count k la : free la k -> count_key k (la_slots la) = 0.
Proof.
  intros [Hb Hc]. unfold la_slots. rewrite count_key_app, (count_key_free k _ Hb).
  induction Hc as [|bucket c Hbk _ IH]; simpl; [done|].
  rewrite count_key_app, (count_key_free k _ Hbk). lia.
Qed.

Lemma la_call_unique la c :
  settled la -> (forall k, count_key k (la_slots la) <= 1) ->
  forall k, count_key k (la_slots (la_call la c)) <= 1.
Proof.
  intros Hi Hle k0. pose proof Hi as [Hwf _]. unfold la_call.
  destruct (LastSubArray.insert la c.1 c.2) as [[b la']|e] eqn:Hins; [|done].
  destruct (la_insert_written la c.1 c.2 b la' Hwf Hins) as [[_ ->]|(-> & Hstep & Hw)];
    [done|].
  destruct (decide (k0 = c.1)) as [->|Hne].
  - rewrite (written_key _ _ _ _ _ Hw).
    destruct (settled_insert_true la c.1 c.2 la' Hi Hins) as (_ & _ & _ & [[Hf Hc]|[_ Hc]]).
    + rewrite la_free_count by done. lia.
    + specialize (Hle c.1). lia.
  - rewrite (step_count_other c.1 k0 (la_slots la)); [done|done|].
    by eapply written_step_slots.
Qed.

Lemma la_after_unique la calls :
  settled la -> (forall k, count_key k (la_slots la) <= 1) ->
  forall k, count_key k (la_slots (la_after la calls)) <= 1.
Proof.
  revert la. induction calls as [|c calls IH]; intros la Hi Hle; [done|].
  rewrite la_after_cons. apply IH; [by apply la_call_settled|by apply la_call_unique].
Qed.

End facts.
End LastSubArrayMore.

(** ** The sizes at which the terminal tier works *)

Section sizes.

(** [x + 2 < 2 ^ x] from 3 on. *)
Lemma pow2_gt_succ x : 3 <= x -> x + 2 < 2 ^ x.
Proof.
  intros Hx. replace x with (3 + (x - 3)) by lia.
  assert (H0 : 0 <= x - 3) by lia. revert H0. generalize (x - 3). clear.
  apply natlike_ind; [done|]. intros y Hy IH.
  replace (3 + Z.succ y) with (Z.succ (3 + y)) by lia.
  rewrite Z.pow_succ_r by lia. lia.
Qed.

(** The arithmetic of the terminal tier's moduli: part B has two slots
    and part C two buckets exactly for the sizes 5, 6 and 9 onward. *)
Lemma usable_sizes size :
  1 <= size ->
  (2 <= size `div` 2 /\
   2 * Z.log2 (Z.log2 (size + 1) + 1) < size - size `div` 2) <->
  (size = 5 \/ size = 6 \/ 9 <= size).
Proof.
  intros Hs. destruct (decide (size <= 8)) as [Hle|Hgt].
  - assert (Hcases : size = 1 \/ size = 2 \/ size = 3 \/ size = 4 \/ size = 5 \/
                     size = 6 \/ size = 7 \/ size = 8) by lia.
    destruct Hcases as [->|[->|[->|[->|[->|[->|[->| ->]]]]]]]; vm_compute;
      split; try (intros [H1 H2]); try (intros [H1|[H1|H1]]);
      try discriminate; try (by destruct H1); try (by destruct H2); auto.
  - split; [lia|]. intros _.
    assert (Hdiv : 2 * (size `div` 2) <= size < 2 * (size `div` 2) + 2).
    { pose proof (Z.div_mod size 2 ltac:(lia)). pose proof (Z.mod_pos_bound size 2). lia. }
    split; [lia|].
    set (m := Z.log2 (size + 1)).
    assert (Hm : 2 ^ m <= size + 1 < 2 ^ (m + 1)).
    { pose proof (Z.log2_spec (size + 1) ltac:(lia)) as Hl. fold m in Hl.
      by rewrite <- Z.add_1_r in Hl. }
    assert (Hm3 : 3 <= m).
    { unfold m. apply Z.log2_le_pow2; simpl; lia. }
    destruct (decide (m = 3)) as [Hm3'|Hne].
    + rewrite Hm3'. change (Z.log2 (3 + 1)) with 2. lia.
    + assert (Ht : Z.log2 (m + 1) < m - 1).
      { apply Z.log2_lt_pow2; [lia|]. pose proof (pow2_gt_succ (m - 1) ltac:(lia)). lia. }
      pose proof (Z.pow_gt_lin_r 2 (m - 2) ltac:(lia) ltac:(lia)) as Hlin.
      assert (Hp : 2 ^ m = 4 * 2 ^ (m - 2)).
      { replace m with (2 + (m - 2)) at 1 by lia. rewrite Z.pow_add_r by lia. done. }
      lia.
Qed.

End sizes.

Module LastInit.
Import LastSubArraySpec LastSubArrayFacts LastSubArrayMore.
Section facts.
Context {Key Val : Type} `{Hashable Key}.
Implicit Types (la : LastSubArray.t Key Val) (k : Key) (v : option Val).

(** What the constructor builds. *)
Lemma la_init_fields size la :
  1 <= size -> LastSubArray.init (Key:=Key) (Val:=Val) size = Ok la ->
  let bucket_size := 2 * Z.log2 (Z.log2 (size + 1) + 1) in
  let c_size := size - size `div` 2 in
  la = LastSubArray.mk size (size `div` 2) c_size bucket_size
         (replicate (Z.to_nat (size `div` 2)) None)
         (replicate (Z.to_nat ((c_size + bucket_size - 1) `div` bucket_size))
            (replicate (Z.to_nat bucket_size) None)) 0.
Proof.
  intros Hs. unfold LastSubArray.init, loglog.
  destruct (decide (size + 1 <= 0)); [lia|]. simpl.
  pose proof (loglog_pos size Hs) as Hll.
  unfold py_floordiv. destruct (decide (_ = 0)); [lia|]. simpl.
  by intros [= <-].
Qed.

Lemma concat_replicate_length {A} (n m : nat) (x : A) :
  length (concat (replicate n (replicate m x))) = (n * m)%nat.
Proof. induction n as [|n IH]; simpl; [done|]. rewrite length_app, length_replicate, IH. lia. Qed.

Lemma concat_replicate_empty (n m : nat) :
  all_empty (concat (replicate n (replicate m (None : slot Key Val)))).
Proof.
  induction n as [|n IH]; simpl; [constructor|].
  apply Forall_app. split; [apply all_empty_replicate|done].
Qed.

Lemma init_safe_iff size la :
  1 <= size -> LastSubArray.init (Key:=Key) (Val:=Val) size = Ok la ->
  safe la <-> (size = 5 \/ size = 6 \/ 9 <= size).
Proof.
  intros Hs Hinit. rewrite <- (usable_sizes size Hs).
  rewrite (la_init_fields size la Hs Hinit). unfold safe. simpl.
  rewrite length_replicate.
  pose proof (loglog_pos size Hs) as Hll.
  set (bs := 2 * Z.log2 (Z.log2 (size + 1) + 1)) in *.
  set (c := size - size `div` 2).
  assert (Hc : 1 <= c).
  { unfold c. pose proof (Z.div_mod size 2 ltac:(lia)).
    pose proof (Z.mod_pos_bound size 2). lia. }
  assert (Hq : 0 <= (c + bs - 1) `div` bs) by (apply Z.div_pos; lia).
  rewrite Z2Nat.id by done.
  assert (Hiff : 2 <= (c + bs - 1) `div` bs <-> bs < c).
  { split; intros Hx.
    - pose proof (Z.mul_div_le (c + bs - 1) bs ltac:(lia)). nia.
    - apply Z.div_le_lower_bound; lia. }
  rewrite Hiff. done.
Qed.

End facts.
End LastInit.

(** ** One call of the table's insert, in any state *)

Module TableMore.
Import TableSpec TableFacts TableInv.
Import SubArrayMore LastSubArrayMore.
Section facts.
Context {Key Val : Type} `{Hashable Key}.
Implicit Types (T : OT.t Key Val) (k : Key) (v : option Val)
  (subs pre post : list (SubArray.t Key Val)).

#[local] Abbreviation tables subs := (concat (map SubArray._table subs)).
#[local] Abbreviation counts subs := (foldr (fun sa acc => SubArray._count sa + acc) 0 subs).

(** *** The answers [False] *)

Lemma sa_insert_false (sa sa' : SubArray.t Key Val) k v mp :
  SubArray.insert sa k v mp = Ok (false, sa') -> sa' = sa.
Proof.
  unfold SubArray.insert.
  destruct (SubArray.insert_update _ _ _ _) as [[tbl|]|e]; simpl; [done| |done].
  destruct (SubArray.insert_place _ _ _ _) as [[tbl|]|e]; simpl; [done| |done].
  by intros [= <-].
Qed.

Lemma la_insert_false (la la' : LastSubArray.t Key Val) k v :
  LastSubArray.insert la k v = Ok (false, la') -> la' = la.
Proof.
  unfold LastSubArray.insert.
  destruct (loglog _) as [n|e]; simpl; [|done].
  destruct (LastSubArray.insert_update_b _ _ _ _) as [[b|]|e]; simpl; [done| |done].
  destruct (LastSubArray._hash_c _ _) as [[b1 b2]|e]; simpl; [|done].
  destruct (LastSubArray.insert_update_c _ _ _ _ _) as [[c|]|e]; simpl; [done| |done].
  destruct (LastSubArray.insert_place_b _ _ _ _) as [[b|]|e]; simpl; [done| |done].
  destruct (LastSubArray.insert_place_c _ _ _) as [[c|]|e]; simpl; [done| |done].
  by intros [= <-].
Qed.

(** *** The loops of insert, in any state *)

(** The first loop hands the call to one tier. *)
Lemma update_subarrays_shape subs k v mp b subs' :
  OT.update_subarrays subs k v mp = Ok (Some (b, subs')) ->
  exists pre sa sa' post x,
    subs = pre ++ sa :: post /\ subs' = pre ++ sa' :: post /\
    OT.search_subarrays subs k = Ok (Some x) /\
    SubArray.insert sa k v mp = Ok (b, sa').
Proof.
  revert subs'. induction subs as [|sa subs IH]; intros subs'; simpl; [done|].
  destruct (SubArray.search sa k) as [[x|]|e]; simpl; [| |done].
  - destruct (SubArray.insert sa k v mp) as [[b0 sa']|e] eqn:Hins; simpl; [|done].
    intros [= <- <-]. by exists [], sa, sa', subs, x.
  - destruct (OT.update_subarrays subs k v mp) as [[[b0 rest']|]|e]; simpl; [|done|done].
    intros [= <- <-].
    destruct (IH rest' eq_refl) as (pre & sa0 & sa' & post & x & -> & -> & Hs & Hins).
    by exists (sa :: pre), sa0, sa', post, x.
Qed.

(** The first loop and [search] walk the uniform tiers alike. *)
Lemma update_subarrays_none subs k v mp :
  OT.update_subarrays subs k v mp = Ok None -> OT.search_subarrays subs k = Ok None.
Proof.
  induction subs as [|sa subs IH]; simpl; [done|].
  destruct (SubArray.search sa k) as [[x|]|e]; simpl; [| |done].
  - by destruct (SubArray.insert sa k v mp) as [[b0 sa']|e].
  - destruct (OT.update_subarrays subs k v mp) as [[[b0 rest']|]|e]; simpl; [done| |done].
    intros _. by apply IH.
Qed.

Lemma update_subarrays_raise subs k v mp e :
  OT.update_subarrays subs k v mp = Raise e ->
  OT.search_subarrays subs k = Raise e \/ exists x, OT.search_subarrays subs k = Ok (Some x).
Proof.
  induction subs as [|sa subs IH]; simpl; [done|].
  destruct (SubArray.search sa k) as [[x|]|e0]; simpl; [| |intros [= ->]; by left].
  - intros _. right. by exists x.
  - destruct (OT.update_subarrays subs k v mp) as [[[b0 rest']|]|e1]; simpl; [done|done|].
    intros [= ->]. by apply IH.
Qed.

(** The placement loop changes at most one tier, by a call that
    returns [True]. *)
Lemma place_subarrays_shape subs k v mp :
  (OT.place_subarrays subs k v mp).2 = subs /\
  (OT.place_subarrays subs k v mp).1 <> Ok true \/
  exists pre sa sa' post,
    subs = pre ++ sa :: post /\
    OT.place_subarrays subs k v mp = (Ok true, pre ++ sa' :: post) /\
    SubArray.insert sa k v mp = Ok (true, sa').
Proof.
  induction subs as [|sa subs IH]; simpl; [by left|].
  destruct (SubArray.insert sa k v mp) as [[[|] sa']|e] eqn:Hins; [|  |by left].
  - right. by exists [], sa, sa', subs.
  - apply sa_insert_false in Hins as ->.
    destruct IH as [[Heq Hne]|(pre & sa0 & sa' & post & -> & Heq & Hins)].
    + left. destruct (OT.place_subarrays subs k v mp) as [r rest']. simpl in *.
      by subst rest'.
    + right. exists (sa :: pre), sa0, sa', post. rewrite Heq. done.
Qed.

(** *** One call of insert, in any state *)

Lemma touched_same T k v r : r <> Ok true -> touched k v T r T.
Proof. by constructor. Qed.

Lemma insert_touched T k v : touched k v T (OT.insert T k v).1 (OT.insert T k v).2.
Proof.
  unfold OT.insert.
  destruct (OT.update_subarrays _ _ _ _) as [[[b subs']|]|e] eqn:Hup;
    [| |by apply touched_same].
  { destruct (update_subarrays_shape _ _ _ _ _ _ Hup)
      as (pre & sa & sa' & post & x & Heq & -> & _ & Hins). simpl.
    destruct b.
    - by apply touched_sub with (sa := sa).
    - apply sa_insert_false in Hins as ->. unfold OT.with_subarrays. rewrite <- Heq.
      destruct T; by apply touched_same. }
  unfold OT.update_last.
  destruct (OT._last_array T) as [la|] eqn:Hla; simpl.
  - destruct (LastSubArray.search la k) as [[x|]|e]; simpl; [| |by apply touched_same].
    + destruct (LastSubArray.insert la k v) as [[[|] la']|e] eqn:Hins; simpl;
        [| |by apply touched_same].
      * unfold OT.with_last; by apply touched_last with (la := la).
      * apply la_insert_false in Hins as ->. unfold OT.with_last. rewrite <- Hla.
        destruct T; by apply touched_same.
    + destruct (OT.load_factor T) as [q|e]; [|by apply touched_same].
      destruct (Qle_bool _ _); [by apply touched_same|].
      unfold OT.place.
      destruct (place_subarrays_shape (OT._subarrays T) k v (OT._max_probes T))
        as [[Heq Hne]|(pre & sa & sa' & post & Heq & -> & Hins)].
      * destruct (OT.place_subarrays _ _ _ _) as [[[|]|e] rest'] eqn:Hpl;
          simpl in *; subst rest'; [done| |destruct T; by apply touched_same].
        rewrite Hla.
        destruct (LastSubArray.insert la k v) as [[[|] la']|e] eqn:Hins; simpl.
        -- unfold OT.incr_count, OT.with_last, OT.with_subarrays; simpl.
           by apply touched_last with (la := la).
        -- apply la_insert_false in Hins as ->. unfold OT.with_last. simpl.
           rewrite <- Hla. destruct T; by apply touched_same.
        -- destruct T; by apply touched_same.
      * unfold OT.incr_count, OT.with_last, OT.with_subarrays; simpl.
        by apply touched_sub with (sa := sa).
  - destruct (OT.load_factor T) as [q|e]; [|by apply touched_same].
    destruct (Qle_bool _ _); [by apply touched_same|].
    unfold OT.place.
    destruct (place_subarrays_shape (OT._subarrays T) k v (OT._max_probes T))
      as [[Heq Hne]|(pre & sa & sa' & post & Heq & -> & Hins)].
    + destruct (OT.place_subarrays _ _ _ _) as [[[|]|e] rest'] eqn:Hpl;
        simpl in *; subst rest'; [done| |destruct T; by apply touched_same].
      rewrite Hla. destruct T; by apply touched_same.
    + unfold OT.incr_count, OT.with_last, OT.with_subarrays; simpl.
      by apply touched_sub with (sa := sa).
Qed.

(** The count grows by one exactly when [search] answers [None] and
    [insert] answers [True]. *)
Lemma insert_count T k v :
  (OT.search T k = Ok None /\ (OT.insert T k v).1 = Ok true ->
   OT._count (OT.insert T k v).2 = OT._count T + 1) /\
  (~ (OT.search T k = Ok None /\ (OT.insert T k v).1 = Ok true) ->
   OT._count (OT.insert T k v).2 = OT._count T).
Proof.
  unfold OT.insert, OT.search.
  destruct (OT.update_subarrays _ _ _ _) as [[[b subs']|]|e] eqn:Hup.
  - destruct (update_subarrays_shape _ _ _ _ _ _ Hup)
      as (pre & sa & sa' & post & x & _ & _ & -> & _). simpl. count_settle.
  - rewrite (update_subarrays_none _ _ _ _ Hup). simpl.
    unfold OT.update_last.
    destruct (OT._last_array T) as [la|] eqn:Hla; simpl.
    + destruct (LastSubArray.search la k) as [[x|]|e]; simpl.
      * destruct (LastSubArray.insert la k v) as [[b la']|e]; simpl; count_settle.
      * destruct (OT.load_factor T) as [q|e]; [|simpl; count_settle].
        destruct (Qle_bool _ _); [simpl; count_settle|].
        unfold OT.place.
        destruct (OT.place_subarrays _ _ _ _) as [[[|]|e] rest']; simpl;
          [count_settle| |count_settle].
        rewrite Hla.
        destruct (LastSubArray.insert la k v) as [[[|] la']|e]; simpl; count_settle.
      * count_settle.
    + destruct (OT.load_factor T) as [q|e]; [|simpl; count_settle].
      destruct (Qle_bool _ _); [simpl; count_settle|].
      unfold OT.place.
      destruct (OT.place_subarrays _ _ _ _) as [[[|]|e] rest']; simpl;
        [count_settle| |count_settle].
      rewrite Hla. simpl. count_settle.
  - simpl. count_settle.
Qed.

(** The count never falls, and grows by one at most. *)
Lemma insert_count_step T k v :
  OT._count (OT.insert T k v).2 = OT._count T \/
  OT._count (OT.insert T k v).2 = OT._count T + 1.
Proof.
  destruct (insert_count T k v) as [Hup Hsame].
  destruct (OT.search T k) as [[x|]|e]; [left; apply Hsame; by intros [? _]| |
                                         left; apply Hsame; by intros [? _]].
  destruct (OT.insert T k v).1 as [[|]|e]; [right; by apply Hup|
    left; apply Hsame; by intros [_ ?]|left; apply Hsame; by intros [_ ?]].
Qed.

(** *** One write *)

Lemma counts_app subs1 subs2 : counts (subs1 ++ subs2) = counts subs1 + counts subs2.
Proof. induction subs1 as [|sa subs1 IH]; simpl; lia. Qed.

Lemma tables_middle pre (sa : SubArray.t Key Val) post :
  tables (pre ++ sa :: post) = tables pre ++ SubArray._table sa ++ tables post.
Proof. by rewrite map_app, concat_app. Qed.

(** A call of [insert] that returns [True] wrote one slot, and the tier
    that took it counted the slot when it was empty. *)
Lemma touched_written T k v r T' :
  wf T -> touched k v T r T' ->
  (r <> Ok true /\ T' = T) \/
  (r = Ok true /\ step k T T' /\ OT._alpha T' = OT._alpha T /\
   written k v (slots T) (slots T') (tiers_count T' - tiers_count T)).
Proof.
  intros [Hwfs Hwfl] [r' Hr|pre sa sa' post c Heq Hins|la la' c Hla Hins]; [by left| |].
  - right. split; [done|]. rewrite Heq in Hwfs.
    apply Forall_app in Hwfs as [_ [Hwf _]%Forall_cons].
    destruct (sa_insert_written sa k v _ true sa' Hwf Hins)
      as [[? _]|(_ & _ & Hsz & Hw & _)]; [done|].
    split; [|split; [done|]].
    + split; [done|]. split; [done|]. simpl. rewrite Heq.
      split; [|apply last_step_refl]. apply subs_step_middle.
      split; [done|by eapply written_step_slots].
    + unfold slots, tiers_count. simpl. rewrite Heq, !tables_middle, !counts_app. simpl.
      replace (_ - _) with (SubArray._count sa' - SubArray._count sa) by lia.
      apply written_app_l, written_app_r. by apply written_app_l.
  - right. split; [done|]. rewrite Hla in Hwfl. destruct Hwfl as [Hwf _].
    destruct (la_insert_written la k v true la' Hwf Hins) as [[? _]|(_ & Hstep & Hw)];
      [done|].
    split; [|split; [done|]].
    + split; [done|]. split; [done|]. simpl. split; [apply subs_step_refl|].
      rewrite Hla. by constructor.
    + unfold slots, tiers_count. simpl. rewrite Hla.
      replace (_ - _) with (LastSubArray._count la' - LastSubArray._count la) by lia.
      by apply written_app_r.
Qed.

Lemma touched_wf T k v r T' : wf T -> touched k v T r T' -> wf T'.
Proof.
  intros Hwf Ht. destruct (touched_written T k v r T' Hwf Ht)
    as [[_ ->]|(_ & Hstep & _)]; [done|by eapply tbl_step_wf].
Qed.

(** Each tier stays as its own calls can make it. *)
Lemma touched_tiers_ok T k v r T' : wf T -> tiers_ok T -> touched k v T r T' -> tiers_ok T'.
Proof.
  intros [Hwfs Hwfl] [Hsubs Hlast] [r' Hr|pre sa sa' post c Heq Hins|la la' c Hla Hins];
    [done| |].
  - split; [|done]. simpl. rewrite Heq in Hwfs, Hsubs.
    apply Forall_app in Hwfs as [_ [Hwf _]%Forall_cons].
    apply Forall_app in Hsubs as [Hpre [[Ht Hu] Hpost]%Forall_cons].
    apply Forall_app. split; [done|]. constructor; [|done].
    destruct (sa_call_tidy sa (k, v, OT._max_probes T) Hwf Ht) as [Ht' Hu'].
    unfold sa_call in Ht', Hu'. simpl in Ht', Hu'. rewrite Hins in Ht', Hu'.
    split; [done|]. intros k0. apply Hu', Hu.
  - split; [done|]. simpl. rewrite Hla in Hlast. destruct Hlast as [Hs Hu].
    pose proof (la_call_settled la (k, v) Hs) as Hs'.
    pose proof (la_call_unique la (k, v) Hs Hu) as Hu'.
    unfold la_call in Hs', Hu'. simpl in Hs', Hu'. rewrite Hins in Hs', Hu'. done.
Qed.

(** *** Slots of a key *)

Lemma free_tables k subs :
  Forall (fun sa => SS.free sa k) subs -> count_key k (tables subs) = 0.
Proof.
  induction 1 as [|sa subs Hf _ IH]; simpl; [done|].
  rewrite count_key_app, IH, (count_key_free k _ Hf). done.
Qed.

Lemma last_free_slots T k :
  last_free T k ->
  count_key k match OT._last_array T with Some la => la_slots la | None => [] end = 0.
Proof.
  unfold last_free. destruct (OT._last_array T) as [la|]; [apply la_free_count|done].
Qed.

Lemma absent_key_slots T k : absent T k -> count_key k (slots T) = 0.
Proof.
  intros [Hf Hl]. unfold slots.
  by rewrite count_key_app, free_tables, last_free_slots.
Qed.

Lemma la_holds_slots la k v :
  LS.wf la -> LS.safe la -> LS.holds_value la k v -> 1 <= count_key k (la_slots la).
Proof.
  intros Hwf [Hb Hc] [(i & _ & _ & Hslot & _)|[_ Hfound]]; unfold la_slots;
    rewrite count_key_app.
  - pose proof (count_key_nonneg k (concat (LastSubArray._c la))).
    assert (1 <= count_key k (LastSubArray._b la)); [|lia].
    eapply count_key_holds. by exists v.
  - pose proof (count_key_nonneg k (LastSubArray._b la)).
    assert (1 <= count_key k (concat (LastSubArray._c la))); [|lia].
    pose proof (LF.cand_range la k Hc) as [Hc1 Hc2].
    assert (Hin : forall j, 0 <= j < Z.of_nat (length (LastSubArray._c la)) ->
              ~ free_in (LS.nth_bucket (LastSubArray._c la) j) k ->
              1 <= count_key k (concat (LastSubArray._c la))).
    { intros j Hj Hnf. apply LF.nth_bucket_lookup in Hj.
      set (bucket := LS.nth_bucket (LastSubArray._c la) j) in *.
      apply list_elem_of_lookup_2, list_elem_of_split in Hj as (c1 & c2 & Heq).
      rewrite Heq, concat_app, count_key_app. simpl. rewrite count_key_app.
      pose proof (count_key_nonneg k (concat c1)).
      pose proof (count_key_nonneg k (concat c2)).
      pose proof (count_key_nonneg k bucket).
      destruct (decide (count_key k bucket = 0)) as [Hz|Hnz]; [|lia].
      destruct Hnf. by apply count_key_zero_free. }
    unfold LS.found in Hfound.
    destruct (LastSubArray.bucket_search k (LS.nth_bucket _ (LS.cand1 la k))) as [v1|] eqn:H1.
    + apply (Hin (LS.cand1 la k)); [done|]. intros Hf.
      by rewrite bucket_search_free in H1.
    + apply (Hin (LS.cand2 la k)); [done|]. intros Hf.
      by rewrite bucket_search_free in Hfound.
Qed.

(** A stored key occupies one slot of the whole table. *)
Lemma stored_key_slots T k v :
  wf T -> safe T -> tiers_ok T -> stored T k v -> count_key k (slots T) = 1.
Proof.
  intros [_ Hwfl] (_ & la0 & Hla0 & Hsl) [Hsubs Hlast]
    [(pre & sa & post & Heq & Hpre & Hsa & Hpost & Hlf)|(Hall & la & Hla & Hv)];
    unfold slots; rewrite count_key_app.
  - rewrite (last_free_slots T k Hlf), Heq, tables_middle, !count_key_app.
    rewrite (free_tables k pre) by by eapply rejects_free.
    rewrite (free_tables k post) by done.
    rewrite Heq in Hsubs. apply Forall_app in Hsubs as [_ [[_ Hu] _]%Forall_cons].
    destruct Hsa as (i & _ & _ & Hslot & _).
    assert (1 <= count_key k (SubArray._table sa)).
    { eapply count_key_holds. by exists v. }
    specialize (Hu k). lia.
  - rewrite (free_tables k _) by by eapply rejects_free.
    rewrite Hla in *. injection Hla0 as <-. destruct Hlast as [_ Hu]. destruct Hwfl as [Hwl _].
    pose proof (la_holds_slots la k v Hwl Hsl Hv). specialize (Hu k). lia.
Qed.

(** *** Tables that the operations can reach *)

Lemma empty_settled (la : LastSubArray.t Key Val) : LS.wf la -> LS.empty la -> settled la.
Proof.
  intros Hwf He. split; [done|].
  destruct (decide (2 <= LastSubArray._b_size la /\
                    2 <= Z.of_nat (length (LastSubArray._c la)))) as [Hs|Hns].
  - left. split; [done|]. intros k. left. by apply LF.la_empty_free.
  - right. by split.
Qed.

Lemma empty_tiers T :
  wf T -> empty T ->
  tiers_ok T /\ count_occupied (slots T) = 0 /\ tiers_count T = 0.
Proof.
  intros [Hwfs Hwfl] (Hes & Hel & _). split; [split|split].
  - eapply Forall_impl; [exact Hes|]. intros sa He. split.
    + intros k. left. by apply SF.sa_empty_free.
    + intros k. rewrite count_key_free; [lia|]. by apply SF.sa_empty_free.
  - destruct (OT._last_array T) as [la|]; [|done]. destruct Hwfl as [Hwl _].
    split; [by apply empty_settled|].
    intros k. rewrite la_free_count; [lia|]. by apply LF.la_empty_free.
  - apply count_occupied_empty. unfold slots. apply Forall_app. split.
    + clear Hwfs Hwfl. induction Hes as [|sa subs [He _] _ IH]; simpl; [constructor|].
      apply Forall_app. by split.
    + destruct (OT._last_array T) as [la|]; [|constructor].
      destruct Hel as (Hb & Hc & _). unfold la_slots. apply Forall_app. split; [done|].
      clear -Hc. induction Hc as [|bucket c Hbk _ IH]; simpl; [constructor|].
      apply Forall_app. by split.
  - unfold tiers_count.
    assert (counts (OT._subarrays T) = 0) as ->.
    { clear Hwfs Hwfl. induction Hes as [|sa subs [_ He] _ IH]; simpl; [done|lia]. }
    destruct (OT._last_array T) as [la|]; [|done]. by destruct Hel as (_ & _ & ->).
Qed.

(** What every reachable table satisfies besides [inv]: its tiers are
    sound one by one, the tiers count their occupied slots, and the
    table's own count is not below theirs. *)
Lemma insert_sound T k v :
  inv T -> tiers_ok T -> count_occupied (slots T) = tiers_count T ->
  tiers_count T <= OT._count T ->
  let T' := (OT.insert T k v).2 in
  tiers_ok T' /\ count_occupied (slots T') = tiers_count T' /\
  tiers_count T' <= OT._count T'.
Proof.
  intros Hinv Hok Hocc Hle T'. pose proof Hinv as [Hwf _].
  pose proof (insert_touched T k v) as Ht. fold T' in Ht.
  pose proof (touched_tiers_ok _ _ _ _ _ Hwf Hok Ht) as Hok'.
  split; [done|].
  destruct (touched_written _ _ _ _ _ Hwf Ht) as [[_ Heq]|(Hr & Hstep & _ & Hw)].
  { unfold T' in *. by rewrite Heq. }
  pose proof (written_occupied _ _ _ _ _ Hw) as Ho.
  pose proof (written_key _ _ _ _ _ Hw) as Hk.
  pose proof (written_grown _ _ _ _ _ Hw) as Hd.
  split; [lia|].
  destruct (insert_count T k v) as [Hup Hsame]. fold T' in Hup, Hsame.
  destruct (insert_cases T k v Hinv) as [[_ Hne]|(T1 & Hins & Hs & Hst & Hstep1 & _)];
    [done|].
  assert (T1 = T') as -> by (unfold T'; by rewrite Hins).
  pose proof (insert_inv T k v Hinv) as [Hwf' _]. fold T' in Hwf'.
  pose proof (stored_key_slots T' k v Hwf' (tbl_step_safe _ _ _ Hstep Hs) Hok' Hst) as Hone.
  destruct Hinv as [_ [[_ Hkeys]|[Hns _]]]; [|done].
  destruct (Hkeys k) as [Habs|[v0 Hst0]].
  - rewrite Hup; [lia|]. split; [by apply search_absent|done].
  - pose proof (stored_key_slots T k v0 Hwf Hs Hok Hst0) as Hone0.
    pose proof (count_key_nonneg k (slots T)).
    destruct (insert_count_step T k v) as [Hc|Hc]; fold T' in Hc; lia.
Qed.

End facts.
End TableMore.

(** ** Runs of operations *)

Module TableRuns.
Import TableSpec TableFacts TableInv.
Import SubArrayMore LastSubArrayMore TableMore.
Section facts.
Context {Key Val : Type} `{Hashable Key}.
Implicit Types (T : OT.t Key Val) (k : Key) (v : option Val)
  (subs pre post : list (SubArray.t Key Val)).

Lemma run_cons T o ops : OT.run T (o :: ops) = OT.run (OT.exec T o) ops.
Proof. done. Qed.

Lemma run_sound T ops :
  inv T -> tiers_ok T -> count_occupied (slots T) = tiers_count T ->
  tiers_count T <= OT._count T ->
  tiers_ok (OT.run T ops) /\
  count_occupied (slots (OT.run T ops)) = tiers_count (OT.run T ops) /\
  tiers_count (OT.run T ops) <= OT._count (OT.run T ops).
Proof.
  revert T. induction ops as [|o ops IH]; intros T Hinv Hok Hocc Hle; [done|].
  rewrite run_cons. destruct o as [k v| |]; simpl; [|by apply IH|by apply IH].
  destruct (insert_sound T k v Hinv Hok Hocc Hle) as (Hok' & Hocc' & Hle').
  apply IH; [by apply insert_inv|done|done|done].
Qed.

Lemma init_sound initial_size alpha max_probes T :
  OT.init initial_size alpha max_probes = Ok T ->
  inv T /\ wf T /\ empty T /\ tiers_ok T /\
  count_occupied (slots T) = 0 /\ tiers_count T = 0 /\ OT._count T = 0 /\
  OT._size T = initial_size.
Proof.
  intros Hinit.
  destruct (tbl_init_ok (Key:=Key) (Val:=Val) initial_size alpha max_probes)
    as (T' & Hinit' & Hwf & He & Hsz & _).
  rewrite Hinit in Hinit'. injection Hinit' as <-.
  destruct (empty_tiers T Hwf He) as (Hok & Hocc & Htc).
  split; [by eapply init_inv|]. do 5 (split; [done|]). split; [apply He|done].
Qed.

(** *** Tables into which no [None] was put *)

(** Every key is absent or stored with a value that is not [None]. *)
Lemma insert_valued T k (x : Val) :
  inv T -> tiers_ok T -> tiers_count T = OT._count T ->
  (safe T -> forall k0, absent T k0 \/ exists y : Val, stored T k0 (Some y)) ->
  let T' := (OT.insert T k (Some x)).2 in
  tiers_count T' = OT._count T' /\
  (safe T' -> forall k0, absent T' k0 \/ exists y : Val, stored T' k0 (Some y)).
Proof.
  intros Hinv Hok Hc Hval T'. pose proof Hinv as [Hwf _].
  pose proof (insert_touched T k (Some x)) as Ht. fold T' in Ht.
  pose proof (touched_tiers_ok _ _ _ _ _ Hwf Hok Ht) as Hok'.
  destruct (touched_written _ _ _ _ _ Hwf Ht) as [[_ Heq]|(Hr & Hstep & _ & Hw)].
  { unfold T' in *. by rewrite Heq. }
  pose proof (written_key _ _ _ _ _ Hw) as Hk.
  destruct (insert_count T k (Some x)) as [Hup Hsame]. fold T' in Hup, Hsame.
  destruct (insert_cases T k (Some x) Hinv)
    as [[_ Hne]|(T1 & Hins & Hs & Hst & Hstep1 & _)]; [done|].
  assert (T1 = T') as -> by (unfold T'; by rewrite Hins).
  pose proof (insert_inv T k (Some x) Hinv) as [Hwf' _]. fold T' in Hwf'.
  pose proof (stored_key_slots T' k _ Hwf' (tbl_step_safe _ _ _ Hstep Hs) Hok' Hst) as Hone.
  split.
  - destruct (Hval Hs k) as [Habs|[y Hst0]].
    + rewrite (absent_key_slots T k Habs) in Hk.
      rewrite Hup; [lia|]. split; [by apply search_absent|done].
    + pose proof (stored_key_slots T k _ Hwf Hs Hok Hst0) as Hone0.
      rewrite Hsame; [lia|]. intros [Hsearch _].
      by rewrite (search_stored T k (Some y)) in Hsearch.
  - intros _ k0. destruct (decide (k0 = k)) as [->|Hne]; [right; by exists x|].
    destruct (Hval Hs k0) as [Habs|[y Hst0]].
    + left. by eapply absent_step.
    + right. exists y. by eapply stored_step.
Qed.

Lemma run_valued T ops :
  inv T -> tiers_ok T -> tiers_count T = OT._count T ->
  (safe T -> forall k0, absent T k0 \/ exists y : Val, stored T k0 (Some y)) ->
  no_none_value ops ->
  tiers_count (OT.run T ops) = OT._count (OT.run T ops).
Proof.
  revert T. induction ops as [|o ops IH]; intros T Hinv Hok Hc Hval Hops; [done|].
  apply Forall_cons in Hops as [Ho Hops]. rewrite run_cons.
  destruct o as [k [x|]| |]; simpl; [|done|by apply IH|by apply IH].
  destruct (insert_valued T k x Hinv Hok Hc Hval) as [Hc' Hval'].
  apply IH; [by apply insert_inv| |done|done|done].
  eapply touched_tiers_ok; [apply Hinv|done|apply insert_touched].
Qed.

(** *** Entries stay in their slots *)

Lemma written_keeps k v (tbl tbl' : list (slot Key Val)) d (p : nat) k0 v0 :
  written k v tbl tbl' d -> tbl !! p = Some (Some (k0, v0)) ->
  exists v1, tbl' !! p = Some (Some (k0, v1)) /\ (k0 <> k -> v1 = v0).
Proof.
  intros (q & old & Hq & -> & Hold) Hp.
  destruct (decide (q = p)) as [->|Hqp].
  - rewrite Hq in Hp. injection Hp as ->.
    destruct Hold as [[? _]|[[v' [= -> ->]] _]]; [done|].
    exists v. split; [|done]. apply list_lookup_insert_eq. by eapply lookup_lt_Some.
  - exists v0. split; [|done]. by rewrite list_lookup_insert_ne.
Qed.

Lemma exec_keeps T o (p : nat) k0 v0 :
  wf T -> slots T !! p = Some (Some (k0, v0)) ->
  wf (OT.exec T o) /\ length (slots (OT.exec T o)) = length (slots T) /\
  exists v1, slots (OT.exec T o) !! p = Some (Some (k0, v1)) /\
    ((forall v, o <> OT.Insert k0 v) -> v1 = v0).
Proof.
  intros Hwf Hp. destruct o as [k v| |]; simpl; [|by eauto|by eauto].
  pose proof (insert_touched T k v) as Ht.
  split; [by eapply touched_wf|].
  destruct (touched_written _ _ _ _ _ Hwf Ht) as [[_ ->]|(_ & _ & _ & Hw)]; [by eauto|].
  split; [by eapply written_length|].
  destruct (written_keeps _ _ _ _ _ _ _ _ Hw Hp) as (v1 & Hv1 & Hsame).
  exists v1. split; [done|]. intros Hne. apply Hsame. intros ->. by destruct (Hne v).
Qed.

Lemma run_keeps T ops (p : nat) k0 v0 :
  wf T -> slots T !! p = Some (Some (k0, v0)) ->
  length (slots (OT.run T ops)) = length (slots T) /\
  exists v1, slots (OT.run T ops) !! p = Some (Some (k0, v1)) /\
    (Forall (fun o => forall v, o <> OT.Insert k0 v) ops -> v1 = v0).
Proof.
  revert T v0. induction ops as [|o ops IH]; intros T v0 Hwf Hp; [by eauto|].
  rewrite run_cons.
  destruct (exec_keeps T o p k0 v0 Hwf Hp) as (Hwf' & Hlen & v1 & Hv1 & Hsame).
  destruct (IH _ v1 Hwf' Hv1) as (Hlen' & v2 & Hv2 & Hsame').
  split; [lia|]. exists v2. split; [done|].
  intros [Ho Hops]%Forall_cons. rewrite <- (Hsame Ho). by apply Hsame'.
Qed.

(** *** A table with a zero modulus *)

Lemma search_subarrays_empty subs k :
  Forall SS.wf subs -> Forall SS.empty subs ->
  (Forall SS.safe subs /\ OT.search_subarrays subs k = Ok None) \/
  (~ Forall SS.safe subs /\ OT.search_subarrays subs k = Raise ZeroDivisionError).
Proof.
  induction subs as [|sa subs IH]; [by left|].
  intros [Hwf Hwfs]%Forall_cons [He Hes]%Forall_cons. simpl.
  destruct (decide (2 <= SubArray._size sa)) as [Hs|Hs].
  - rewrite SF.sa_search_free by eauto using SF.sa_empty_free. simpl.
    destruct (IH Hwfs Hes) as [[Hss ->]|[Hss ->]]; [left|right].
    + split; [by constructor|done].
    + split; [|done]. by intros [_ ?]%Forall_cons.
  - right. rewrite SF.sa_search_unsafe by done. split; [|done].
    by intros [? _]%Forall_cons.
Qed.

Lemma unsafe_raises T k v :
  wf T -> ~ safe T -> empty T -> 1 <= OT._size T -> OT._last_array T <> None ->
  OT.insert T k v = (Raise ZeroDivisionError, T) /\
  OT.search T k = Raise ZeroDivisionError.
Proof.
  intros Hwf Hns He Hsz Hlast. pose proof Hwf as [Hwfs Hwfl].
  pose proof He as (Hes & Hel & _).
  destruct (OT._last_array T) as [la|] eqn:Hla; [|done]. destruct Hwfl as [Hwl _].
  unfold OT.insert, OT.search.
  destruct (update_subarrays_empty (OT._subarrays T) k v (OT._max_probes T) Hwfs Hes)
    as [[Hss ->]|[Hnss ->]];
  destruct (search_subarrays_empty (OT._subarrays T) k Hwfs Hes)
    as [[Hss' ->]|[Hnss' ->]]; try done.
  rewrite Hla. simpl.
  rewrite LF.la_search_unsafe; [done|done| |done].
  intros Hsl. apply Hns. split; [done|]. by exists la.
Qed.

(** *** A table none of whose moduli is zero *)

Lemma safe_runs T k v :
  inv T -> safe T ->
  (exists b, (OT.insert T k v).1 = Ok b) /\ (exists r, OT.search T k = Ok r) /\
  safe (OT.insert T k v).2.
Proof.
  intros Hinv Hs. pose proof Hinv as [Hwf [[_ Hkeys]|[Hns _]]]; [|done].
  destruct (Hkeys k) as [Habs|[v0 Hst]].
  - split; [|split; [exists None; by apply search_absent|]].
    + destruct (insert_absent T k v Hwf Hs Habs)
        as [[_ ->]|[_ [->|(T' & -> & _)]]]; by eexists.
    + destruct (insert_absent T k v Hwf Hs Habs)
        as [[_ ->]|[_ [->|(T' & -> & _ & Hstep & _)]]]; [done|done|].
      by eapply tbl_step_safe.
  - split; [|split; [exists v0; by apply search_stored|]].
    + destruct (insert_stored T k v v0 Hwf Hs Hst) as [(_ & _ & ->)|(T' & -> & _)];
        by eexists.
    + destruct (insert_stored T k v v0 Hwf Hs Hst)
        as [(_ & _ & ->)|(T' & -> & _ & Hstep & _)]; [done|].
      by eapply tbl_step_safe.
Qed.

Lemma run_safe T ops : inv T -> safe T -> safe (OT.run T ops).
Proof.
  revert T. induction ops as [|o ops IH]; intros T Hinv Hs; [done|].
  rewrite run_cons. apply IH; [by apply exec_inv|].
  destruct o as [k v| |]; simpl; [|done|done]. by apply safe_runs.
Qed.

End facts.
End TableRuns.

(** ** The tiers that the constructor builds *)

Module TableInit.
Import TableSpec TableFacts TableInv.
Section facts.
Context {Key Val : Type} `{Hashable Key}.
Implicit Types (T : OT.t Key Val) (k : Key) (v : option Val).

#[local] Abbreviation tiers c l := (OT.init_subarrays (Key:=Key) (Val:=Val) c l).

Lemma pow2_pos i : 0 <= i -> 0 < 2 ^ i.
Proof. intros. apply Z.pow_pos_nonneg; lia. Qed.

Lemma div_pow2_succ c i : 0 <= i -> c `div` 2 ^ (i + 1) = (c `div` 2 ^ i) `div` 2.
Proof.
  intros Hi. rewrite Z.pow_add_r, Z.pow_1_r by lia.
  rewrite Z.div_div; [done| |lia]. pose proof (pow2_pos i Hi). lia.
Qed.

(** The loop of the constructor is left when [c // 2 ** i] is below 1,
    that is from [i = log2 c + 1] on. *)
Lemma tier_test c i : 1 <= c -> 0 <= i -> c `div` 2 ^ i < 1 <-> Z.log2 c < i.
Proof.
  intros Hc Hi. pose proof (pow2_pos i Hi).
  rewrite <- Z.log2_lt_pow2 by lia. split; intros Hlt.
  - destruct (decide (c < 2 ^ i)) as [|Hge]; [done|].
    assert (1 <= c `div` 2 ^ i); [|lia]. apply Z.div_le_lower_bound; lia.
  - apply Z.div_lt_upper_bound; lia.
Qed.

Lemma init_subarrays_nth c i (n j : nat) sa :
  0 <= i -> tiers c (seqZ i (Z.of_nat n)) !! j = Some sa ->
  sa = SubArray.init (c `div` 2 ^ (i + Z.of_nat j)) /\
  1 <= c `div` 2 ^ (i + Z.of_nat j) /\ (j < n)%nat.
Proof.
  revert i j. induction n as [|n IH]; intros i j Hi; [done|].
  rewrite seqZ_cons by lia. simpl.
  destruct (decide (c `div` 2 ^ i < 1)); [done|].
  replace (Z.pred (Z.of_nat (S n))) with (Z.of_nat n) by lia.
  destruct j as [|j]; simpl.
  - intros [= <-]. rewrite Z.add_0_r. split; [done|]. split; lia.
  - intros Hj. destruct (IH (Z.succ i) j ltac:(lia) Hj) as (-> & Hge & Hlt).
    replace (Z.succ i + Z.of_nat j) with (i + Z.of_nat (S j)) in * by lia.
    split; [done|]. split; [done|lia].
Qed.

Lemma init_subarrays_length c i (n : nat) :
  1 <= c -> 0 <= i ->
  Z.of_nat (length (tiers c (seqZ i (Z.of_nat n)))) =
  Z.min (Z.of_nat n) (Z.max 0 (Z.log2 c + 1 - i)).
Proof.
  intros Hc. revert i. induction n as [|n IH]; intros i Hi; [simpl; lia|].
  rewrite seqZ_cons by lia. simpl.
  pose proof (tier_test c i Hc Hi) as Htest.
  destruct (decide (c `div` 2 ^ i < 1)) as [Hlt|Hge]; simpl.
  - apply Htest in Hlt. lia.
  - replace (Z.pred (Z.of_nat (S n))) with (Z.of_nat n) by lia.
    assert (i <= Z.log2 c) by (destruct (decide (Z.log2 c < i)) as [Hl|]; [by apply Htest in Hl|lia]).
    rewrite Nat2Z.inj_succ, (IH (Z.succ i)) by lia. lia.
Qed.

(** With all the tiers present, they take at most twice the first size
    less the last one. *)
Lemma sum_sizes_full c i (m : nat) :
  0 <= i -> 1 <= c `div` 2 ^ (i + Z.of_nat m) ->
  OT.sum_sizes (tiers c (seqZ i (Z.of_nat (S m)))) <=
  2 * (c `div` 2 ^ i) - c `div` 2 ^ (i + Z.of_nat m).
Proof.
  revert i. induction m as [|m IH]; intros i Hi Hlast.
  - rewrite Z.add_0_r in *. rewrite seqZ_cons by lia. simpl.
    destruct (decide (c `div` 2 ^ i < 1)); [lia|]. simpl. lia.
  - rewrite seqZ_cons by lia.
    replace (Z.pred (Z.of_nat (S (S m)))) with (Z.of_nat (S m)) by lia.
    replace (i + Z.of_nat (S m)) with (Z.succ i + Z.of_nat m) in * by lia.
    specialize (IH (Z.succ i) ltac:(lia) Hlast).
    pose proof (div_pow2_succ c i Hi) as Hhalf.
    replace (i + 1) with (Z.succ i) in Hhalf by lia. rewrite Hhalf in IH.
    pose proof (Z.mul_div_le (c `div` 2 ^ i) 2 ltac:(lia)).
    assert (0 <= c `div` 2 ^ (Z.succ i + Z.of_nat m)) by lia.
    simpl. destruct (decide (c `div` 2 ^ i < 1)) as [Hlt|Hge]; simpl; [|lia].
    exfalso.
    assert (Hmono : c `div` 2 ^ (Z.succ i + Z.of_nat m) <= c `div` 2 ^ i).
    { assert (0 <= c).
      { destruct (decide (0 <= c)) as [|Hneg]; [done|].
        pose proof (pow2_pos (Z.succ i + Z.of_nat m) ltac:(lia)).
        assert (c `div` 2 ^ (Z.succ i + Z.of_nat m) < 0); [|lia].
        apply Z.div_lt_upper_bound; lia. }
      apply Z.div_le_compat_l; [done|]. split; [by apply pow2_pos|].
      apply Z.pow_le_mono_r; lia. }
    lia.
Qed.

(** What the constructor builds, field by field. *)
Lemma init_fields initial_size alpha max_probes T :
  OT.init initial_size alpha max_probes = Ok T ->
  let subs := tiers (initial_size `div` 2) (range alpha) in
  OT._subarrays T = subs /\ OT._size T = initial_size /\ OT._alpha T = alpha /\
  OT._max_probes T = max_probes /\ OT._count T = 0 /\
  (initial_size - OT.sum_sizes subs > 0 ->
   exists la, OT._last_array T = Some la /\
     LastSubArray.init (initial_size - OT.sum_sizes subs) = Ok la) /\
  (~ initial_size - OT.sum_sizes subs > 0 -> OT._last_array T = None).
Proof.
  intros Hinit subs. unfold OT.init in Hinit. fold subs in Hinit.
  destruct (decide (initial_size - OT.sum_sizes subs > 0)) as [Hpos|Hnpos].
  - destruct (LastSubArray.init (initial_size - OT.sum_sizes subs)) as [la|e] eqn:Hla;
      simpl in Hinit; [|done].
    injection Hinit as <-. simpl. do 5 (split; [done|]). split; [|done].
    intros _. by exists la.
  - simpl in Hinit. injection Hinit as <-. simpl. by do 5 (split; [done|]).
Qed.

(** A capacity of at least [9 * 2 ^ alpha] leaves no modulus at zero. *)
Lemma roomy_safe initial_size alpha max_probes T :
  0 <= alpha -> 9 * 2 ^ alpha <= initial_size ->
  OT.init initial_size alpha max_probes = Ok T -> safe T.
Proof.
  intros Ha Hroom Hinit.
  destruct (init_fields _ _ _ _ Hinit) as (Hsubs & _ & _ & _ & _ & Hlast & _).
  set (c := initial_size `div` 2) in *.
  pose proof (pow2_pos alpha Ha) as Hpow.
  assert (Hc : 2 * c <= initial_size < 2 * c + 2).
  { unfold c. pose proof (Z.div_mod initial_size 2 ltac:(lia)).
    pose proof (Z.mod_pos_bound initial_size 2). lia. }
  assert (Hsum : OT.sum_sizes (tiers c (range alpha)) <= initial_size - 9).
  { destruct (decide (alpha = 0)) as [->|Hne]; [simpl in *; lia|].
    assert (Hp : 2 ^ alpha = 2 * 2 ^ (alpha - 1)).
    { replace alpha with (1 + (alpha - 1)) at 1 by lia. by rewrite Z.pow_add_r by lia. }
    pose proof (pow2_pos (alpha - 1) ltac:(lia)).
    assert (Hlast9 : 9 <= c `div` 2 ^ (alpha - 1)) by (apply Z.div_le_lower_bound; lia).
    unfold range. replace alpha with (Z.of_nat (S (Z.to_nat (alpha - 1)))) at 1 by lia.
    pose proof (sum_sizes_full c 0 (Z.to_nat (alpha - 1)) ltac:(lia)) as Hfull.
    rewrite Z.add_0_l, Z2Nat.id, Z.pow_0_r, Z.div_1_r in Hfull by lia.
    specialize (Hfull ltac:(lia)). lia. }
  destruct (Hlast ltac:(lia)) as (la & Hla & Hinitl).
  split.
  - rewrite Hsubs. apply Forall_lookup. intros j sa Hj.
    rewrite range_of_nat in Hj.
    destruct (init_subarrays_nth c 0 _ j sa ltac:(lia) Hj) as (-> & _ & Hlt).
    unfold SS.safe. simpl. rewrite Z.add_0_l.
    assert (Hp : 2 ^ alpha = 2 ^ (Z.of_nat j) * 2 ^ (alpha - Z.of_nat j)).
    { rewrite <- Z.pow_add_r by lia. f_equal. lia. }
    pose proof (pow2_pos (Z.of_nat j) ltac:(lia)).
    assert (2 <= 2 ^ (alpha - Z.of_nat j)).
    { change 2 with (2 ^ 1) at 1. apply Z.pow_le_mono_r; lia. }
    apply Z.div_le_lower_bound; [lia|]. nia.
  - exists la. split; [done|].
    apply (LastInit.init_safe_iff (initial_size - OT.sum_sizes (tiers c (range alpha))) la);
      [lia|done|lia].
Qed.

End facts.
End TableInit.

(** ** The properties *)

Module Further.
Import TableSpec TableFacts TableInv.
Import SubArrayMore LastSubArrayMore LastInit TableMore TableRuns TableInit.

Section tiers.
Context {Key Val : Type} `{Hashable Key}.
Implicit Types (k : Key) (v : option Val).

Lemma inject_div_range (c s : Z) :
  1 <= s -> 0 <= c <= s -> (0 <= inject_Z c / inject_Z s <= 1)%Q.
Proof.
  intros Hs Hc. destruct s as [|p|p]; [lia| |lia].
  unfold Qle, Qdiv, Qmult, Qinv, inject_Z. simpl. lia.
Qed.

(** X4. Round trip on a uniform tier used on its own, in any state of
    the shape the constructor gives: once [insert(k, v, max_probes)] has
    returned [True], [search(k)] returns [v], and goes on returning it
    after any calls of [insert] for other keys, whatever their probe
    bounds. *)
Theorem uniform_round_trip (sa sa' : SubArray.t Key Val) k v mp calls :
  SS.wf sa ->
  SubArray.insert sa k v mp = Ok (true, sa') ->
  Forall (fun c => c.1.1 <> k) calls ->
  SubArray.search (sub_after sa' calls) k = Ok v.
Proof.
  intros Hwf Hins Hcalls.
  destruct (sa_insert_written sa k v mp true sa' Hwf Hins)
    as [[? _]|(_ & Hs & Hsz & _ & i & _ & Hat)]; [done|].
  destruct (sa_insert_step sa k v mp true sa' Hwf Hins) as [Hwf' _].
  pose proof (sub_after_at_probe sa' calls k i v Hwf' Hcalls Hat) as Hat'.
  apply (SF.search_at _ k i v).
  - by apply sub_after_wf.
  - unfold SS.safe in *. rewrite sub_after_size by done. lia.
  - by rewrite sub_after_size.
Qed.

(** X5. When a uniform tier refuses: on a tier of the constructor's
    shape with at least two slots, [insert(k, v, max_probes)] never
    raises, it returns [False] exactly when the first [max_probes]
    probe positions of [k] all hold other keys, and the tier is then
    unchanged. *)
Theorem uniform_refusal (sa : SubArray.t Key Val) k v mp :
  SS.wf sa -> SS.safe sa ->
  exists b sa', SubArray.insert sa k v mp = Ok (b, sa') /\
    (b = false <->
     forall j, 0 <= j < mp ->
       other k (nth_slot (SubArray._table sa) (probe (SubArray._size sa) k j))) /\
    (b = false -> sa' = sa).
Proof.
  intros Hwf Hs.
  destruct (sa_insert_cases sa k v mp Hwf Hs)
    as [(i & v0 & Hi & (_ & Hslot & _) & ->)|[(i & Hi & Hnone & _ & ->)|[Hall ->]]];
    eexists _, _; (split; [done|]); (split; [|done]).
  - split; [done|]. intros Hall. specialize (Hall i Hi). rewrite Hslot in Hall.
    destruct Hall as (k' & v' & [= <- _] & ?). done.
  - split; [done|]. intros Hall. specialize (Hall i Hi). rewrite Hnone in Hall.
    by apply other_not_None in Hall.
  - done.
Qed.

(** X6. The count of a uniform tier is its number of occupied slots:
    after [SubArray(size)] and any calls of [insert], [_count] equals
    the number of slots that are not [None], lies between 0 and the
    size, and for a size of at least 1 [load_factor] is that number
    over the size, between 0 and 1. *)
Theorem uniform_count (size : Z) (calls : list (Key * option Val * Z)) :
  SubArray._size (sub_after (SubArray.init size) calls) = size /\
  SubArray._count (sub_after (SubArray.init size) calls) =
    count_occupied (SubArray._table (sub_after (SubArray.init size) calls)) /\
  0 <= SubArray._count (sub_after (SubArray.init size) calls) <= Z.max 0 size /\
  (1 <= size ->
   SubArray.load_factor (sub_after (SubArray.init size) calls) =
     Ok (inject_Z (count_occupied (SubArray._table (sub_after (SubArray.init size) calls)))
         / inject_Z size)%Q /\
   (0 <= inject_Z (count_occupied (SubArray._table (sub_after (SubArray.init size) calls)))
         / inject_Z size <= 1)%Q).
Proof.
  destruct (decide (1 <= size)) as [Hs|Hs].
  - pose proof (SF.init_wf (Key:=Key) (Val:=Val) size Hs) as Hwf.
    pose proof (sub_after_wf _ calls Hwf) as [_ Hlen].
    pose proof (sub_after_size _ calls Hwf) as Hsz. simpl in Hsz.
    assert (Hc : SubArray._count (sub_after (SubArray.init size) calls) =
                 count_occupied (SubArray._table (sub_after (SubArray.init size) calls))).
    { apply sub_after_count; [done|]. simpl. symmetry.
      apply count_occupied_empty, all_empty_replicate. }
    pose proof (count_occupied_range
                  (SubArray._table (sub_after (SubArray.init size) calls))) as Hr.
    rewrite Hlen, Hsz in Hr.
    split; [done|]. split; [done|]. split; [lia|]. intros _. split.
    + unfold SubArray.load_factor. rewrite Hsz, Hc.
      by destruct (decide (size = 0)); [lia|].
    + apply inject_div_range; lia.
  - rewrite sub_after_nonpos by lia. simpl.
    replace (Z.to_nat size) with 0%nat by lia. simpl. split; [done|]. split; [done|].
    split; [lia|]. intros ?. lia.
Qed.

(** X7. A uniform tier holds no key twice: after [SubArray(size)] and
    any calls of [insert], with any probe bounds, every key is in at
    most one slot. *)
Theorem uniform_key_once (size : Z) (calls : list (Key * option Val * Z)) k :
  count_key k (SubArray._table (sub_after (SubArray.init size) calls)) <= 1.
Proof.
  destruct (decide (1 <= size)) as [Hs|Hs].
  - apply sub_after_tidy.
    + by apply SF.init_wf.
    + intros k0. left. apply SF.sa_empty_free, SF.init_empty.
    + intros k0. rewrite count_key_empty; [lia|]. apply all_empty_replicate.
  - rewrite sub_after_nonpos by lia. simpl.
    replace (Z.to_nat size) with 0%nat by lia. simpl. lia.
Qed.

(** A terminal tier that the constructor returned had a size of at
    least 1. *)
Lemma la_init_pos size (la : LastSubArray.t Key Val) :
  LastSubArray.init size = Ok la -> 1 <= size.
Proof.
  unfold LastSubArray.init, loglog. intros Hinit.
  destruct (decide (size + 1 <= 0)); [done|].
  destruct (decide (size = 0)) as [->|]; [done|lia].
Qed.

(** The tier that the constructor builds for a size of at least 1. *)
Lemma la_init_slots (size : Z) :
  1 <= size ->
  exists la : LastSubArray.t Key Val,
    LastSubArray.init size = Ok la /\
    LastSubArray._size la = size /\
    LastSubArray._b_size la = size `div` 2 /\
    LastSubArray._c_size la = size - size `div` 2 /\
    LastSubArray._bucket_size la = 2 * Z.log2 (Z.log2 (size + 1) + 1) /\
    2 <= LastSubArray._bucket_size la /\
    length (LastSubArray._b la) = Z.to_nat (size `div` 2) /\
    Forall (fun bucket => length bucket = Z.to_nat (LastSubArray._bucket_size la))
           (LastSubArray._c la) /\
    size <= Z.of_nat (length (la_slots la)) < size + LastSubArray._bucket_size la /\
    all_empty (la_slots la) /\
    LastSubArray._count la = 0.
Proof.
  intros Hs.
  destruct (LF.la_init_ok (Key:=Key) (Val:=Val) size Hs) as (la & Hinit & _).
  exists la. split; [done|].
  rewrite (la_init_fields size la Hs Hinit). simpl.
  pose proof (LF.loglog_pos size Hs) as Hll.
  set (bs := 2 * Z.log2 (Z.log2 (size + 1) + 1)) in *.
  set (c := size - size `div` 2).
  assert (Hb : 0 <= size `div` 2) by (apply Z.div_pos; lia).
  assert (Hq : 0 <= (c + bs - 1) `div` bs).
  { apply Z.div_pos; [|lia]. unfold c.
    pose proof (Z.mul_div_le size 2 ltac:(lia)). lia. }
  do 4 (split; [done|]). split; [lia|]. split; [by rewrite length_replicate|].
  split; [apply Forall_replicate; by rewrite length_replicate|].
  split; [|split; [|done]].
  - unfold la_slots. simpl.
    rewrite length_app, length_replicate, concat_replicate_length.
    pose proof (Z.div_mod (c + bs - 1) bs ltac:(lia)) as Hdm.
    pose proof (Z.mod_pos_bound (c + bs - 1) bs ltac:(lia)) as Hmb.
    assert (Hlen : Z.of_nat (Z.to_nat (size `div` 2) +
                             Z.to_nat ((c + bs - 1) `div` bs) * Z.to_nat bs) =
                   size `div` 2 + bs * ((c + bs - 1) `div` bs)) by lia.
    rewrite Hlen. unfold c in *. lia.
  - unfold la_slots. simpl. apply Forall_app. split; [apply all_empty_replicate|].
    apply concat_replicate_empty.
Qed.

(** X8. What [LastSubArray(size)] builds. For a size of at least 1:
    part B has [size // 2] slots, the buckets of part C have
    [2 * int(log2(log2(size + 1) + 1))] slots each, which is at least 2,
    there are just enough buckets for the [size - size // 2] slots of
    part C, so that the tier has at least [size] slots and fewer than
    [size] plus one bucket, every slot is empty and the count is 0. The
    size 0 raises [ZeroDivisionError], and a negative size raises
    [ValueError]. *)
Theorem terminal_constructor (size : Z) :
  (1 <= size ->
   exists la : LastSubArray.t Key Val,
     LastSubArray.init size = Ok la /\
     LastSubArray._size la = size /\
     LastSubArray._b_size la = size `div` 2 /\
     LastSubArray._c_size la = size - size `div` 2 /\
     LastSubArray._bucket_size la = 2 * Z.log2 (Z.log2 (size + 1) + 1) /\
     2 <= LastSubArray._bucket_size la /\
     length (LastSubArray._b la) = Z.to_nat (size `div` 2) /\
     Forall (fun bucket => length bucket = Z.to_nat (LastSubArray._bucket_size la))
            (LastSubArray._c la) /\
     size <= Z.of_nat (length (la_slots la)) < size + LastSubArray._bucket_size la /\
     all_empty (la_slots la) /\
     LastSubArray._count la = 0) /\
  (size = 0 ->
   LastSubArray.init (Key:=Key) (Val:=Val) size = Raise ZeroDivisionError) /\
  (size < 0 -> LastSubArray.init (Key:=Key) (Val:=Val) size = Raise ValueError).
Proof.
  split; [apply la_init_slots|split].
  - intros ->. reflexivity.
  - intros Hneg. unfold LastSubArray.init, loglog.
    by destruct (decide (size + 1 <= 0)); [|lia].
Qed.

Lemma la_after_safe (la : LastSubArray.t Key Val) calls :
  LS.wf la -> LS.safe la -> LS.safe (la_after la calls).
Proof.
  revert la. induction calls as [|c calls IH]; intros la Hwf Hs; [done|].
  rewrite la_after_cons. destruct (la_call_step la c Hwf) as [Hwf' Hstep].
  apply IH; [done|by eapply LF.la_step_safe].
Qed.

Lemma la_after_unsafe (la : LastSubArray.t Key Val) calls :
  LS.wf la -> ~ LS.safe la -> LS.empty la -> la_after la calls = la.
Proof.
  intros Hwf Hns He. induction calls as [|c calls IH]; [done|].
  rewrite la_after_cons. unfold la_call. by rewrite la_insert_unsafe.
Qed.

(** X9. The sizes at which a terminal tier works. Let [LastSubArray(size)]
    have been built, and any calls of [insert] made. For the sizes 5, 6
    and 9 onward no call of [insert] or [search] raises. For every other
    size (1 to 4, 7 and 8) every call of [insert] and of [search] raises
    [ZeroDivisionError], for every key, and the tier stays empty: part B
    has fewer than two slots or part C fewer than two buckets, and
    [_hash_b] or [_hash_c] takes a remainder modulo 0. *)
Theorem terminal_usable_sizes (size : Z) (la : LastSubArray.t Key Val) calls k v :
  LastSubArray.init size = Ok la ->
  ((size = 5 \/ size = 6 \/ 9 <= size) ->
   (exists b la', LastSubArray.insert (la_after la calls) k v = Ok (b, la')) /\
   (exists r, LastSubArray.search (la_after la calls) k = Ok r)) /\
  (~ (size = 5 \/ size = 6 \/ 9 <= size) ->
   la_after la calls = la /\
   LastSubArray.insert la k v = Raise ZeroDivisionError /\
   LastSubArray.search la k = Raise ZeroDivisionError).
Proof.
  intros Hinit. pose proof (la_init_pos size la Hinit) as Hs.
  pose proof (init_safe_iff size la Hs Hinit) as Hiff.
  destruct (LF.la_init_ok (Key:=Key) (Val:=Val) size Hs) as (la0 & Hinit0 & Hwf & He & _).
  rewrite Hinit in Hinit0. injection Hinit0 as <-.
  split.
  - intros Hgood. apply Hiff in Hgood.
    pose proof (la_after_safe la calls Hwf Hgood) as Hs'.
    destruct (la_after_settled la calls (empty_settled la Hwf He))
      as [Hwf' [[_ Hkeys]|[Hns _]]]; [|done].
    destruct (Hkeys k) as [Hf|[v0 Hv0]].
    + split; [|exists None; by apply LF.la_search_free].
      destruct (LF.la_insert_free _ k v Hwf' Hs' Hf) as [->|(la' & -> & _)]; by eexists _, _.
    + split; [|exists v0; by apply LF.search_holds].
      destruct (LF.la_insert_holds _ k v v0 Hwf' Hs' Hv0) as (la' & -> & _). by eexists _, _.
  - intros Hbad. assert (Hns : ~ LS.safe la) by (intros Hsafe; by apply Hbad, Hiff).
    split; [by apply la_after_unsafe|].
    split; [by apply la_insert_unsafe|by apply LF.la_search_unsafe].
Qed.

(** X10. Round trip on a terminal tier used on its own: after
    [LastSubArray(size)] and any calls of [insert], once [insert(k, v)]
    has returned [True], [search(k)] returns [v], and goes on returning
    it after any calls of [insert] for other keys. *)
Theorem terminal_round_trip (size : Z) (la0 la1 : LastSubArray.t Key Val)
    calls1 k v calls2 :
  LastSubArray.init size = Ok la0 ->
  LastSubArray.insert (la_after la0 calls1) k v = Ok (true, la1) ->
  Forall (fun c => c.1 <> k) calls2 ->
  LastSubArray.search (la_after la1 calls2) k = Ok v.
Proof.
  intros Hinit Hins Hcalls. pose proof (la_init_pos size la0 Hinit) as Hs.
  pose proof (la_after_settled la0 calls1 (init_settled size la0 Hinit Hs)) as Hset.
  destruct (settled_insert_true _ k v la1 Hset Hins) as (Hwf1 & Hs1 & Hv1 & _).
  destruct (la_after_holds la1 calls2 k v Hwf1 Hs1 Hv1 Hcalls) as (Hwf2 & Hs2 & Hv2).
  by apply LF.search_holds.
Qed.

Lemma la_after_shape (la : LastSubArray.t Key Val) calls :
  LS.wf la ->
  length (la_slots (la_after la calls)) = length (la_slots la) /\
  LastSubArray._size (la_after la calls) = LastSubArray._size la /\
  LastSubArray._bucket_size (la_after la calls) = LastSubArray._bucket_size la.
Proof.
  revert la. induction calls as [|c calls IH]; intros la Hwf; [done|].
  rewrite la_after_cons. destruct (la_call_step la c Hwf) as [Hwf' Hstep].
  destruct (IH _ Hwf') as (-> & -> & ->).
  split; [|split; apply Hstep].
  unfold la_call. destruct (LastSubArray.insert la c.1 c.2) as [[b la']|e] eqn:Hins; [|done].
  destruct (la_insert_written la c.1 c.2 b la' Hwf Hins) as [[_ ->]|(_ & _ & Hw)]; [done|].
  by eapply written_length.
Qed.

(** X11. The count of a terminal tier is its number of occupied slots:
    after [LastSubArray(size)] and any calls of [insert], [_count]
    equals the number of slots of parts B and C that are not [None]. It
    is bounded by the number of slots, which is below [size] plus one
    bucket (and may exceed [size]), and [load_factor] is the count over
    [size]. *)
Theorem terminal_count (size : Z) (la : LastSubArray.t Key Val) calls :
  LastSubArray.init size = Ok la ->
  LastSubArray._count (la_after la calls) = count_occupied (la_slots (la_after la calls)) /\
  0 <= LastSubArray._count (la_after la calls) <
    size + LastSubArray._bucket_size la /\
  LastSubArray.load_factor (la_after la calls) =
    Ok (inject_Z (count_occupied (la_slots (la_after la calls))) / inject_Z size)%Q.
Proof.
  intros Hinit. pose proof (la_init_pos size la Hinit) as Hs.
  destruct (la_init_slots size Hs)
    as (la0 & Hinit0 & Hsz & _ & _ & _ & _ & _ & _ & Hlen & Hempty & Hc0).
  rewrite Hinit in Hinit0. injection Hinit0 as <-.
  destruct (LF.la_init_ok (Key:=Key) (Val:=Val) size Hs) as (la0 & Hinit0 & Hwf & _).
  rewrite Hinit in Hinit0. injection Hinit0 as <-.
  assert (Hc : LastSubArray._count (la_after la calls) =
               count_occupied (la_slots (la_after la calls))).
  { apply la_after_count; [done|]. rewrite Hc0. symmetry. by apply count_occupied_empty. }
  destruct (la_after_shape la calls Hwf) as (Hlen' & Hsz' & _).
  pose proof (count_occupied_range (la_slots (la_after la calls))) as Hr.
  split; [done|]. split; [lia|].
  unfold LastSubArray.load_factor. rewrite Hsz', Hsz, Hc.
  by destruct (decide (size = 0)); [lia|].
Qed.

(** X12. A terminal tier holds no key twice: after [LastSubArray(size)]
    and any calls of [insert], every key is in at most one slot of
    parts B and C together. *)
Theorem terminal_key_once (size : Z) (la : LastSubArray.t Key Val) calls k :
  LastSubArray.init size = Ok la ->
  count_key k (la_slots (la_after la calls)) <= 1.
Proof.
  intros Hinit. pose proof (la_init_pos size la Hinit) as Hs.
  destruct (LF.la_init_ok (Key:=Key) (Val:=Val) size Hs) as (la0 & Hinit0 & Hwf & He & _).
  rewrite Hinit in Hinit0. injection Hinit0 as <-.
  apply la_after_unique; [by apply empty_settled|].
  intros k0. rewrite la_free_count; [lia|]. by apply LF.la_empty_free.
Qed.

End tiers.

Section table.
Context {Key Val : Type} `{Hashable Key}.
Implicit Types (T : OT.t Key Val) (k : Key) (v : option Val).

(** X13. The uniform tiers of a constructed table. Tier [j] is
    [SubArray((initial_size // 2) // 2 ** j)], of a size of at least 1,
    and [j] is below the tier count [alpha]; the sizes fall strictly
    from one tier to the next; and the number of tiers is the smaller of
    [alpha] and [log2(initial_size // 2) + 1] (rounded down), and 0 when
    [initial_size // 2] is below 1. *)
Theorem tier_sizes initial_size alpha max_probes T :
  OT.init initial_size alpha max_probes = Ok T ->
  (forall (j : nat) sa, OT._subarrays T !! j = Some sa ->
     sa = SubArray.init ((initial_size `div` 2) `div` 2 ^ Z.of_nat j) /\
     1 <= SubArray._size sa /\ Z.of_nat j < alpha) /\
  (forall (j : nat) sa sb,
     OT._subarrays T !! j = Some sa -> OT._subarrays T !! S j = Some sb ->
     SubArray._size sb < SubArray._size sa) /\
  (1 <= initial_size `div` 2 ->
   Z.of_nat (length (OT._subarrays T)) =
   Z.min (Z.max 0 alpha) (Z.log2 (initial_size `div` 2) + 1)) /\
  (initial_size `div` 2 < 1 -> OT._subarrays T = []).
Proof.
  intros Hinit. destruct (init_fields _ _ _ _ Hinit) as (Hsubs & _).
  rewrite Hsubs, range_of_nat. clear Hsubs Hinit.
  set (c := initial_size `div` 2).
  assert (Hnth : forall (j : nat) (sa : SubArray.t Key Val),
    OT.init_subarrays c (seqZ 0 (Z.of_nat (Z.to_nat alpha))) !! j = Some sa ->
    sa = SubArray.init (c `div` 2 ^ Z.of_nat j) /\
    1 <= SubArray._size sa /\ Z.of_nat j < alpha).
  { intros j sa Hj.
    destruct (init_subarrays_nth c 0 _ j sa ltac:(lia) Hj) as (-> & Hge & Hlt).
    rewrite Z.add_0_l in *. split; [done|]. split; [done|lia]. }
  split; [done|]. split; [|split].
  - intros j sa sb Hj Hj'.
    destruct (Hnth j sa Hj) as (-> & Hge & _). destruct (Hnth (S j) sb Hj') as (-> & _ & _).
    simpl in *. replace (Z.of_nat (S j)) with (Z.of_nat j + 1) by lia.
    rewrite div_pow2_succ by lia.
    apply Z.div_lt; lia.
  - intros Hc. rewrite init_subarrays_length by lia.
    pose proof (Z.log2_nonneg c). lia.
  - intros Hc. apply init_subarrays_nonpos; [lia|]. apply Forall_seqZ. lia.
Qed.

(** X14. A call of [insert] that returns [True] writes one slot. On any
    table of the constructor's shape, whatever its contents: the slots
    of the table after the call are those before it but for one slot,
    which was empty or held [k] and now holds [(k, v)]; the tier that
    took the call counted one more entry exactly when the slot was
    empty; and sizes and probe bound are as before. *)
Theorem insert_writes_one_slot T k v T' :
  wf T ->
  OT.insert T k v = (Ok true, T') ->
  written k v (slots T) (slots T') (tiers_count T' - tiers_count T) /\
  OT._size T' = OT._size T /\ OT._max_probes T' = OT._max_probes T /\
  OT._alpha T' = OT._alpha T /\ total_capacity T' = total_capacity T.
Proof.
  intros Hwf Hins. pose proof (insert_touched T k v) as Ht. rewrite Hins in Ht.
  destruct (touched_written _ _ _ _ _ Hwf Ht) as [[? _]|(_ & Hstep & Ha & Hw)]; [done|].
  split; [done|]. destruct (step_sizes _ _ _ Hstep) as [Hsz Hcap].
  split; [done|]. split; [apply Hstep|]. by split.
Qed.

(** X15. Each key occupies at most one slot across the whole table: on
    a table built by the constructor and taken through any operations,
    the uniform tiers and the terminal tier together hold a key in at
    most one slot. *)
Theorem key_in_one_slot initial_size alpha max_probes T0 ops k :
  OT.init initial_size alpha max_probes = Ok T0 ->
  count_key k (slots (OT.run T0 ops)) <= 1.
Proof.
  intros Hinit.
  destruct (init_sound _ _ _ _ Hinit) as (Hinv & _ & _ & Hok & Hocc & Htc & Hc & _).
  destruct (run_sound T0 ops Hinv Hok ltac:(lia) ltac:(lia)) as (Hok' & _).
  pose proof (run_inv _ ops Hinv) as [Hwf [[Hs Hkeys]|[_ He]]].
  - destruct (Hkeys k) as [Habs|[v Hst]].
    + rewrite absent_key_slots by done. lia.
    + by rewrite (stored_key_slots _ k v).
  - rewrite absent_key_slots; [lia|]. by apply empty_absent.
Qed.

(** X16. What the count counts. On a table built by the constructor and
    taken through any operations, the counts that the tiers keep add up
    to the number of occupied slots, and the table's own count, the
    numerator of [load_factor], is at least that number; it is that
    number when no operation inserted the value [None]. *)
Theorem count_covers_occupancy initial_size alpha max_probes T0 ops :
  OT.init initial_size alpha max_probes = Ok T0 ->
  tiers_count (OT.run T0 ops) = count_occupied (slots (OT.run T0 ops)) /\
  count_occupied (slots (OT.run T0 ops)) <= OT._count (OT.run T0 ops) /\
  (no_none_value ops ->
   OT._count (OT.run T0 ops) = count_occupied (slots (OT.run T0 ops))).
Proof.
  intros Hinit.
  destruct (init_sound _ _ _ _ Hinit) as (Hinv & _ & He & Hok & Hocc & Htc & Hc & _).
  destruct (run_sound T0 ops Hinv Hok ltac:(lia) ltac:(lia)) as (_ & Hocc' & Hle').
  split; [done|]. split; [lia|]. intros Hops.
  rewrite Hocc'. symmetry. apply run_valued; [done|done|lia| |done].
  intros _ k0. left. by apply empty_absent.
Qed.

(** X17. No reordering: an entry never leaves its slot. On any table of
    the constructor's shape, a slot that holds key [k0] holds [k0]
    after any operations, with the same value when none of them is an
    insert of [k0]; and the number of slots never changes. *)
Theorem entries_stay T ops (p : nat) k0 (v0 : option Val) :
  wf T ->
  slots T !! p = Some (Some (k0, v0)) ->
  length (slots (OT.run T ops)) = length (slots T) /\
  exists v1, slots (OT.run T ops) !! p = Some (Some (k0, v1)) /\
    (Forall (fun o => forall v, o <> OT.Insert k0 v) ops -> v1 = v0).
Proof. apply run_keeps. Qed.

(** X18. When the count grows. For every table, key and value: the
    table's count grows by one when [search(k)] answers [None] and
    [insert(k, v)] answers [True], and stays as it is in every other
    case. *)
Theorem count_change T k v :
  (OT.search T k = Ok None /\ (OT.insert T k v).1 = Ok true ->
   OT._count (OT.insert T k v).2 = OT._count T + 1) /\
  (~ (OT.search T k = Ok None /\ (OT.insert T k v).1 = Ok true) ->
   OT._count (OT.insert T k v).2 = OT._count T).
Proof. apply insert_count. Qed.

(** X19. A table with a zero modulus never works. Let a table be built
    with a capacity of at least 1, and let one of its tiers have a zero
    modulus (a uniform tier of size 1, a terminal tier with fewer than
    two slots in part B or fewer than two buckets). Then every [insert]
    and every [search] raises [ZeroDivisionError], for every key, and
    no operation changes the table. *)
Theorem zero_modulus_raises initial_size alpha max_probes T0 ops k v :
  OT.init initial_size alpha max_probes = Ok T0 ->
  1 <= initial_size ->
  ~ safe T0 ->
  OT.run T0 ops = T0 /\
  OT.insert T0 k v = (Raise ZeroDivisionError, T0) /\
  OT.search T0 k = Raise ZeroDivisionError.
Proof.
  intros Hinit Hsz Hns.
  destruct (init_sound _ _ _ _ Hinit) as (_ & Hwf & He & _ & _ & _ & _ & Hsize).
  destruct (init_fields _ _ _ _ Hinit) as (_ & _ & _ & _ & _ & Hlast & _).
  pose proof (sum_sizes_lt (Key:=Key) (Val:=Val) initial_size alpha Hsz) as Hlt.
  destruct (Hlast ltac:(lia)) as (la & Hla & _).
  assert (Hraise : forall k' v',
    OT.insert T0 k' v' = (Raise ZeroDivisionError, T0) /\
    OT.search T0 k' = Raise ZeroDivisionError).
  { intros k' v'. apply unsafe_raises; [done|done|done|lia|by rewrite Hla]. }
  split; [|apply Hraise].
  induction ops as [|o ops IH]; [done|]. rewrite run_cons.
  destruct o as [k' v'| |]; simpl; [|done|done].
  by rewrite (proj1 (Hraise k' v')).
Qed.

(** X20. A roomy table never raises. For a tier count [alpha] of at
    least 0 and a capacity of at least [9 * 2 ** alpha] (18 for
    [delta = 0.1]), on the table built by the constructor and taken
    through any operations, [insert], [search] and [load_factor] all
    return. *)
Theorem roomy_table_never_raises initial_size alpha max_probes T0 ops k v :
  0 <= alpha ->
  9 * 2 ^ alpha <= initial_size ->
  OT.init initial_size alpha max_probes = Ok T0 ->
  (exists b, (OT.insert (OT.run T0 ops) k v).1 = Ok b) /\
  (exists r, OT.search (OT.run T0 ops) k = Ok r) /\
  (exists q, OT.load_factor (OT.run T0 ops) = Ok q).
Proof.
  intros Ha Hroom Hinit.
  pose proof (roomy_safe _ _ _ _ Ha Hroom Hinit) as Hs.
  destruct (init_sound _ _ _ _ Hinit) as (Hinv & _ & _ & _ & _ & _ & _ & Hsize).
  pose proof (run_inv _ ops Hinv) as Hinv'.
  pose proof (run_safe _ ops Hinv Hs) as Hs'.
  destruct (safe_runs _ k v Hinv' Hs') as (Hins & Hsearch & _).
  split; [done|]. split; [done|].
  destruct (run_sizes T0 ops Hinv) as [Hsz _].
  pose proof (pow2_pos alpha Ha).
  eexists. apply load_factor_ok. lia.
Qed.

Lemma empty_search T k (x : Val) : wf T -> empty T -> OT.search T k <> Ok (Some x).
Proof.
  intros [Hwfs Hwfl] (Hes & Hel & _). unfold OT.search.
  destruct (search_subarrays_empty (OT._subarrays T) k Hwfs Hes) as [[_ ->]|[_ ->]];
    [|done]. simpl.
  destruct (OT._last_array T) as [la|]; [|done]. destruct Hwfl as [Hwl _].
  destruct (decide (2 <= LastSubArray._b_size la /\
                    2 <= Z.of_nat (length (LastSubArray._c la)))) as [Hs|Hns].
  - rewrite LF.la_search_free; [done|done|done|by apply LF.la_empty_free].
  - by rewrite LF.la_search_unsafe.
Qed.

(** X21. An overwrite is never refused. On a table built by the
    constructor and taken through any operations, when [search(k)]
    returns a value that is not [None], [insert(k, v)] returns [True]
    for every [v], whatever the load factor; afterwards [search(k)]
    returns [v], and the count and [load_factor] are as before. *)
Theorem overwrite_accepted initial_size alpha max_probes T0 ops k (x : Val) v :
  OT.init initial_size alpha max_probes = Ok T0 ->
  OT.search (OT.run T0 ops) k = Ok (Some x) ->
  exists T', OT.insert (OT.run T0 ops) k v = (Ok true, T') /\
    OT.search T' k = Ok v /\
    OT._count T' = OT._count (OT.run T0 ops) /\
    OT.load_factor T' = OT.load_factor (OT.run T0 ops).
Proof.
  intros Hinit Hsearch.
  pose proof (run_inv _ ops (init_inv _ _ _ _ Hinit)) as [Hwf [[Hs Hkeys]|[_ He]]].
  2:{ by destruct (empty_search _ k x Hwf He). }
  destruct (Hkeys k) as [Habs|[v0 Hst]].
  { by rewrite search_absent in Hsearch. }
  rewrite (search_stored _ k v0) in Hsearch by done. injection Hsearch as ->.
  destruct (insert_stored _ k v (Some x) Hwf Hs Hst)
    as [(? & _)|(T' & Hins & Hst' & Hstep & Hc)]; [done|].
  assert (Hcount : OT._count T' = OT._count (OT.run T0 ops)).
  { by destruct Hc as [?|(? & _)]. }
  exists T'. split; [done|]. split; [|split; [done|]].
  - apply search_stored; [by eapply tbl_step_wf|by eapply tbl_step_safe|done].
  - unfold OT.load_factor. destruct Hstep as (-> & _). by rewrite Hcount.
Qed.

End table.

(** *** Concrete runs *)

Lemma uniform_round_trip_witness :
  SubArray.search (sub_after (sa_call sub16 (1, Some 10, 5)) [(17, Some 3, 5)]) 1
  = Ok (Some 10).
Proof.
  apply (uniform_round_trip sub16 _ 1 (Some 10) 5 [(17, Some 3, 5)]).
  - split; [simpl; lia|reflexivity].
  - vm_compute. reflexivity.
  - repeat constructor. simpl. lia.
Defined.

Lemma uniform_refusal_witness :
  let sa := sa_call sub16 (1, Some 10, 5) in
  exists b sa', SubArray.insert sa 17 (Some 3) 1 = Ok (b, sa') /\
    (b = false <->
     forall j, 0 <= j < 1 ->
       other 17 (nth_slot (SubArray._table sa) (probe (SubArray._size sa) 17 j))) /\
    (b = false -> sa' = sa).
Proof.
  assert (Hwf : SS.wf (sa_call sub16 (1, Some 10, 5))).
  { vm_compute. split; [discriminate|reflexivity]. }
  assert (Hs : SS.safe (sa_call sub16 (1, Some 10, 5))).
  { vm_compute. discriminate. }
  exact (uniform_refusal (sa_call sub16 (1, Some 10, 5)) 17 (Some 3) 1 Hwf Hs).
Defined.

Lemma terminal_usable_sizes_witness :
  ((32 = 5 \/ 32 = 6 \/ 9 <= 32) ->
   (exists b la', LastSubArray.insert (la_after last32 [(1, Some 1)]) 2 (Some 2)
                  = Ok (b, la')) /\
   (exists r, LastSubArray.search (la_after last32 [(1, Some 1)]) 2 = Ok r)) /\
  (~ (32 = 5 \/ 32 = 6 \/ 9 <= 32) ->
   la_after last32 [(1, Some 1)] = last32 /\
   LastSubArray.insert last32 2 (Some 2) = Raise ZeroDivisionError /\
   LastSubArray.search last32 2 = Raise ZeroDivisionError).
Proof.
  assert (Hinit : LastSubArray.init 32 = Ok last32) by (vm_compute; reflexivity).
  exact (terminal_usable_sizes 32 last32 [(1, Some 1)] 2 (Some 2) Hinit).
Defined.

Lemma terminal_round_trip_witness :
  LastSubArray.search (la_after (la_call last32 (1, Some 1)) [(17, Some 17)]) 1
  = Ok (Some 1).
Proof.
  apply (terminal_round_trip 32 last32 _ [] 1 (Some 1) [(17, Some 17)]).
  - vm_compute. reflexivity.
  - vm_compute. reflexivity.
  - repeat constructor. simpl. lia.
Defined.

Lemma terminal_count_witness :
  let la := la_after last32 [(1, Some 1); (17, Some 17)] in
  LastSubArray._count la = count_occupied (la_slots la) /\
  0 <= LastSubArray._count la < 32 + LastSubArray._bucket_size last32 /\
  LastSubArray.load_factor la =
    Ok (inject_Z (count_occupied (la_slots la)) / inject_Z 32)%Q.
Proof.
  assert (Hinit : LastSubArray.init 32 = Ok last32) by (vm_compute; reflexivity).
  exact (terminal_count 32 last32 [(1, Some 1); (17, Some 17)] Hinit).
Defined.

Lemma terminal_key_once_witness :
  count_key 1 (la_slots (la_after last32 [(1, Some 1); (1, Some 2)])) <= 1.
Proof.
  apply (terminal_key_once 32 last32 [(1, Some 1); (1, Some 2)] 1).
  vm_compute. reflexivity.
Defined.

Lemma tier_sizes_witness :
  (forall (j : nat) sa, OT._subarrays table64 !! j = Some sa ->
     sa = SubArray.init ((64 `div` 2) `div` 2 ^ Z.of_nat j) /\
     1 <= SubArray._size sa /\ Z.of_nat j < 1) /\
  (forall (j : nat) sa sb,
     OT._subarrays table64 !! j = Some sa -> OT._subarrays table64 !! S j = Some sb ->
     SubArray._size sb < SubArray._size sa) /\
  (1 <= 64 `div` 2 ->
   Z.of_nat (length (OT._subarrays table64)) =
   Z.min (Z.max 0 1) (Z.log2 (64 `div` 2) + 1)) /\
  (64 `div` 2 < 1 -> OT._subarrays table64 = []).
Proof.
  assert (Hinit : OT.init 64 1 3 = Ok table64) by (vm_compute; reflexivity).
  exact (tier_sizes 64 1 3 table64 Hinit).
Defined.

Lemma insert_writes_one_slot_witness :
  let T' := (OT.insert table64 3 (Some 4)).2 in
  written 3 (Some 4) (slots table64) (slots T') (tiers_count T' - tiers_count table64) /\
  OT._size T' = OT._size table64 /\ OT._max_probes T' = OT._max_probes table64 /\
  OT._alpha T' = OT._alpha table64 /\ total_capacity T' = total_capacity table64.
Proof.
  assert (Hwf : wf table64).
  { vm_compute. split; [repeat constructor; discriminate|].
    repeat split; try discriminate; repeat constructor. }
  assert (Hins : OT.insert table64 3 (Some 4) =
                 (Ok true, (OT.insert table64 3 (Some 4)).2)).
  { vm_compute. reflexivity. }
  exact (insert_writes_one_slot table64 3 (Some 4) _ Hwf Hins).
Defined.

Lemma key_in_one_slot_witness :
  count_key 3 (slots (OT.run table64 [OT.Insert 3 (Some 4); OT.Insert 3 (Some 5)])) <= 1.
Proof.
  apply (key_in_one_slot 64 1 3 table64 [OT.Insert 3 (Some 4); OT.Insert 3 (Some 5)] 3).
  vm_compute. reflexivity.
Defined.

Lemma count_covers_occupancy_witness :
  let T := OT.run table64 [OT.Insert 3 (Some 4); OT.Insert 5 (Some 6)] in
  tiers_count T = count_occupied (slots T) /\
  count_occupied (slots T) <= OT._count T /\
  (no_none_value [OT.Insert 3 (Some 4); OT.Insert 5 (Some 6)] ->
   OT._count T = count_occupied (slots T)).
Proof.
  assert (Hinit : OT.init 64 1 3 = Ok table64) by (vm_compute; reflexivity).
  exact (count_covers_occupancy 64 1 3 table64
           [OT.Insert 3 (Some 4); OT.Insert 5 (Some 6)] Hinit).
Defined.

Lemma entries_stay_witness :
  let T := OT.run table64 [OT.Insert 3 (Some 4)] in
  let ops := [OT.Insert 35 (Some 1); OT.Insert 3 (Some 9)] in
  length (slots (OT.run T ops)) = length (slots T) /\
  exists v1, slots (OT.run T ops) !! 3%nat = Some (Some (3, v1)) /\
    (Forall (fun o => forall v, o <> OT.Insert 3 v) ops -> v1 = Some 4).
Proof.
  assert (Hwf : wf (OT.run table64 [OT.Insert 3 (Some 4)])).
  { vm_compute. split; [repeat constructor; discriminate|].
    repeat split; try discriminate; repeat constructor. }
  assert (Hp : slots (OT.run table64 [OT.Insert 3 (Some 4)]) !! 3%nat
               = Some (Some (3, Some 4))).
  { vm_compute. reflexivity. }
  exact (entries_stay (OT.run table64 [OT.Insert 3 (Some 4)])
           [OT.Insert 35 (Some 1); OT.Insert 3 (Some 9)] 3 3 (Some 4) Hwf Hp).
Defined.

Lemma zero_modulus_raises_witness :
  OT.run table16 [OT.Insert 1 (Some 1); OT.Search 1] = table16 /\
  OT.insert table16 2 (Some 2) = (Raise ZeroDivisionError, table16) /\
  OT.search table16 2 = Raise ZeroDivisionError.
Proof.
  apply (zero_modulus_raises 16 1 3 table16 [OT.Insert 1 (Some 1); OT.Search 1] 2 (Some 2)).
  - vm_compute. reflexivity.
  - lia.
  - intros (_ & la & Hla & _ & Hc). vm_compute in Hla. injection Hla as <-.
    simpl in Hc. lia.
Defined.

Lemma roomy_table_never_raises_witness :
  (exists b, (OT.insert (OT.run table64 [OT.Insert 3 (Some 4)]) 5 (Some 6)).1 = Ok b) /\
  (exists r, OT.search (OT.run table64 [OT.Insert 3 (Some 4)]) 5 = Ok r) /\
  (exists q, OT.load_factor (OT.run table64 [OT.Insert 3 (Some 4)]) = Ok q).
Proof.
  apply (roomy_table_never_raises 64 1 3 table64 [OT.Insert 3 (Some 4)] 5 (Some 6)).
  - lia.
  - simpl. lia.
  - vm_compute. reflexivity.
Defined.

Lemma overwrite_accepted_witness :
  exists T', OT.insert (OT.run table5 five_inserts) 1 (Some 9) = (Ok true, T') /\
    OT.search T' 1 = Ok (Some 9) /\
    OT._count T' = OT._count (OT.run table5 five_inserts) /\
    OT.load_factor T' = OT.load_factor (OT.run table5 five_inserts).
Proof.
  apply (overwrite_accepted 5 0 1 table5 five_inserts 1 1 (Some 9)).
  - vm_compute. reflexivity.
  - vm_compute. reflexivity.
Defined.

End Further.
